(** * IDIOMS: a shallow embedding of the distributed metadata index

  The development follows the C++ sources of the repository:
  - [idioms.cpp]: the two-layer affix index ([ValueTrie], [KeyTrie],
    [IdiomsClient]);
  - [dart.cpp] and [src4/dart/DART.cpp]: the consistent hash ring, the
    virtual nodes and the DART router, and the demo server of [dart.cpp]
    with its client and its checkpoint;
  - [src4/popularity/PopularityTracker.cpp] and
    [src4/dart/AdaptiveDARTRouter.cpp]: popularity scores and the adaptive
    router;
  - [src4/fault/FaultManager.cpp]: the heartbeat failure detector;
  - [src1/server/Server.cpp]: the trie-backed server with checkpoint and
    recovery.

  Conventions.  [int], [uint32_t] and [uint64_t] values are integers in [Z]
  (wrap-around is written out for the hashes and for the sums over a
  replication factor), [std::string]
  is [string], [std::unordered_map] is [gmap], [std::unordered_set<int>]
  is [gset Z], [std::vector] is [list].  [double] arithmetic is idealised
  by the real numbers: rounding is not modelled, the control flow is. *)

From Stdlib Require Import ZArith String Ascii List Lia Reals Lra.
From Stdlib Require Import DecimalString.
From Stdlib Require DecimalZ DecimalPos.
From stdpp Require Import base gmap sets list strings sorting.

#[local] Set Warnings "-register-all".
#[local] Open Scope string_scope.
#[local] Open Scope list_scope.
#[local] Open Scope Z_scope.

(* ===================================================================== *)
(** * The pieces of [std::string] the sources use *)
(* ===================================================================== *)

Module Cpp.

(** [s.find(pat)]: position of the first occurrence, [None] for [npos]. *)
Definition find (s pat : string) : option nat := String.index 0 pat s.

(** [s.find(c)] for a character. *)
Definition find_char (s : string) (c : ascii) : option nat :=
  String.index 0 (String c EmptyString) s.

(** [s.substr(pos, len)] and [s.substr(pos)]; every call site of the
    sources has [pos <= s.length()], so no [out_of_range] is raised. *)
Definition substr (s : string) (pos len : nat) : string :=
  String.substring pos len s.

Definition substr_from (s : string) (pos : nat) : string :=
  String.substring pos (String.length s - pos) s.

(** [s.front()] and [s.back()].  On an empty string the standard leaves
    both undefined; libstdc++ reads a zero byte there (the terminator,
    resp. the top byte of the zero length field), which is what the model
    returns, so both compare unequal to ['*']. *)
Definition front (s : string) : ascii :=
  match s with
  | EmptyString => Ascii.zero
  | String c _ => c
  end.

Fixpoint back (s : string) : ascii :=
  match s with
  | EmptyString => Ascii.zero
  | String c EmptyString => c
  | String _ rest => back rest
  end.

Definition empty (s : string) : bool :=
  match s with EmptyString => true | _ => false end.

(** [key.find(tok) == 0]. *)
Definition starts_with (key tok : string) : bool :=
  match find key tok with
  | Some O => true
  | _ => false
  end.

(** [key.find(tok) != npos]. *)
Definition contains (key tok : string) : bool :=
  match find key tok with
  | Some _ => true
  | None => false
  end.

(** [key.length() >= tok.length() &&
     key.compare(key.length() - tok.length(), tok.length(), tok) == 0]. *)
Definition ends_with (key tok : string) : bool :=
  (String.length tok <=? String.length key)%nat &&
  String.eqb
    (substr key (String.length key - String.length tok) (String.length tok))
    tok.

(** [std::to_string(int)]. *)
Definition to_string (z : Z) : string := NilZero.string_of_int (Z.to_int z).

Definition star : ascii := "*"%char.

(** The suffixes [s.substr(i)] for [i = 0 .. s.length() - 1], in loop
    order. *)
Fixpoint suffixes (s : string) : list string :=
  match s with
  | EmptyString => []
  | String _ rest => s :: suffixes rest
  end.

(** Splitting a query at its first ['=']: the key portion, and the value
    portion, which defaults to ["*"]. *)
Definition keyPortion (query : string) : string :=
  match find_char query "="%char with
  | Some pos => substr query 0 pos
  | None => query
  end.

Definition valuePortion (query : string) : string :=
  match find_char query "="%char with
  | Some pos => substr_from query (pos + 1)
  | None => "*"
  end.

(** ** [int] and [size_t]

    [int] has 32 bits.  An [int] sum that leaves the range wraps around,
    which is what the arithmetic instructions of x86-64 do (the standard
    leaves signed overflow undefined).  Where an [int] meets a [size_t] in
    a comparison, the [int] is converted: taken modulo [2 ^ 64]. *)
Definition INT_MAX : Z := 2147483647.
Definition INT_MIN : Z := -2147483648.

Definition int32 (z : Z) : Z := (z + 2 ^ 31) mod 2 ^ 32 - 2 ^ 31.

Definition to_size_t (z : Z) : Z := z mod 2 ^ 64.

End Cpp.

(* ===================================================================== *)
(** * The query grammar shared by the sources *)
(* ===================================================================== *)

Module Query.

(** The shape of a pattern, by the [if] ladder that [parseQueryCondition],
    [getDestinationServers] and the trie-backed servers all use. *)
Inductive Shape := WILDCARD | INFIX | SUFFIX | PREFIX | EXACT.

Definition shapeOf (part : string) : Shape :=
  if String.eqb part "*" then WILDCARD
  else if Ascii.eqb (Cpp.front part) Cpp.star
          && Ascii.eqb (Cpp.back part) Cpp.star
          && (2 <? String.length part)%nat then INFIX
  else if Ascii.eqb (Cpp.front part) Cpp.star then SUFFIX
  else if Ascii.eqb (Cpp.back part) Cpp.star then PREFIX
  else EXACT.

(** The token a shape leaves once its stars are removed. *)
Definition tokenOf (shape : Shape) (part : string) : string :=
  match shape with
  | WILDCARD | EXACT => part
  | INFIX => Cpp.substr part 1 (String.length part - 2)
  | SUFFIX => Cpp.substr_from part 1
  | PREFIX => Cpp.substr part 0 (String.length part - 1)
  end.

End Query.

(* ===================================================================== *)
(** * The heartbeat failure detector ([src4/fault/FaultManager.cpp]) *)
(* ===================================================================== *)

Module Fault.

Inductive ServerStatus := ACTIVE | SUSPECT | CONFIRMED_DOWN | RECOVERING.

#[global] Instance ServerStatus_eq_dec : EqDecision ServerStatus.
Proof. solve_decision. Defined.

Definition RECOVERY_TAG : Z := 11.
Definition RECOVERY_COORD_TAG : Z := 12.

(** One [MPI_Send] of a [RecoveryMessage]. *)
Record RecoverySend := {
  dest : Z;
  tag : Z;
  failedServerId : Z;
  coordinatorId : Z
}.

(** The fields of [FaultManager] the detector reads and writes.  Time
    points of [steady_clock] are nanosecond counts; [sent] logs the
    recovery messages handed to MPI, oldest first. *)
Record FaultManager := {
  rank : Z;
  worldSize : Z;
  isClient : bool;
  serverStatus : gmap Z ServerStatus;
  lastHeartbeat : gmap Z Z;
  timeoutThreshold : Z;
  confirmationThreshold : Z;
  sent : list RecoverySend
}.

Definition set_status (f : gmap Z ServerStatus -> gmap Z ServerStatus)
    (fm : FaultManager) : FaultManager :=
  {| rank := rank fm; worldSize := worldSize fm; isClient := isClient fm;
     serverStatus := f (serverStatus fm);
     lastHeartbeat := lastHeartbeat fm;
     timeoutThreshold := timeoutThreshold fm;
     confirmationThreshold := confirmationThreshold fm;
     sent := sent fm |}.

Definition set_heartbeat (f : gmap Z Z -> gmap Z Z)
    (fm : FaultManager) : FaultManager :=
  {| rank := rank fm; worldSize := worldSize fm; isClient := isClient fm;
     serverStatus := serverStatus fm;
     lastHeartbeat := f (lastHeartbeat fm);
     timeoutThreshold := timeoutThreshold fm;
     confirmationThreshold := confirmationThreshold fm;
     sent := sent fm |}.

Definition push_sent (msgs : list RecoverySend)
    (fm : FaultManager) : FaultManager :=
  {| rank := rank fm; worldSize := worldSize fm; isClient := isClient fm;
     serverStatus := serverStatus fm;
     lastHeartbeat := lastHeartbeat fm;
     timeoutThreshold := timeoutThreshold fm;
     confirmationThreshold := confirmationThreshold fm;
     sent := sent fm ++ msgs |}.

Definition ms (n : Z) : Z := n * 1000000.

(** The constructor: ranks [1 .. worldSize - 1] start [ACTIVE] with the
    construction time as last heartbeat. *)
Definition new (mpiRank mpiWorldSize : Z) (isClientProcess : bool)
    (now : Z) : FaultManager :=
  let ranks := seqZ 1 (mpiWorldSize - 1) in
  {| rank := mpiRank; worldSize := mpiWorldSize;
     isClient := isClientProcess;
     serverStatus := list_to_map (map (fun i => (i, ACTIVE)) ranks);
     lastHeartbeat := list_to_map (map (fun i => (i, now)) ranks);
     timeoutThreshold := ms 2000;
     confirmationThreshold := ms 5000;
     sent := [] |}.

(** [initiateRecovery]: the first active server of the iteration becomes
    coordinator, the other active servers are told to participate;
    [updateRouter] only prints.  No status changes. *)
Definition activeServers (fm : FaultManager) : list Z :=
  map fst (filter (fun e => e.2 = ACTIVE) (map_to_list (serverStatus fm))).

Definition initiateRecovery (failedRank : Z)
    (fm : FaultManager) : FaultManager :=
  match activeServers fm with
  | [] => fm
  | coordinatorRank :: others =>
      push_sent
        ({| dest := coordinatorRank; tag := RECOVERY_COORD_TAG;
            failedServerId := failedRank;
            coordinatorId := coordinatorRank |}
         :: map (fun serverRank =>
                   {| dest := serverRank; tag := RECOVERY_TAG;
                      failedServerId := failedRank;
                      coordinatorId := coordinatorRank |}) others)
        fm
  end.

(** [serverStatus[serverRank]]: [operator[]] value-initialises a missing
    entry, and the first enumerator is [ACTIVE]. *)
Definition status_at (m : gmap Z ServerStatus) (serverRank : Z)
    : ServerStatus :=
  default ACTIVE (m !! serverRank).

Definition touch_status (serverRank : Z)
    (m : gmap Z ServerStatus) : gmap Z ServerStatus :=
  <[serverRank := status_at m serverRank]> m.

Definition processHeartbeat (serverRank : Z) (now : Z)
    (fm : FaultManager) : FaultManager :=
  let fm1 := set_heartbeat (insert serverRank now) fm in
  let fm2 := set_status (touch_status serverRank) fm1 in
  match status_at (serverStatus fm2) serverRank with
  | SUSPECT | RECOVERING => set_status (insert serverRank ACTIVE) fm2
  | _ => fm2
  end.

Definition notifyServerFailure (serverRank : Z)
    (fm : FaultManager) : FaultManager :=
  let fm1 := set_status (insert serverRank CONFIRMED_DOWN) fm in
  if isClient fm1 then initiateRecovery serverRank fm1 else fm1.

(** The body of the loop of [checkHeartbeats] for the entry of
    [serverRank]; [lastHeartbeat[serverRank]] inserts the epoch when the
    rank has no entry. *)
Definition checkEntry (now : Z) (fm : FaultManager)
    (serverRank : Z) : FaultManager :=
  match serverStatus fm !! serverRank with
  | None => fm
  | Some CONFIRMED_DOWN => fm
  | Some status =>
      let last := default 0 (lastHeartbeat fm !! serverRank) in
      let fm1 := set_heartbeat (insert serverRank last) fm in
      let timeSinceLastHeartbeat := now - last in
      match status with
      | ACTIVE =>
          if decide (timeSinceLastHeartbeat > timeoutThreshold fm1)
          then set_status (insert serverRank SUSPECT) fm1
          else fm1
      | SUSPECT =>
          if decide (timeSinceLastHeartbeat > confirmationThreshold fm1)
          then initiateRecovery serverRank
                 (set_status (insert serverRank CONFIRMED_DOWN) fm1)
          else fm1
      | _ => fm1
      end
  end.

(** [checkHeartbeats]: one pass over the entries of [serverStatus]; the
    loop changes values in place and never adds or removes a key. *)
Definition checkHeartbeats (now : Z) (fm : FaultManager) : FaultManager :=
  foldl (checkEntry now) fm (map fst (map_to_list (serverStatus fm))).

(** The step relation of the detector, as a function of the event. *)
Inductive Event :=
| Check (now : Z)
| Heartbeat (serverRank : Z) (now : Z)
| Failure (serverRank : Z).

Definition step (e : Event) (fm : FaultManager) : FaultManager :=
  match e with
  | Check now => checkHeartbeats now fm
  | Heartbeat serverRank now => processHeartbeat serverRank now fm
  | Failure serverRank => notifyServerFailure serverRank fm
  end.

Definition run (es : list Event) (fm : FaultManager) : FaultManager :=
  foldl (fun acc e => step e acc) fm es.

Definition heartbeatDriven (e : Event) : bool :=
  match e with
  | Failure _ => false
  | _ => true
  end.

(** The transitions the specification allows in one step.  [advance]:
    stay, or one stage forward along [ACTIVE], [SUSPECT],
    [CONFIRMED_DOWN].  [revive]: stay, or back to [ACTIVE] from [SUSPECT]
    or [RECOVERING]. *)
Inductive advance : ServerStatus -> ServerStatus -> Prop :=
| advance_stay s : advance s s
| advance_suspect : advance ACTIVE SUSPECT
| advance_confirm : advance SUSPECT CONFIRMED_DOWN.

Inductive revive : ServerStatus -> ServerStatus -> Prop :=
| revive_stay s : revive s s
| revive_suspect : revive SUSPECT ACTIVE
| revive_recovering : revive RECOVERING ACTIVE.

Definition forward (st st' : ServerStatus) : Prop :=
  advance st st' \/ revive st st'.

(** What one pass of the check loop does to a single status. *)
Definition checkOne (now last timeout confirm : Z)
    (status : ServerStatus) : ServerStatus :=
  match status with
  | ACTIVE => if decide (now - last > timeout) then SUSPECT else ACTIVE
  | SUSPECT =>
      if decide (now - last > confirm) then CONFIRMED_DOWN else SUSPECT
  | s => s
  end.

(** The fault manager of a client watching a single server of rank 1. *)
Definition oneServer : FaultManager := new 0 2 true 0.

(** ** The remaining public methods and the sender of heartbeats *)

Definition isServerActive (serverRank : Z) (fm : FaultManager) : bool :=
  match serverStatus fm !! serverRank with
  | Some ACTIVE => true
  | _ => false
  end.

(** [getActiveServers] runs the loop that [initiateRecovery] runs. *)
Definition getActiveServers (fm : FaultManager) : list Z := activeServers fm.

(** One [MPI_Send] of a [HeartbeatMessage]. *)
Record HeartbeatSend := {
  hbDest : Z;
  hbSender : Z;
  hbTimestamp : Z
}.

(** The body of the loop of [sendHeartbeats] for rank [i]; the test reads
    [serverStatus[i]], which registers an unknown rank as [ACTIVE]. *)
Definition sendHeartbeatTo (timestamp : Z)
    (acc : list HeartbeatSend * FaultManager) (i : Z)
    : list HeartbeatSend * FaultManager :=
  let fm1 := set_status (touch_status i) acc.2 in
  match status_at (serverStatus fm1) i with
  | ACTIVE | SUSPECT =>
      (acc.1 ++ [{| hbDest := i; hbSender := rank fm1;
                    hbTimestamp := timestamp |}], fm1)
  | _ => (acc.1, fm1)
  end.

(** [sendHeartbeats]: [for (int i = 1; i < worldSize; i++)]. *)
Definition sendHeartbeats (timestamp : Z) (fm : FaultManager)
    : list HeartbeatSend * FaultManager :=
  foldl (sendHeartbeatTo timestamp) ([], fm) (seqZ 1 (worldSize fm - 1)).

(** The ranks [sendHeartbeats] addresses. *)
Definition heartbeatTarget (fm : FaultManager) (i : Z) : bool :=
  match status_at (serverStatus fm) i with
  | ACTIVE | SUSPECT => true
  | _ => false
  end.

(** A client that watches the ranks 1 and 2, and the message that makes
    rank 2 the coordinator of the recovery of rank 1. *)
Definition twoServers : FaultManager := new 0 3 true 0.

Definition coordinatorNotice : RecoverySend :=
  {| dest := 2; tag := RECOVERY_COORD_TAG;
     failedServerId := 1; coordinatorId := 2 |}.

(** A sequence of checks, none later than [deadline]. *)
Definition checksUntil (deadline : Z) (es : list Event) : Prop :=
  Forall (fun e => exists now, e = Check now /\ now <= deadline) es.

End Fault.

(* ===================================================================== *)
(** * Consistent hashing and the DART router
      ([dart.cpp], [src4/dart/DART.cpp]) *)
(* ===================================================================== *)

Module Dart.

Definition RING_SIZE : Z := 40.
Definition NUM_VIRTUAL_NODES : nat := 256.

(** A [char] mixed into an unsigned hash of width [w]: it is promoted to
    [int] and converted, so a negative [char] (the type is signed on
    x86-64) is sign-extended. *)
Definition char_bits (w : Z) (c : ascii) : Z :=
  let n := Z.of_N (N_of_ascii c) in
  if n <? 128 then n else 2 ^ w - 256 + n.

(** [ConsistentHash::hash]: FNV-1a over [uint64_t]. *)
Fixpoint fnv64 (key : string) (hash : Z) : Z :=
  match key with
  | EmptyString => hash
  | String c rest =>
      fnv64 rest ((Z.lxor hash (char_bits 64 c) * 1099511628211) mod 2 ^ 64)
  end.

Definition hash64 (key : string) (seed : Z) : Z :=
  fnv64 key ((14695981039346656037 + seed) mod 2 ^ 64).

(** [DARTRouter::hash]: FNV-1a over [uint32_t]. *)
Fixpoint fnv32 (key : string) (hash : Z) : Z :=
  match key with
  | EmptyString => hash
  | String c rest =>
      fnv32 rest ((Z.lxor hash (char_bits 32 c) * 16777619) mod 2 ^ 32)
  end.

Definition hash32 (key : string) : Z := fnv32 key 2166136261.

(** Ring entries are pairs [(position, server_id)]. *)
Abbreviation RingEntry := (Z * Z)%type.

(** The class exists twice.  The copy of [dart.cpp] reserves buckets for
    its set at the top of [getReplicaServers]; the copy of
    [src4/dart/DART.cpp] does not.  Everything else is the same code, and
    an object remembers which copy it is. *)
Inductive Copy := DART_CPP | SRC4.

Record ConsistentHash := {
  numServers : Z;
  ring : list RingEntry;
  copy : Copy
}.

Definition ringKey (server i : Z) : string :=
  "server" +:+ Cpp.to_string server +:+ "_" +:+ Cpp.to_string i.

(** The two nested loops of the constructor, before sorting. *)
Definition ringEntries (n : Z) : list RingEntry :=
  flat_map
    (fun server =>
       map (fun i => (hash64 (ringKey server i) 0, server))
           (seqZ 0 RING_SIZE))
    (seqZ 0 n).

(** [sortRing]: [std::sort] by position.  The order of entries with equal
    positions is unspecified in C++; the model keeps their insertion
    order. *)
Definition position_le (a b : RingEntry) : Prop := a.1 <= b.1.

#[global] Instance position_le_dec a b : Decision (position_le a b).
Proof. unfold position_le. apply _. Defined.

Definition sortRing (entries : list RingEntry) : list RingEntry :=
  merge_sort position_le entries.

Definition newConsistentHashOf (c : Copy) (n : Z) : ConsistentHash :=
  {| numServers := n; ring := sortRing (ringEntries n); copy := c |}.

(** The class of [dart.cpp]. *)
Definition newConsistentHash (n : Z) : ConsistentHash :=
  newConsistentHashOf DART_CPP n.

(** [std::lower_bound] with the comparator [a.first < b.first]: the index
    of the first entry that is not below [keyHash], the length of the ring
    when there is none. *)
Fixpoint lower_bound (entries : list RingEntry) (keyHash : Z) : nat :=
  match entries with
  | [] => O
  | e :: rest =>
      if decide (e.1 < keyHash) then S (lower_bound rest keyHash) else O
  end.

(** The iterator after the wrap-around test. *)
Definition startIndex (ch : ConsistentHash) (key : string) : nat :=
  let it := lower_bound (ring ch) (hash64 key 0) in
  if decide (it = length (ring ch)) then O else it.

Definition serverAt (ch : ConsistentHash) (it : nat) : Z :=
  match ring ch !! it with
  | Some e => e.2
  | None => 0
  end.

Definition getServer (ch : ConsistentHash) (key : string) : Z :=
  match ring ch with
  | [] => 0
  | _ => serverAt ch (startIndex ch key)
  end.

(** [uniqueServers.reserve(count)] on the empty set.  libstdc++ derives
    the number of buckets from [count] in a [double].  Up to [2 ^ 60]
    buckets, the most its allocator hands out, the call returns (memory
    is not bounded in the model); beyond, the allocation of the buckets
    throws, except for the counts within 1024 of [2 ^ 64], which round to
    [2 ^ 64], convert back to 0 and reserve nothing.  The counts that
    occur here come from an [int]: they are below [2 ^ 31] or at least
    [2 ^ 64 - 2 ^ 31]. *)
Definition reserveReturns (count : Z) : bool :=
  (count <? 2 ^ 60) || (2 ^ 64 - 1024 <=? count).

(** The [while] loop of [getReplicaServers].  [fuel] bounds the number of
    iterations; [None] means the bound was reached with the loop
    condition still true.  [target] is the right-hand side of the
    condition as the comparison with [size()] reads it. *)
Fixpoint replicaLoop (ch : ConsistentHash) (target : Z) (fuel : nat)
    (it : nat) (uniqueServers : gset Z) (servers : list Z)
    : option (list Z) :=
  if decide (Z.of_nat (size uniqueServers) < target) then
    match fuel with
    | O => None
    | S fuel' =>
        let it' := if decide (S it = length (ring ch)) then O else S it in
        let s := serverAt ch it' in
        if decide (s ∈ uniqueServers)
        then replicaLoop ch target fuel' it' uniqueServers servers
        else replicaLoop ch target fuel' it'
               ({[s]} ∪ uniqueServers) (servers ++ [s])
    end
  else Some servers.

(** [getReplicaServers].  [replicationFactor + 1] is an [int] sum, so it
    wraps at [INT_MAX]; [std::min] compares two [int]s, and the loop
    condition converts the smaller one to [size_t].  The copy of
    [dart.cpp] starts with [uniqueServers.reserve(replicationFactor + 1)],
    before it looks at the ring or at the factor; [None] is the exception
    of a failed [reserve]. *)
Definition getReplicaServersFuel (fuel : nat) (ch : ConsistentHash)
    (key : string) (replicationFactor : Z) : option (list Z) :=
  let reserved :=
    match copy ch with
    | DART_CPP =>
        reserveReturns (Cpp.to_size_t (Cpp.int32 (replicationFactor + 1)))
    | SRC4 => true
    end in
  if reserved then
    match ring ch with
    | [] => Some []
    | _ =>
        if decide (replicationFactor <= 0) then Some []
        else
          let it := startIndex ch key in
          let primary := serverAt ch it in
          replicaLoop ch
            (Cpp.to_size_t
               (Z.min (Cpp.int32 (replicationFactor + 1)) (numServers ch)))
            fuel it {[primary]} [primary]
    end
  else None.

(** One full lap of the ring is all the loop can use: a lap that ends
    with the condition still true has seen every entry, and the loop then
    spins forever.  [None] is that divergence, or the exception above. *)
Definition getReplicaServers (ch : ConsistentHash)
    (key : string) (replicationFactor : Z) : option (list Z) :=
  getReplicaServersFuel (length (ring ch)) ch key replicationFactor.

(** The invariant of the loop after [k] iterations that started at
    position [p0]: [servers] lists [uniqueServers] without repetition,
    holds at most [target] ids, and every position visited so far has
    its server in the set. *)
Definition walked (ch : ConsistentHash) (target : Z) (p0 k : nat)
    (uniqueServers : gset Z) (servers : list Z) : Prop :=
  NoDup servers /\
  (forall s, s ∈ uniqueServers <-> s ∈ servers) /\
  size uniqueServers = length servers /\
  Z.of_nat (length servers) <= target /\
  forall j : nat, (j <= k)%nat ->
    serverAt ch ((p0 + j) mod length (ring ch))%nat ∈ uniqueServers.

(** ** Virtual nodes *)

Record VirtualNode := {
  id : Z;
  prefix : string
}.

Definition containsKey (v : VirtualNode) (key : string) : bool :=
  Cpp.starts_with key (prefix v).

(** [for (char c = lo; c <= hi; c++)]. *)
Definition charRange (lo hi : ascii) : list string :=
  map (fun n => String (ascii_of_nat n) EmptyString)
      (seq (nat_of_ascii lo) (nat_of_ascii hi + 1 - nat_of_ascii lo)).

Definition specialChars : string := "_-./,:;!@#$%^&*()".

Definition commonPrefixes : list string :=
  ["St"; "Fi"; "Da"; "Ti"; "Us"; "Pr"; "Sp"; "Ke"; "Va"; "Ex";
   "Co"; "In"; "Re"; "De"; "Tr"; "Lo"; "Po"; "Pa"; "Mo"; "Se"].

Definition prefixes : list string :=
  charRange "a" "z" ++ charRange "A" "Z" ++ charRange "0" "9"
  ++ map (fun c => String c EmptyString) (list_ascii_of_string specialChars)
  ++ commonPrefixes
  ++ [""].

(** The inner [for] over the prefixes, with its [break]. *)
Fixpoint fillPass (ps : list string)
    (vnodes : list VirtualNode) : list VirtualNode :=
  match ps with
  | [] => vnodes
  | p :: rest =>
      if decide (NUM_VIRTUAL_NODES <= length vnodes)%nat then vnodes
      else fillPass rest
             (vnodes ++ [{| id := Z.of_nat (length vnodes); prefix := p |}])
  end.

(** The outer [while (virtualNodes.size() < NUM_VIRTUAL_NODES)]; every
    pass adds a node, so [NUM_VIRTUAL_NODES] passes are enough (see
    [createVirtualNodes_length]). *)
Fixpoint fillLoop (fuel : nat)
    (vnodes : list VirtualNode) : list VirtualNode :=
  if decide (length vnodes < NUM_VIRTUAL_NODES)%nat then
    match fuel with
    | O => vnodes
    | S fuel' => fillLoop fuel' (fillPass prefixes vnodes)
    end
  else vnodes.

Definition createVirtualNodes : list VirtualNode :=
  fillLoop NUM_VIRTUAL_NODES [].

Record DARTRouter := {
  routerServers : Z;
  replicationFactor : Z;
  serverMap : ConsistentHash;
  virtualNodes : list VirtualNode;
  virtualNodeToServer : gmap Z Z;
  serverToVirtualNodes : gmap Z (list Z)
}.

(** The assignment loop at the end of [initializeVirtualNodes]. *)
Definition assignStep (ch : ConsistentHash)
    (acc : gmap Z Z * gmap Z (list Z)) (v : VirtualNode)
    : gmap Z Z * gmap Z (list Z) :=
  let serverId := getServer ch ("vnode_" +:+ Cpp.to_string (id v)) in
  (<[id v := serverId]> acc.1,
   <[serverId := default [] (acc.2 !! serverId) ++ [id v]]> acc.2).

Definition assignVirtualNodes (ch : ConsistentHash)
    (vnodes : list VirtualNode) : gmap Z Z * gmap Z (list Z) :=
  foldl (assignStep ch) (∅, ∅) vnodes.

(** [static_cast<int>] of a [double]: truncation toward zero.  A value
    whose truncation is no [int] has no defined conversion; the
    instruction that x86-64 uses for it ([cvttsd2si]) yields [INT_MIN]. *)
Definition truncate (x : R) : Z :=
  let whole := if Rle_dec 0 x then Int_part x else (- Int_part (- x))%Z in
  if decide (Cpp.INT_MIN <= whole <= Cpp.INT_MAX) then whole
  else Cpp.INT_MIN.

(** The constructor, for either copy of the class (the two routers are
    the same code).  [numServers] is an [int]: the product is formed from
    its 32 bits. *)
Definition newRouterOf (c : Copy) (n : Z) (replicationRatio : R)
    : DARTRouter :=
  let rf := truncate (IZR (Cpp.int32 n) * replicationRatio) in
  let ch := newConsistentHashOf c n in
  let maps := assignVirtualNodes ch createVirtualNodes in
  {| routerServers := n;
     replicationFactor := if decide (rf < 1) then 1 else rf;
     serverMap := ch;
     virtualNodes := createVirtualNodes;
     virtualNodeToServer := maps.1;
     serverToVirtualNodes := maps.2 |}.

(** The router of [dart.cpp]. *)
Definition newRouter (n : Z) (replicationRatio : R) : DARTRouter :=
  newRouterOf DART_CPP n replicationRatio.

(** [getVirtualNodeId]: the first virtual node, in vector order, whose
    prefix starts the key; the hash is the fall-back. *)
Definition getVirtualNodeId (r : DARTRouter) (key : string) : Z :=
  match List.find (fun v => containsKey v key) (virtualNodes r) with
  | Some v => id v
  | None => hash32 key mod Z.of_nat (length (virtualNodes r))
  end.

Definition getServerForVirtualNode (r : DARTRouter)
    (virtualNodeId : Z) : Z :=
  match virtualNodeToServer r !! virtualNodeId with
  | Some s => s
  | None => hash32 (Cpp.to_string virtualNodeId) mod routerServers r
  end.

(** The replica loop shared by [getServersForKey] and
    [getServersForSuffixQuery]: skip the primary and duplicates, [break]
    once the size has reached [bound].  [bound] is [replicationFactor + 1]
    as the comparison of the caller reads it. *)
Fixpoint addReplicas (primaryServer bound : Z) (replicaServers : list Z)
    (servers : list Z) : list Z :=
  match replicaServers with
  | [] => servers
  | serverId :: rest =>
      if decide (serverId ≠ primaryServer ∧ serverId ∉ servers) then
        let servers' := servers ++ [serverId] in
        if decide (bound <= Z.of_nat (length servers')) then servers'
        else addReplicas primaryServer bound rest servers'
      else addReplicas primaryServer bound rest servers
  end.

(** [servers.size() >= replicationFactor + 1]: the [int] sum wraps and is
    converted to [size_t]. *)
Definition sizeBound (replicationFactor : Z) : Z :=
  Cpp.to_size_t (Cpp.int32 (replicationFactor + 1)).

Definition getServersForKey (r : DARTRouter)
    (key : string) : option (list Z) :=
  let primaryServer := getServerForVirtualNode r (getVirtualNodeId r key) in
  if decide (replicationFactor r > 0) then
    replicaServers ← getReplicaServers (serverMap r) key (replicationFactor r);
    Some (addReplicas primaryServer (sizeBound (replicationFactor r))
            replicaServers [primaryServer])
  else Some [primaryServer].

Definition allServers (r : DARTRouter) : list Z := seqZ 0 (routerServers r).

Definition prefixStep (r : DARTRouter) (pre : string)
    (servers : list Z) (v : VirtualNode) : list Z :=
  if Cpp.starts_with (prefix v) pre || Cpp.starts_with pre (prefix v) then
    let serverId := getServerForVirtualNode r (id v) in
    if decide (serverId ∈ servers) then servers else servers ++ [serverId]
  else servers.

Definition getServersForPrefixQuery (r : DARTRouter)
    (pre : string) : list Z :=
  match foldl (prefixStep r pre) [] (virtualNodes r) with
  | [] => allServers r
  | servers => servers
  end.

Definition getServersForSuffixQuery (r : DARTRouter)
    (suffix : string) : option (list Z) :=
  let primaryServer :=
    getServerForVirtualNode r (getVirtualNodeId r suffix) in
  if decide (replicationFactor r > 0) then
    replicaServers ←
      getReplicaServers (serverMap r) suffix (replicationFactor r);
    Some (addReplicas primaryServer (sizeBound (replicationFactor r))
            replicaServers [primaryServer])
  else Some [primaryServer].

Definition getServersForInfixQuery (r : DARTRouter)
    (infix : string) : list Z :=
  getServersForPrefixQuery r infix.

Definition getServersForWildcardQuery (r : DARTRouter) : list Z :=
  allServers r.

Definition getDestinationServers (r : DARTRouter)
    (query : string) : option (list Z) :=
  let keyPart := Cpp.keyPortion query in
  match Query.shapeOf keyPart with
  | Query.WILDCARD => Some (getServersForWildcardQuery r)
  | Query.INFIX =>
      Some (getServersForInfixQuery r (Query.tokenOf Query.INFIX keyPart))
  | Query.SUFFIX =>
      getServersForSuffixQuery r (Query.tokenOf Query.SUFFIX keyPart)
  | Query.PREFIX =>
      Some (getServersForPrefixQuery r (Query.tokenOf Query.PREFIX keyPart))
  | Query.EXACT => getServersForKey r keyPart
  end.

(** ** The remaining methods of the router *)

Definition getVirtualNodesForServer (r : DARTRouter) (serverId : Z)
    : list Z :=
  default [] (serverToVirtualNodes r !! serverId).

(** The count that [remapServers] prints as its migration plan: the
    virtual nodes that had a server before and have another one now. *)
Definition migrationsNeeded (previousMapping current : gmap Z Z)
    (vnodes : list VirtualNode) : Z :=
  foldl
    (fun count v =>
       let oldServerId := default (-1) (previousMapping !! id v) in
       let newServerId := default 0 (current !! id v) in
       if decide (oldServerId ≠ -1 ∧ oldServerId ≠ newServerId)
       then count + 1 else count)
    0 vnodes.

(** [remapServers]: the router afterwards and the reported count; a
    server count that is not positive changes and reports nothing. *)
Definition remapServers (newNumServers : Z) (r : DARTRouter)
    : DARTRouter * option Z :=
  if decide (newNumServers <= 0) then (r, None)
  else
    let previousMapping := virtualNodeToServer r in
    let rf := truncate (IZR (Cpp.int32 newNumServers) * (1 / 10)) in
    let ch := newConsistentHashOf (copy (serverMap r)) newNumServers in
    let maps :=
      foldl (assignStep ch) (virtualNodeToServer r, ∅) (virtualNodes r) in
    ({| routerServers := newNumServers;
        replicationFactor := if decide (rf < 1) then 1 else rf;
        serverMap := ch;
        virtualNodes := virtualNodes r;
        virtualNodeToServer := maps.1;
        serverToVirtualNodes := maps.2 |},
     Some (migrationsNeeded previousMapping maps.1 (virtualNodes r))).

(** A server id of a system of [n] servers. *)
Definition validServer (n : Z) (s : Z) : Prop := 0 <= s < n.

(** The prefix of a virtual node and the prefix of a query overlap: one
    starts the other. *)
Definition overlaps (v : VirtualNode) (pre : string) : bool :=
  Cpp.starts_with (prefix v) pre || Cpp.starts_with pre (prefix v).

End Dart.

(* ===================================================================== *)
(** * The popularity tracker
      ([src4/popularity/PopularityTracker.cpp]) *)
(* ===================================================================== *)

Module Popularity.

(** Scores are [double]s, idealised as reals; time points of
    [steady_clock] are nanosecond counts.  Every reading of the clock is
    an explicit argument of the function that takes it. *)
Record PopularityTracker := {
  keyPopularity : gmap string R;
  lastAccess : gmap string Z;
  decayFactor : R;
  popularityThreshold : R;
  maxReplicationFactor : Z;
  baseReplicationFactor : Z
}.

Definition new (baseReplication maxReplication : Z)
    (threshold decay : R) : PopularityTracker :=
  {| keyPopularity := ∅; lastAccess := ∅;
     decayFactor := decay; popularityThreshold := threshold;
     maxReplicationFactor := maxReplication;
     baseReplicationFactor := baseReplication |}.

Definition log10 (x : R) : R := (ln x / ln 10)%R.

(** [duration_cast<milliseconds>(now - last).count() / (1000.0 * 60.0 *
    60.0)]: the cast truncates to whole milliseconds. *)
Definition hoursBetween (now last : Z) : R :=
  (IZR (Z.quot (now - last) 1000000) / (1000 * 60 * 60))%R.

Definition calculateDecay (now : Z) (key : string)
    (t : PopularityTracker) : R :=
  match lastAccess t !! key with
  | None => 1%R
  | Some last => exp (- decayFactor t * hoursBetween now last)
  end.

(** [now] is the reading inside [calculateDecay], [stamp] the one stored
    as the new last access. *)
Definition updatePopularityWithDecay (now stamp : Z) (key : string)
    (increment : R) (t : PopularityTracker) : PopularityTracker :=
  let decay := calculateDecay now key t in
  let currentPopularity :=
    match keyPopularity t !! key with
    | Some score => (score * decay)%R
    | None => 0%R
    end in
  {| keyPopularity :=
       <[key := (currentPopularity + increment)%R]> (keyPopularity t);
     lastAccess := <[key := stamp]> (lastAccess t);
     decayFactor := decayFactor t;
     popularityThreshold := popularityThreshold t;
     maxReplicationFactor := maxReplicationFactor t;
     baseReplicationFactor := baseReplicationFactor t |}.

(** [recordQuery]: the bonus test reads the entry of [keyPopularity] as
    it is stored ([it->second]). *)
Definition actualIncrement (keyPattern : string) (increment : R)
    (t : PopularityTracker) : R :=
  match keyPopularity t !! keyPattern with
  | Some stored =>
      if Rgt_dec stored (popularityThreshold t)
      then (increment * (1 + log10 (stored / popularityThreshold t)))%R
      else increment
  | None => increment
  end.

Definition recordQuery (now stamp : Z) (keyPattern : string)
    (increment : R) (t : PopularityTracker) : PopularityTracker :=
  updatePopularityWithDecay now stamp keyPattern
    (actualIncrement keyPattern increment t) t.

(** The default argument of [recordQuery] in the header. *)
Definition defaultIncrement : R := 1%R.

Definition getPopularity (now : Z) (keyPattern : string)
    (t : PopularityTracker) : R :=
  match keyPopularity t !! keyPattern with
  | None => 0%R
  | Some score => (score * calculateDecay now keyPattern t)%R
  end.

(** [getReplicationFactor]: the base factor plus the decimal order of
    magnitude of the score over the threshold, capped.  The sum is an
    [int] sum and wraps. *)
Definition getReplicationFactor (now : Z) (keyPattern : string)
    (t : PopularityTracker) : Z :=
  let popularity := getPopularity now keyPattern t in
  if Rlt_dec popularity (popularityThreshold t)
  then baseReplicationFactor t
  else
    Z.min
      (Cpp.int32
         (baseReplicationFactor t
          + Dart.truncate (log10 (popularity / popularityThreshold t))))
      (maxReplicationFactor t).

(** [getAllKeysSortedByPopularity]: the decayed scores above 0.01, sorted
    by the comparator [a.second > b.second].  The order in which the
    loop visits the [unordered_map], and the order [std::sort] leaves
    between equal scores, are unspecified in C++; the model visits in the
    order of [map_to_list] and sorts stably. *)
Definition popularity_ge (a b : string * R) : Prop := (b.2 <= a.2)%R.

#[global] Instance popularity_ge_dec a b : Decision (popularity_ge a b).
Proof. unfold popularity_ge. apply Rle_dec. Defined.

Definition popular (e : string * R) : Prop := (e.2 > 1 / 100)%R.

#[global] Instance popular_dec e : Decision (popular e).
Proof. unfold popular. apply Rgt_dec. Defined.

Definition decayed (now : Z) (t : PopularityTracker)
    (entry : string * R) : string * R :=
  (entry.1, (entry.2 * calculateDecay now entry.1 t)%R).

Definition getAllKeysSortedByPopularity (now : Z) (t : PopularityTracker)
    : list (string * R) :=
  merge_sort popularity_ge
    (filter popular (decayed now t <$> map_to_list (keyPopularity t))).

Definition reset (t : PopularityTracker) : PopularityTracker :=
  {| keyPopularity := ∅; lastAccess := ∅;
     decayFactor := decayFactor t;
     popularityThreshold := popularityThreshold t;
     maxReplicationFactor := maxReplicationFactor t;
     baseReplicationFactor := baseReplicationFactor t |}.


(** The tracker of the example for C5: threshold 5, decay 1 per hour,
    one pattern stored with raw score 10 at time 0. *)
Definition warm : PopularityTracker :=
  {| keyPopularity := {[ "StageX" := 10%R ]};
     lastAccess := {[ "StageX" := 0 ]};
     decayFactor := 1%R; popularityThreshold := 5%R;
     maxReplicationFactor := 8; baseReplicationFactor := 1 |}.

Definition oneHour : Z := 3600 * 1000 * 1000000.

End Popularity.

(** ** The update as the specification words it

    The bonus test and the multiplier read the effective score, that is
    the stored score decayed to the time of the call. *)
Module PopularitySpec.

Import Popularity.

Definition actualIncrement (now : Z) (keyPattern : string) (increment : R)
    (t : PopularityTracker) : R :=
  let effective := getPopularity now keyPattern t in
  if Rgt_dec effective (popularityThreshold t)
  then (increment * (1 + log10 (effective / popularityThreshold t)))%R
  else increment.

Definition recordQuery (now stamp : Z) (keyPattern : string)
    (increment : R) (t : PopularityTracker) : PopularityTracker :=
  updatePopularityWithDecay now stamp keyPattern
    (actualIncrement now keyPattern increment t) t.

End PopularitySpec.

(* ===================================================================== *)
(** * The adaptive router ([src4/dart/AdaptiveDARTRouter.cpp]) *)
(* ===================================================================== *)

Module Adaptive.

Record AdaptiveDARTRouter := {
  base : Dart.DARTRouter;
  popularityTracker : Popularity.PopularityTracker;
  adaptiveReplicationEnabled : bool
}.

Definition new (numServers : Z) (baseReplicationRatio : R)
    (maxReplicationFactor : Z) (popularityThreshold decayFactor : R)
    (enableAdaptiveReplication : bool) : AdaptiveDARTRouter :=
  {| base := Dart.newRouterOf Dart.SRC4 numServers baseReplicationRatio;
     popularityTracker :=
       Popularity.new
         (Dart.truncate (IZR (Cpp.int32 numServers) * baseReplicationRatio))
         maxReplicationFactor popularityThreshold decayFactor;
     adaptiveReplicationEnabled := enableAdaptiveReplication |}.

Definition set_tracker (t : Popularity.PopularityTracker)
    (r : AdaptiveDARTRouter) : AdaptiveDARTRouter :=
  {| base := base r; popularityTracker := t;
     adaptiveReplicationEnabled := adaptiveReplicationEnabled r |}.

(** [AdaptiveDARTRouter::recordQuery(keyPattern)]: the call of the
    tracker passes no increment, so the default applies. *)
Definition recordQuery (now stamp : Z) (keyPattern : string)
    (r : AdaptiveDARTRouter) : AdaptiveDARTRouter :=
  if adaptiveReplicationEnabled r then
    set_tracker
      (Popularity.recordQuery now stamp keyPattern
         Popularity.defaultIncrement (popularityTracker r)) r
  else r.

(** The override of [getServersForKey]; [now] is the clock reading of
    [getReplicationFactor].  The [break] test casts the size to [int]
    and compares it with the [int] sum [replicationFactor + 1], which
    wraps. *)
Definition getServersForKey (now : Z) (r : AdaptiveDARTRouter)
    (key : string) : option (list Z) :=
  if negb (adaptiveReplicationEnabled r) then
    Dart.getServersForKey (base r) key
  else
    let primaryServer :=
      Dart.getServerForVirtualNode (base r)
        (Dart.getVirtualNodeId (base r) key) in
    let replicationFactor :=
      Popularity.getReplicationFactor now key (popularityTracker r) in
    if decide (replicationFactor > 0) then
      allServers ← Dart.getServersForKey (base r) key;
      Some (Dart.addReplicas primaryServer
              (Cpp.int32 (replicationFactor + 1)) allServers
              [primaryServer])
    else Some [primaryServer].

(** The override of [getDestinationServers].  The local [increment] is
    computed as in the source and, as in the source, not passed on.  The
    result pairs the destination servers with the router after the
    recording ([const_cast]); [now] and [stamp] are the clock readings of
    the recording, [later] the one of the exact branch. *)
Definition getDestinationServers (now stamp later : Z)
    (r : AdaptiveDARTRouter) (query : string)
    : option (list Z) * AdaptiveDARTRouter :=
  let keyPattern := Cpp.keyPortion query in
  let r' :=
    if adaptiveReplicationEnabled r then
      let increment : R :=
        match Cpp.find_char keyPattern Cpp.star with
        | None => 2%R
        | Some _ => 1%R
        end in
      recordQuery now stamp keyPattern r
    else r in
  let servers :=
    match Query.shapeOf keyPattern with
    | Query.WILDCARD => Some (Dart.getServersForWildcardQuery (base r'))
    | Query.INFIX =>
        Some (Dart.getServersForInfixQuery (base r')
                (Query.tokenOf Query.INFIX keyPattern))
    | Query.SUFFIX =>
        Dart.getServersForSuffixQuery (base r')
          (Query.tokenOf Query.SUFFIX keyPattern)
    | Query.PREFIX =>
        Some (Dart.getServersForPrefixQuery (base r')
                (Query.tokenOf Query.PREFIX keyPattern))
    | Query.EXACT => getServersForKey later r' keyPattern
    end in
  (servers, r').

Definition setAdaptiveReplicationEnabled (enable : bool)
    (r : AdaptiveDARTRouter) : AdaptiveDARTRouter :=
  {| base := base r; popularityTracker := popularityTracker r;
     adaptiveReplicationEnabled := enable |}.


(** The router of the example for C4: four servers, the defaults of the
    header, adaptive replication on. *)
Definition fresh : AdaptiveDARTRouter :=
  new 4 (1 / 10)%R 8 5%R (5 / 100)%R true.

End Adaptive.

(* ===================================================================== *)
(** * The two-layer affix index ([idioms.cpp], [src/index/Trie.cpp]) *)
(* ===================================================================== *)

Module Trie.

(** ** Second layer: values *)

Inductive ValueTrieNode := mkValueTrieNode {
  vChildren : gmap ascii ValueTrieNode;
  isEndOfValue : bool;
  objectIds : gset Z;
  fullValue : string
}.

Definition newValueTrieNode : ValueTrieNode :=
  {| vChildren := ∅; isEndOfValue := false; objectIds := ∅;
     fullValue := "" |}.

Record ValueTrie := {
  vRoot : ValueTrieNode;
  vSuffixMode : bool
}.

Definition newValueTrie (useSuffixMode : bool) : ValueTrie :=
  {| vRoot := newValueTrieNode; vSuffixMode := useSuffixMode |}.

(** The walk [for (char c : value)] of [insertValue], creating missing
    children, and the update of the node it ends in; [stored] is the
    string that the node receives as [fullValue]. *)
Fixpoint insertValueAt (value : string) (objectId : Z) (stored : string)
    (node : ValueTrieNode) : ValueTrieNode :=
  match value with
  | EmptyString =>
      {| vChildren := vChildren node;
         isEndOfValue := true;
         objectIds := {[objectId]} ∪ objectIds node;
         fullValue := stored |}
  | String c rest =>
      let child := default newValueTrieNode (vChildren node !! c) in
      {| vChildren :=
           <[c := insertValueAt rest objectId stored child]> (vChildren node);
         isEndOfValue := isEndOfValue node;
         objectIds := objectIds node;
         fullValue := fullValue node |}
  end.

Definition insertValue (value : string) (objectId : Z) (full : string)
    (t : ValueTrie) : ValueTrie :=
  let stored := if Cpp.empty full then value else full in
  {| vRoot := insertValueAt value objectId stored (vRoot t);
     vSuffixMode := vSuffixMode t |}.

Definition insertValueWithSuffixes (value : string) (objectId : Z)
    (t : ValueTrie) : ValueTrie :=
  foldl (fun acc suffix => insertValue suffix objectId value acc)
        t (Cpp.suffixes value).

Definition insertValueWithSuffixMode (value : string) (objectId : Z)
    (t : ValueTrie) : ValueTrie :=
  let t1 := insertValue value objectId "" t in
  if vSuffixMode t1 then insertValueWithSuffixes value objectId t1 else t1.

(** The recursive helpers add to the set [results] they are handed, as
    the reference parameter of the source. *)
Fixpoint collectAllObjectIds (node : ValueTrieNode)
    (results : gset Z) : gset Z :=
  match node with
  | mkValueTrieNode children isEnd ids _ =>
      map_fold (fun _ child acc => collectAllObjectIds child acc)
        (if isEnd then ids ∪ results else results)
        children
  end.

(** [prefix] is the part of the pattern from [index] on. *)
Fixpoint searchByValuePrefix (prefix : string) (node : ValueTrieNode)
    (results : gset Z) : gset Z :=
  match prefix with
  | EmptyString => collectAllObjectIds node results
  | String c rest =>
      if Ascii.eqb c Cpp.star then
        map_fold (fun _ child acc => searchByValuePrefix rest child acc)
          results (vChildren node)
      else
        match vChildren node !! c with
        | Some child => searchByValuePrefix rest child results
        | None => results
        end
  end.

Fixpoint searchByValueInfix (infix : string) (node : ValueTrieNode)
    (results : gset Z) : gset Z :=
  match node with
  | mkValueTrieNode children isEnd ids full =>
      map_fold (fun _ child acc => searchByValueInfix infix child acc)
        (if isEnd && negb (Cpp.empty full) && Cpp.contains full infix
         then ids ∪ results else results)
        children
  end.

Fixpoint searchByValueSuffix (suffix : string) (node : ValueTrieNode)
    (results : gset Z) : gset Z :=
  match node with
  | mkValueTrieNode children isEnd ids full =>
      map_fold (fun _ child acc => searchByValueSuffix suffix child acc)
        (if isEnd && negb (Cpp.empty full) && Cpp.ends_with full suffix
         then ids ∪ results else results)
        children
  end.

Fixpoint searchExactValueAt (value : string)
    (node : ValueTrieNode) : gset Z :=
  match value with
  | EmptyString => if isEndOfValue node then objectIds node else ∅
  | String c rest =>
      match vChildren node !! c with
      | Some child => searchExactValueAt rest child
      | None => ∅
      end
  end.

Definition searchExactValue (value : string) (t : ValueTrie) : gset Z :=
  searchExactValueAt value (vRoot t).

Definition searchValuePrefix (prefix : string) (t : ValueTrie) : gset Z :=
  searchByValuePrefix prefix (vRoot t) ∅.

(** Without suffix-tree mode the suffix and infix searches only print a
    warning and return the empty set. *)
Definition searchValueSuffix (suffix : string) (t : ValueTrie) : gset Z :=
  if vSuffixMode t then searchByValueSuffix suffix (vRoot t) ∅ else ∅.

Definition searchValueInfix (infix : string) (t : ValueTrie) : gset Z :=
  if vSuffixMode t then searchByValueInfix infix (vRoot t) ∅ else ∅.

Definition getAllObjectIds (t : ValueTrie) : gset Z :=
  collectAllObjectIds (vRoot t) ∅.

(** ** First layer: keys

    A node owns its value trie: every [std::shared_ptr<ValueTrie>] is
    created by [insertKeyOnly] for one node and is never stored in a
    second one.  The model keeps the value trie inside the node; the
    pointer that [insertKeyOnly] returns is the path of that node, and
    the searches return the value tries themselves. *)

Inductive KeyTrieNode := mkKeyTrieNode {
  kChildren : gmap ascii KeyTrieNode;
  isEndOfKey : bool;
  valueTrie : option ValueTrie;
  fullKey : string
}.

Definition newKeyTrieNode : KeyTrieNode :=
  {| kChildren := ∅; isEndOfKey := false; valueTrie := None;
     fullKey := "" |}.

Record KeyTrie := {
  kRoot : KeyTrieNode;
  kSuffixMode : bool
}.

Definition newKeyTrie (useSuffixMode : bool) : KeyTrie :=
  {| kRoot := newKeyTrieNode; kSuffixMode := useSuffixMode |}.

Fixpoint insertKeyAt (key : string) (stored : string) (useSuffixMode : bool)
    (node : KeyTrieNode) : KeyTrieNode :=
  match key with
  | EmptyString =>
      {| kChildren := kChildren node;
         isEndOfKey := true;
         valueTrie :=
           match valueTrie node with
           | Some vt => Some vt
           | None => Some (newValueTrie useSuffixMode)
           end;
         fullKey := stored |}
  | String c rest =>
      let child := default newKeyTrieNode (kChildren node !! c) in
      {| kChildren :=
           <[c := insertKeyAt rest stored useSuffixMode child]>
             (kChildren node);
         isEndOfKey := isEndOfKey node;
         valueTrie := valueTrie node;
         fullKey := fullKey node |}
  end.

(** [insertKeyOnly(key, fullKey)]; the returned pointer designates the
    value trie of the node at [key]. *)
Definition insertKeyOnly (key full : string) (t : KeyTrie) : KeyTrie :=
  let stored := if Cpp.empty full then key else full in
  {| kRoot := insertKeyAt key stored (kSuffixMode t) (kRoot t);
     kSuffixMode := kSuffixMode t |}.

Definition insertKeyWithSuffixes (key : string) (t : KeyTrie) : KeyTrie :=
  foldl (fun acc suffix => insertKeyOnly suffix key acc)
        t (Cpp.suffixes key).

(** Returns the pointer of the first [insertKeyOnly(key, key)]: again the
    value trie of the node at [key]. *)
Definition insertKeyWithSuffixMode (key : string) (t : KeyTrie) : KeyTrie :=
  let t1 := insertKeyOnly key key t in
  if kSuffixMode t1 then insertKeyWithSuffixes key t1 else t1.

(** Writing through the pointer: [update] is applied to the value trie
    of the node at [key]. *)
Fixpoint updateValueTrieAt (key : string) (update : ValueTrie -> ValueTrie)
    (node : KeyTrieNode) : KeyTrieNode :=
  match key with
  | EmptyString =>
      {| kChildren := kChildren node;
         isEndOfKey := isEndOfKey node;
         valueTrie := update <$> valueTrie node;
         fullKey := fullKey node |}
  | String c rest =>
      match kChildren node !! c with
      | Some child =>
          {| kChildren :=
               <[c := updateValueTrieAt rest update child]> (kChildren node);
             isEndOfKey := isEndOfKey node;
             valueTrie := valueTrie node;
             fullKey := fullKey node |}
      | None => node
      end
  end.

Definition updateValueTrie (key : string) (update : ValueTrie -> ValueTrie)
    (t : KeyTrie) : KeyTrie :=
  {| kRoot := updateValueTrieAt key update (kRoot t);
     kSuffixMode := kSuffixMode t |}.

(** The vectors of value tries grow by [push_back]. *)
Definition pushValueTrie (cond : bool) (owned : option ValueTrie)
    (valueTries : list ValueTrie) : list ValueTrie :=
  match owned with
  | Some vt => if cond then valueTries ++ [vt] else valueTries
  | None => valueTries
  end.

Fixpoint collectAllValueTries (node : KeyTrieNode)
    (valueTries : list ValueTrie) : list ValueTrie :=
  match node with
  | mkKeyTrieNode children isEnd vt full =>
      map_fold (fun _ child acc => collectAllValueTries child acc)
        (pushValueTrie isEnd vt valueTries)
        children
  end.

Fixpoint searchByKeyPrefix (prefix : string) (node : KeyTrieNode)
    (valueTries : list ValueTrie) : list ValueTrie :=
  match prefix with
  | EmptyString => collectAllValueTries node valueTries
  | String c rest =>
      if Ascii.eqb c Cpp.star then
        map_fold (fun _ child acc => searchByKeyPrefix rest child acc)
          valueTries (kChildren node)
      else
        match kChildren node !! c with
        | Some child => searchByKeyPrefix rest child valueTries
        | None => valueTries
        end
  end.

Fixpoint searchByKeyInfix (infix : string) (node : KeyTrieNode)
    (valueTries : list ValueTrie) : list ValueTrie :=
  match node with
  | mkKeyTrieNode children isEnd vt full =>
      map_fold (fun _ child acc => searchByKeyInfix infix child acc)
        (pushValueTrie
           (isEnd && negb (Cpp.empty full) && Cpp.contains full infix)
           vt valueTries)
        children
  end.

Fixpoint searchByKeySuffix (suffix : string) (node : KeyTrieNode)
    (valueTries : list ValueTrie) : list ValueTrie :=
  match node with
  | mkKeyTrieNode children isEnd vt full =>
      map_fold (fun _ child acc => searchByKeySuffix suffix child acc)
        (pushValueTrie
           (isEnd && negb (Cpp.empty full) && Cpp.ends_with full suffix)
           vt valueTries)
        children
  end.

Fixpoint searchExactKeyAt (key : string)
    (node : KeyTrieNode) : option ValueTrie :=
  match key with
  | EmptyString => if isEndOfKey node then valueTrie node else None
  | String c rest =>
      match kChildren node !! c with
      | Some child => searchExactKeyAt rest child
      | None => None
      end
  end.

Definition searchExactKey (key : string) (t : KeyTrie) : option ValueTrie :=
  searchExactKeyAt key (kRoot t).

Definition searchKeyPrefix (prefix : string) (t : KeyTrie)
    : list ValueTrie :=
  searchByKeyPrefix prefix (kRoot t) [].

Definition searchKeySuffix (suffix : string) (t : KeyTrie)
    : list ValueTrie :=
  if kSuffixMode t then searchByKeySuffix suffix (kRoot t) [] else [].

Definition searchKeyInfix (infix : string) (t : KeyTrie)
    : list ValueTrie :=
  if kSuffixMode t then searchByKeyInfix infix (kRoot t) [] else [].

Definition getAllValueTries (t : KeyTrie) : list ValueTrie :=
  collectAllValueTries (kRoot t) [].

(** The two stages every query runs: value tries for the key pattern,
    then object ids for the value pattern. *)
Definition valueTriesFor (shape : Query.Shape) (token : string)
    (t : KeyTrie) : list ValueTrie :=
  match shape with
  | Query.EXACT =>
      match searchExactKey token t with
      | Some vt => [vt]
      | None => []
      end
  | Query.PREFIX => searchKeyPrefix token t
  | Query.SUFFIX => searchKeySuffix token t
  | Query.INFIX => searchKeyInfix token t
  | Query.WILDCARD => getAllValueTries t
  end.

Definition valueResults (shape : Query.Shape) (token : string)
    (vt : ValueTrie) : gset Z :=
  match shape with
  | Query.EXACT => searchExactValue token vt
  | Query.PREFIX => searchValuePrefix token vt
  | Query.SUFFIX => searchValueSuffix token vt
  | Query.INFIX => searchValueInfix token vt
  | Query.WILDCARD => getAllObjectIds vt
  end.

(** [std::vector<int> results(resultSet.begin(), resultSet.end());
     std::sort(...)]. *)
Definition sortedVector (resultSet : gset Z) : list Z :=
  merge_sort Z.le (elements resultSet).

(** ** The client of [idioms.cpp] *)

Record QueryCondition := {
  keyPart : string;
  valuePart : string;
  keyType : Query.Shape;
  valueType : Query.Shape
}.

Definition parseQueryCondition (queryStr : string) : QueryCondition :=
  let key := Cpp.keyPortion queryStr in
  let value := Cpp.valuePortion queryStr in
  {| keyPart := Query.tokenOf (Query.shapeOf key) key;
     valuePart := Query.tokenOf (Query.shapeOf value) value;
     keyType := Query.shapeOf key;
     valueType := Query.shapeOf value |}.

Record IdiomsClient := {
  keyTrie : KeyTrie;
  useSuffixTreeMode : bool
}.

Definition newClient (useSuffixMode : bool) : IdiomsClient :=
  {| keyTrie := newKeyTrie useSuffixMode;
     useSuffixTreeMode := useSuffixMode |}.

(** The global [objectMetadata] that [track_metadata] appends to. *)
Abbreviation Metadata := (gmap Z (list (string * string))).

Definition track_metadata (objectId : Z) (key value : string)
    (objectMetadata : Metadata) : Metadata :=
  <[objectId := default [] (objectMetadata !! objectId) ++ [(key, value)]]>
    objectMetadata.

(** The index part of [create_md_index]. *)
Definition indexRecord (suffixMode : bool) (key value : string)
    (objectId : Z) (t : KeyTrie) : KeyTrie :=
  if suffixMode then
    updateValueTrie key (insertValueWithSuffixMode value objectId)
      (insertKeyWithSuffixMode key t)
  else
    updateValueTrie key (insertValue value objectId "")
      (insertKeyOnly key "" t).

(** A running program: the client and the global it writes. *)
Record Program := {
  client : IdiomsClient;
  objectMetadata : Metadata
}.

Definition newProgram (useSuffixMode : bool) : Program :=
  {| client := newClient useSuffixMode; objectMetadata := ∅ |}.

Definition create_md_index (key value : string) (objectId : Z)
    (p : Program) : Program :=
  {| client :=
       {| keyTrie :=
            indexRecord (useSuffixTreeMode (client p)) key value objectId
              (keyTrie (client p));
          useSuffixTreeMode := useSuffixTreeMode (client p) |};
     objectMetadata := track_metadata objectId key value (objectMetadata p) |}.

Definition search (keyShape : Query.Shape) (keyToken : string)
    (valueShape : Query.Shape) (valueToken : string)
    (t : KeyTrie) : list Z :=
  sortedVector
    (foldl (fun resultSet vt => valueResults valueShape valueToken vt
                                ∪ resultSet)
           ∅ (valueTriesFor keyShape keyToken t)).

Definition md_search (queryStr : string) (c : IdiomsClient) : list Z :=
  let condition := parseQueryCondition queryStr in
  search (keyType condition) (keyPart condition)
         (valueType condition) (valuePart condition) (keyTrie c).

(** ** Predicates and abbreviations for the proofs *)

(** The node at [path] is a terminal that lists [objectId] and stores
    [stored]: what an insertion along [path] establishes. *)
Fixpoint vMarked (path : string) (objectId : Z) (stored : string)
    (node : ValueTrieNode) : Prop :=
  match path with
  | EmptyString =>
      isEndOfValue node = true /\ objectId ∈ objectIds node /\
      fullValue node = stored
  | String c rest =>
      exists child,
        vChildren node !! c = Some child /\
        vMarked rest objectId stored child
  end.

(** Inserting along a list of paths, all with the same id and stored
    string. *)
Definition insertValuesAt (paths : list string) (objectId : Z)
    (stored : string) (node : ValueTrieNode) : ValueTrieNode :=
  foldl (fun acc path => insertValueAt path objectId stored acc) node paths.

(** The node at [path] is a terminal with a value trie that stores
    [stored]. *)
Fixpoint kMarked (path : string) (stored : string)
    (node : KeyTrieNode) : Prop :=
  match path with
  | EmptyString =>
      isEndOfKey node = true /\ is_Some (valueTrie node) /\
      fullKey node = stored
  | String c rest =>
      exists child,
        kChildren node !! c = Some child /\ kMarked rest stored child
  end.

Definition insertKeysAt (paths : list string) (stored : string)
    (mode : bool) (node : KeyTrieNode) : KeyTrieNode :=
  foldl (fun acc path => insertKeyAt path stored mode acc) node paths.

(** What the node at the end of [path] holds, if the trie has that
    node: its ids and its terminal flag in a value trie, its value trie
    and its terminal flag in a key trie. *)
Fixpoint vIdsAt (path : string) (node : ValueTrieNode) : gset Z :=
  match path with
  | EmptyString => objectIds node
  | String c rest =>
      match vChildren node !! c with
      | Some child => vIdsAt rest child
      | None => ∅
      end
  end.

Fixpoint vEndAt (path : string) (node : ValueTrieNode) : bool :=
  match path with
  | EmptyString => isEndOfValue node
  | String c rest =>
      match vChildren node !! c with
      | Some child => vEndAt rest child
      | None => false
      end
  end.

Fixpoint kTrieAt (path : string) (node : KeyTrieNode) : option ValueTrie :=
  match path with
  | EmptyString => valueTrie node
  | String c rest =>
      match kChildren node !! c with
      | Some child => kTrieAt rest child
      | None => None
      end
  end.

Fixpoint kEndAt (path : string) (node : KeyTrieNode) : bool :=
  match path with
  | EmptyString => isEndOfKey node
  | String c rest =>
      match kChildren node !! c with
      | Some child => kEndAt rest child
      | None => false
      end
  end.

(** The program after a sequence of [create_md_index] calls. *)
Definition afterRecords (useSuffixMode : bool)
    (records : list (string * string * Z)) : Program :=
  foldl (fun p r => create_md_index r.1.1 r.1.2 r.2 p)
        (newProgram useSuffixMode) records.

(** The records of a key trie without suffixes: below every key there
    is a value trie exactly when the key was indexed, and it lists an id
    at a value exactly for the records of that key and value. *)
Definition holds (records : list (string * string * Z))
    (t : KeyTrie) : Prop :=
  kSuffixMode t = false /\
  forall key,
    match kTrieAt key (kRoot t) with
    | Some vt =>
        kEndAt key (kRoot t) = true /\
        forall value,
          (forall objectId,
             objectId ∈ vIdsAt value (vRoot vt)
             <-> (key, value, objectId) ∈ records) /\
          (vEndAt value (vRoot vt) = false ->
           vIdsAt value (vRoot vt) = ∅)
    | None => forall value objectId, (key, value, objectId) ∉ records
    end.

End Trie.

(** ** The brute-force scan the specification compares [md_search] with *)
Module BruteForce.

Definition ends_with (s tok : string) : bool :=
  existsb (String.eqb tok) (s :: Cpp.suffixes s ++ [""]).

Definition contains (s tok : string) : bool :=
  existsb (String.prefix tok) (s :: Cpp.suffixes s ++ [""]).

(** Equality, starts-with, ends-with, contains, always true. *)
Definition satisfies (shape : Query.Shape) (token s : string) : bool :=
  match shape with
  | Query.EXACT => String.eqb s token
  | Query.PREFIX => String.prefix token s
  | Query.SUFFIX => ends_with s token
  | Query.INFIX => contains s token
  | Query.WILDCARD => true
  end.

Definition matches (queryStr : string)
    (record : string * string * Z) : bool :=
  let key := Cpp.keyPortion queryStr in
  let value := Cpp.valuePortion queryStr in
  satisfies (Query.shapeOf key) (Query.tokenOf (Query.shapeOf key) key)
            record.1.1
  && satisfies (Query.shapeOf value)
               (Query.tokenOf (Query.shapeOf value) value) record.1.2.

Definition scan (records : list (string * string * Z))
    (queryStr : string) : list Z :=
  Trie.sortedVector
    (list_to_set (map snd (filter (fun r => matches queryStr r) records))).

End BruteForce.

(* ===================================================================== *)
(** * The demo server of [dart.cpp] *)
(* ===================================================================== *)

Module DemoServer.

Record DistributedIdiomsServer := {
  serverId : Z;
  indexedKeys : list string;
  indexedSuffixes : list string;
  objectMetadata : Trie.Metadata
}.

Definition new (id : Z) : DistributedIdiomsServer :=
  {| serverId := id; indexedKeys := []; indexedSuffixes := [];
     objectMetadata := ∅ |}.

Definition addIndexedKey (key value : string) (objectId : Z)
    (s : DistributedIdiomsServer) : DistributedIdiomsServer :=
  {| serverId := serverId s;
     indexedKeys := indexedKeys s ++ [key];
     indexedSuffixes := indexedSuffixes s ++ Cpp.suffixes key;
     objectMetadata :=
       Trie.track_metadata objectId key value (objectMetadata s) |}.

(** [std::find(...) != end()]. *)
Definition hasKey (key : string) (s : DistributedIdiomsServer) : bool :=
  existsb (String.eqb key) (indexedKeys s).

Definition hasSuffix (suffix : string)
    (s : DistributedIdiomsServer) : bool :=
  existsb (String.eqb suffix) (indexedSuffixes s).

Definition canHandleQuery (query : string)
    (s : DistributedIdiomsServer) : bool :=
  let keyPart := Cpp.keyPortion query in
  match Query.shapeOf keyPart with
  | Query.WILDCARD => true
  | Query.INFIX =>
      let infix := Query.tokenOf Query.INFIX keyPart in
      existsb (fun suffix => Cpp.starts_with suffix infix) (indexedSuffixes s)
  | Query.SUFFIX => hasSuffix (Query.tokenOf Query.SUFFIX keyPart) s
  | Query.PREFIX =>
      let prefix := Query.tokenOf Query.PREFIX keyPart in
      existsb (fun key => Cpp.starts_with key prefix) (indexedKeys s)
  | Query.EXACT => hasKey keyPart s
  end.

(** The flags and the token that [executeQuery] computes for the key
    part and again for the value part. *)
Record Pattern := {
  hasPrefix : bool;
  hasSuffixStar : bool;
  isWildcard : bool;
  hasInfix : bool;
  token : string
}.

Definition patternOf (part : string) : Pattern :=
  let len := String.length part in
  let prefixFlag := Ascii.eqb (Cpp.back part) Cpp.star && (1 <? len)%nat in
  let suffixFlag := Ascii.eqb (Cpp.front part) Cpp.star && (1 <? len)%nat in
  let wildcardFlag := String.eqb part "*" in
  let infixFlag := prefixFlag && suffixFlag && (2 <? len)%nat in
  {| hasPrefix := prefixFlag;
     hasSuffixStar := suffixFlag;
     isWildcard := wildcardFlag;
     hasInfix := infixFlag;
     token :=
       if infixFlag then Cpp.substr part 1 (len - 2)
       else if prefixFlag then Cpp.substr part 0 (len - 1)
       else if suffixFlag then Cpp.substr_from part 1
       else if negb wildcardFlag then part
       else "" |}.

Definition patternMatch (p : Pattern) (s : string) : bool :=
  if isWildcard p then true
  else if hasInfix p then Cpp.contains s (token p)
  else if hasPrefix p then Cpp.starts_with s (token p)
  else if hasSuffixStar p then Cpp.ends_with s (token p)
  else String.eqb s (token p).

(** The inner loop with its [break]. *)
Definition objectMatches (keyPattern valuePattern : Pattern)
    (metadata : list (string * string)) : bool :=
  existsb (fun entry => patternMatch keyPattern entry.1
                        && patternMatch valuePattern entry.2)
          metadata.

Definition executeQuery (query : string)
    (s : DistributedIdiomsServer) : list Z :=
  let keyPattern := patternOf (Cpp.keyPortion query) in
  let valuePattern := patternOf (Cpp.valuePortion query) in
  Trie.sortedVector
    (map_fold
       (fun objectId metadata resultSet =>
          if objectMatches keyPattern valuePattern metadata
          then {[objectId]} ∪ resultSet
          else resultSet)
       ∅ (objectMetadata s)).

(** The states a sequence of [addIndexedKey] calls reaches. *)
Definition afterInserts (id : Z) (records : list (string * string * Z))
    : DistributedIdiomsServer :=
  foldl (fun s r => addIndexedKey r.1.1 r.1.2 r.2 s) (new id) records.

(** What every state built by [addIndexedKey] satisfies: the suffixes of
    the indexed keys are indexed, and the keys of the metadata are. *)
Definition consistent (s : DistributedIdiomsServer) : Prop :=
  (forall key suffix,
     key ∈ indexedKeys s -> suffix ∈ Cpp.suffixes key ->
     suffix ∈ indexedSuffixes s) /\
  (forall objectId metadata entry,
     objectMetadata s !! objectId = Some metadata ->
     entry ∈ metadata -> entry.1 ∈ indexedKeys s).

End DemoServer.

(* ===================================================================== *)
(** * The client of the demo servers ([dart.cpp]) *)
(* ===================================================================== *)

Module DemoClient.

Record DistributedIdiomsClient := {
  router : Dart.DARTRouter;
  servers : list DemoServer.DistributedIdiomsServer;
  useSuffixTreeMode : bool
}.

(** The router is built with its default replication ratio, and one
    server per id of [0, numServers). *)
Definition new (numServers : Z) (useSuffixMode : bool)
    : DistributedIdiomsClient :=
  {| router := Dart.newRouter numServers (1 / 10);
     servers := DemoServer.new <$> seqZ 0 numServers;
     useSuffixTreeMode := useSuffixMode |}.

(** [servers[serverId]]: the vector is indexed without a check, so an id
    outside of it has no defined result; that, like a call of the router
    that does not return, is [None]. *)
Definition serverOf (serverId : Z)
    (servers : list DemoServer.DistributedIdiomsServer)
    : option DemoServer.DistributedIdiomsServer :=
  if decide (0 <= serverId) then servers !! Z.to_nat serverId else None.

(** One round of the loop of [create_md_index]. *)
Definition sendRecord (key value : string) (objectId : Z)
    (acc : option (list DemoServer.DistributedIdiomsServer))
    (serverId : Z) : option (list DemoServer.DistributedIdiomsServer) :=
  servers ← acc;
  s ← serverOf serverId servers;
  Some (<[Z.to_nat serverId :=
            DemoServer.addIndexedKey key value objectId s]> servers).

Definition create_md_index (key value : string) (objectId : Z)
    (c : DistributedIdiomsClient) : option DistributedIdiomsClient :=
  serverIds ← Dart.getServersForKey (router c) key;
  servers' ← foldl (sendRecord key value objectId) (Some (servers c))
               serverIds;
  Some {| router := router c; servers := servers';
          useSuffixTreeMode := useSuffixTreeMode c |}.

(** One round of the loop of [md_search]. *)
Definition collect (queryStr : string)
    (servers : list DemoServer.DistributedIdiomsServer)
    (acc : option (gset Z)) (serverId : Z) : option (gset Z) :=
  resultSet ← acc;
  s ← serverOf serverId servers;
  Some (if DemoServer.canHandleQuery queryStr s
        then list_to_set (DemoServer.executeQuery queryStr s) ∪ resultSet
        else resultSet).

Definition md_search (queryStr : string) (c : DistributedIdiomsClient)
    : option (list Z) :=
  destinationServers ← Dart.getDestinationServers (router c) queryStr;
  resultSet ← foldl (collect queryStr (servers c)) (Some ∅)
                destinationServers;
  Some (Trie.sortedVector resultSet).

(** The client after a sequence of [create_md_index] calls. *)
Definition afterRecords (numServers : Z) (useSuffixMode : bool)
    (records : list (string * string * Z))
    : option DistributedIdiomsClient :=
  foldl (fun acc r => c ← acc; create_md_index r.1.1 r.1.2 r.2 c)
        (Some (new numServers useSuffixMode)) records.

(** What the servers of a client hold after [records]: server [j] has
    an entry for an object exactly for the records whose key is routed
    to [j], and has indexed the keys of those records. *)
Definition distributed (r : Dart.DARTRouter)
    (records : list (string * string * Z))
    (servers : list DemoServer.DistributedIdiomsServer) : Prop :=
  forall (j : nat) s, servers !! j = Some s ->
    (forall key value objectId,
       (key, value) ∈ default [] (DemoServer.objectMetadata s !! objectId)
       <-> (key, value, objectId) ∈ records /\
           exists serverIds,
             Dart.getServersForKey r key = Some serverIds /\
             Z.of_nat j ∈ serverIds) /\
    (forall key,
       key ∈ DemoServer.indexedKeys s
       <-> exists value objectId,
             (key, value) ∈
               default [] (DemoServer.objectMetadata s !! objectId)).

(** Server [s'] is server [s] with one more record. *)
Definition added (key value : string) (objectId : Z)
    (s s' : DemoServer.DistributedIdiomsServer) : Prop :=
  (forall key0 value0 objectId0,
     (key0, value0) ∈
       default [] (DemoServer.objectMetadata s' !! objectId0)
     <-> (key0, value0) ∈
           default [] (DemoServer.objectMetadata s !! objectId0) \/
         (key0, value0, objectId0) = (key, value, objectId)) /\
  (forall key0,
     key0 ∈ DemoServer.indexedKeys s'
     <-> key0 ∈ DemoServer.indexedKeys s \/ key0 = key).

(** The server of the key's virtual node. *)
Definition primaryServer (r : Dart.DARTRouter) (key : string) : Z :=
  Dart.getServerForVirtualNode r (Dart.getVirtualNodeId r key).

End DemoClient.

(* ===================================================================== *)
(** * Text streams, as far as checkpoint and recovery use them *)
(* ===================================================================== *)

Module Stream.

(** An input stream: the unread characters and the fail bit. *)
Record istream := {
  unread : string;
  failed : bool
}.

Definition open (content : string) : istream :=
  {| unread := content; failed := false |}.

Definition newline : ascii := ascii_of_nat 10.
Definition endl : string := String newline EmptyString.

Fixpoint splitLine (s : string) : string * string :=
  match s with
  | EmptyString => (EmptyString, EmptyString)
  | String c rest =>
      if Ascii.eqb c newline then (EmptyString, rest)
      else let '(line, after) := splitLine rest in (String c line, after)
  end.

(** [std::getline(file, line)]: the characters up to the next newline,
    which is consumed; nothing left to read sets the fail bit. *)
Definition getline (i : istream) : string * istream :=
  if failed i then (EmptyString, i)
  else
    match unread i with
    | EmptyString => (EmptyString, {| unread := EmptyString; failed := true |})
    | s => let '(line, after) := splitLine s in
           (line, {| unread := after; failed := false |})
    end.

(** [file.ignore()]: one character is dropped. *)
Definition ignore (i : istream) : istream :=
  if failed i then i
  else
    match unread i with
    | EmptyString => {| unread := EmptyString; failed := true |}
    | String _ rest => {| unread := rest; failed := false |}
    end.

Definition isSpace (c : ascii) : bool :=
  let n := nat_of_ascii c in
  (n =? 32)%nat || ((9 <=? n)%nat && (n <=? 13)%nat).

Fixpoint skipSpace (s : string) : string :=
  match s with
  | EmptyString => EmptyString
  | String c rest => if isSpace c then skipSpace rest else s
  end.

Definition digitOf (c : ascii) : option Z :=
  let n := Z.of_nat (nat_of_ascii c) in
  if (48 <=? n) && (n <=? 57) then Some (n - 48) else None.

Fixpoint readDigits (s : string) (acc : Z) (seen : bool)
    : Z * bool * string :=
  match s with
  | EmptyString => (acc, seen, EmptyString)
  | String c rest =>
      match digitOf c with
      | Some d => readDigits rest (acc * 10 + d) true
      | None => (acc, seen, s)
      end
  end.

(** [file >> n] for an [int]: leading white space is skipped, then an
    optional sign and the digits are read.  Without a digit the fail bit
    is set and the value read is 0, also on a stream that has failed
    before (where the sources leave their variable uninitialised).
    Values outside of [int] are not modelled. *)
Definition extractInt (i : istream) : Z * istream :=
  if failed i then (0, i)
  else
    let s := skipSpace (unread i) in
    let '(negative, body) :=
      match s with
      | String "-"%char rest => (true, rest)
      | String "+"%char rest => (false, rest)
      | _ => (false, s)
      end in
    let '(value, seen, after) := readDigits body 0 false in
    if seen
    then (if negative then - value else value,
          {| unread := after; failed := false |})
    else (0, {| unread := after; failed := true |}).

End Stream.

(* ===================================================================== *)
(** * The trie-backed server ([src1/server/Server.cpp]) *)
(* ===================================================================== *)

Module TrieServer.

(** [indexMutex] is a [std::mutex]; the field says whether the thread
    that runs the server holds it. *)
Record DistributedIdiomsServer := {
  serverId : Z;
  dataDir : string;
  useSuffixTreeMode : bool;
  keyTrie : Trie.KeyTrie;
  objectMetadata : Trie.Metadata;
  indexMutex : bool
}.

(** The files below the data directories, by path. *)
Abbreviation Files := (gmap string string).

Definition new (id : Z) (dataDirectory : string) (useSuffixMode : bool)
    : DistributedIdiomsServer :=
  {| serverId := id; dataDir := dataDirectory;
     useSuffixTreeMode := useSuffixMode;
     keyTrie := Trie.newKeyTrie useSuffixMode;
     objectMetadata := ∅;
     indexMutex := false |}.

Definition set_mutex (held : bool)
    (s : DistributedIdiomsServer) : DistributedIdiomsServer :=
  {| serverId := serverId s; dataDir := dataDir s;
     useSuffixTreeMode := useSuffixTreeMode s;
     keyTrie := keyTrie s; objectMetadata := objectMetadata s;
     indexMutex := held |}.

(** [std::lock_guard<std::mutex> lock(indexMutex)].  A method is a
    partial function: [None] stands for a call that never returns,
    because the thread waits for a mutex it holds itself. *)
Definition lock (s : DistributedIdiomsServer)
    : option DistributedIdiomsServer :=
  if indexMutex s then None else Some (set_mutex true s).

Definition unlock (s : DistributedIdiomsServer) : DistributedIdiomsServer :=
  set_mutex false s.

Definition addIndexedKey (key value : string) (objectId : Z)
    (s : DistributedIdiomsServer) : option DistributedIdiomsServer :=
  s1 ← lock s;
  Some (unlock
    {| serverId := serverId s1; dataDir := dataDir s1;
       useSuffixTreeMode := useSuffixTreeMode s1;
       keyTrie :=
         Trie.indexRecord (useSuffixTreeMode s1) key value objectId
           (keyTrie s1);
       objectMetadata :=
         Trie.track_metadata objectId key value (objectMetadata s1);
       indexMutex := indexMutex s1 |}).

(** [executeQuery] takes no lock; its two ladders are those of
    [Query.shapeOf]. *)
Definition executeQuery (query : string)
    (s : DistributedIdiomsServer) : list Z :=
  let keyPart := Cpp.keyPortion query in
  let valuePart := Cpp.valuePortion query in
  Trie.search
    (Query.shapeOf keyPart) (Query.tokenOf (Query.shapeOf keyPart) keyPart)
    (Query.shapeOf valuePart)
    (Query.tokenOf (Query.shapeOf valuePart) valuePart)
    (keyTrie s).

Definition indexFile (s : DistributedIdiomsServer) : string :=
  dataDir s +:+ "/server_" +:+ Cpp.to_string (serverId s) +:+ "/index.dat".

Definition writeMetadata (metadata : list (string * string)) : string :=
  foldl (fun out entry =>
           out +:+ entry.1 +:+ Stream.endl +:+ entry.2 +:+ Stream.endl)
        "" metadata.

Definition writeObjects (objects : list (Z * list (string * string)))
    : string :=
  foldl (fun out object =>
           out +:+ Cpp.to_string object.1 +:+ " "
               +:+ Cpp.to_string (Z.of_nat (length object.2)) +:+ Stream.endl
               +:+ writeMetadata object.2)
        "" objects.

(** [checkpointIndex]; the stream always opens in the model, so the
    method returns [true]. *)
Definition checkpointIndex (files : Files) (s : DistributedIdiomsServer)
    : option (bool * Files * DistributedIdiomsServer) :=
  s1 ← lock s;
  let content :=
    "IDIOMS_INDEX_V1" +:+ Stream.endl
    +:+ Cpp.to_string (serverId s1) +:+ " "
    +:+ (if useSuffixTreeMode s1 then "1" else "0") +:+ Stream.endl
    +:+ Cpp.to_string (Z.of_nat (size (objectMetadata s1))) +:+ Stream.endl
    +:+ writeObjects (map_to_list (objectMetadata s1)) in
  Some (true, <[indexFile s1 := content]> files, unlock s1).

(** The inner loop of [recoverIndex]: two lines per record, replayed
    through [addIndexedKey]. *)
Fixpoint replayRecords (count : nat) (objectId : Z)
    (state : Stream.istream * DistributedIdiomsServer)
    : option (Stream.istream * DistributedIdiomsServer) :=
  match count with
  | O => Some state
  | S count' =>
      let '(key, in1) := Stream.getline state.1 in
      let '(value, in2) := Stream.getline in1 in
      s' ← addIndexedKey key value objectId state.2;
      replayRecords count' objectId (in2, s')
  end.

(** The outer loop. *)
Fixpoint replayObjects (count : nat)
    (state : Stream.istream * DistributedIdiomsServer)
    : option (Stream.istream * DistributedIdiomsServer) :=
  match count with
  | O => Some state
  | S count' =>
      let '(objectId, in1) := Stream.extractInt state.1 in
      let '(metadataCount, in2) := Stream.extractInt in1 in
      let in3 := Stream.ignore in2 in
      state' ← replayRecords (Z.to_nat metadataCount) objectId
                 (in3, state.2);
      replayObjects count' state'
  end.

Definition recoverIndex (files : Files) (s : DistributedIdiomsServer)
    : option (bool * DistributedIdiomsServer) :=
  s1 ← lock s;
  match files !! indexFile s1 with
  | None => Some (false, unlock s1)
  | Some content =>
      let '(version, in1) := Stream.getline (Stream.open content) in
      if negb (String.eqb version "IDIOMS_INDEX_V1")
      then Some (false, unlock s1)
      else
        let '(storedServerId, in2) := Stream.extractInt in1 in
        let '(storedSuffixMode, in3) := Stream.extractInt in2 in
        if negb (storedServerId =? serverId s1)
        then Some (false, unlock s1)
        else
          let s2 :=
            {| serverId := serverId s1; dataDir := dataDir s1;
               useSuffixTreeMode := useSuffixTreeMode s1;
               keyTrie := Trie.newKeyTrie (useSuffixTreeMode s1);
               objectMetadata := ∅;
               indexMutex := indexMutex s1 |} in
          let '(objectCount, in4) := Stream.extractInt in3 in
          state ← replayObjects (Z.to_nat objectCount) (in4, s2);
          Some (true, unlock state.2)
  end.


(** The three tests below take no lock. *)
Definition hasKey (key : string) (s : DistributedIdiomsServer) : bool :=
  match Trie.searchExactKey key (keyTrie s) with
  | Some _ => true
  | None => false
  end.

Definition nonEmpty {A : Type} (l : list A) : bool :=
  match l with [] => false | _ => true end.

Definition hasSuffix (suffix : string)
    (s : DistributedIdiomsServer) : bool :=
  if negb (useSuffixTreeMode s) then false
  else nonEmpty (Trie.searchKeySuffix suffix (keyTrie s)).

Definition canHandleQuery (query : string)
    (s : DistributedIdiomsServer) : bool :=
  let keyPart := Cpp.keyPortion query in
  match Query.shapeOf keyPart with
  | Query.WILDCARD => true
  | Query.INFIX =>
      nonEmpty
        (Trie.searchKeyInfix (Query.tokenOf Query.INFIX keyPart) (keyTrie s))
  | Query.SUFFIX => hasSuffix (Query.tokenOf Query.SUFFIX keyPart) s
  | Query.PREFIX =>
      nonEmpty
        (Trie.searchKeyPrefix (Query.tokenOf Query.PREFIX keyPart)
           (keyTrie s))
  | Query.EXACT => hasKey keyPart s
  end.

(** The server after a sequence of [addIndexedKey] calls. *)
Definition afterInserts (id : Z) (dataDirectory : string)
    (useSuffixMode : bool) (records : list (string * string * Z))
    : option DistributedIdiomsServer :=
  foldl (fun acc r => s ← acc; addIndexedKey r.1.1 r.1.2 r.2 s)
        (Some (new id dataDirectory useSuffixMode)) records.

(** A server in suffix-tree mode that holds the one key ["*a"]. *)
Definition starServer : DistributedIdiomsServer :=
  default (new 0 "data" true)
    (afterInserts 0 "data" true [("*a", "v", 1)]).

End TrieServer.

(* ===================================================================== *)
(** * Checkpoint and recovery of the demo server ([dart.cpp]) *)
(* ===================================================================== *)

Module DemoRecovery.

Import DemoServer.

(** The demo server keeps its data directory outside of what the model
    records; the two methods take it as an argument.  Both hold the mutex
    from entry to exit and call no method that takes it. *)
Definition indexFile (dataDir : string)
    (s : DistributedIdiomsServer) : string :=
  dataDir +:+ "/server_" +:+ Cpp.to_string (serverId s) +:+ "/index.dat".

Definition writeLines (lines : list string) : string :=
  foldl (fun out line => out +:+ line +:+ Stream.endl) "" lines.

(** [checkpointIndex]; the stream always opens in the model, so the
    method returns [true]. *)
Definition checkpointIndex (dataDir : string) (files : TrieServer.Files)
    (s : DistributedIdiomsServer) : bool * TrieServer.Files :=
  let content :=
    "IDIOMS_INDEX_V1" +:+ Stream.endl
    +:+ Cpp.to_string (Z.of_nat (length (indexedKeys s))) +:+ Stream.endl
    +:+ writeLines (indexedKeys s)
    +:+ Cpp.to_string (Z.of_nat (length (indexedSuffixes s)))
    +:+ Stream.endl
    +:+ writeLines (indexedSuffixes s)
    +:+ Cpp.to_string (Z.of_nat (size (objectMetadata s))) +:+ Stream.endl
    +:+ TrieServer.writeObjects (map_to_list (objectMetadata s)) in
  (true, <[indexFile dataDir s := content]> files).

(** [for (int i = 0; i < count; i++) { getline; push_back }]. *)
Fixpoint readLines (count : nat) (i : Stream.istream)
    : list string * Stream.istream :=
  match count with
  | O => ([], i)
  | S count' =>
      let '(line, i1) := Stream.getline i in
      let '(rest, i2) := readLines count' i1 in
      (line :: rest, i2)
  end.

(** The inner loop over the entries of one object. *)
Fixpoint readMetadata (count : nat) (objectId : Z)
    (state : Stream.istream * Trie.Metadata)
    : Stream.istream * Trie.Metadata :=
  match count with
  | O => state
  | S count' =>
      let '(key, in1) := Stream.getline state.1 in
      let '(value, in2) := Stream.getline in1 in
      readMetadata count' objectId
        (in2, Trie.track_metadata objectId key value state.2)
  end.

(** The outer loop over the objects. *)
Fixpoint readObjects (count : nat)
    (state : Stream.istream * Trie.Metadata)
    : Stream.istream * Trie.Metadata :=
  match count with
  | O => state
  | S count' =>
      let '(objectId, in1) := Stream.extractInt state.1 in
      let '(metadataCount, in2) := Stream.extractInt in1 in
      let in3 := Stream.ignore in2 in
      readObjects count'
        (readMetadata (Z.to_nat metadataCount) objectId (in3, state.2))
  end.

Definition recoverIndex (dataDir : string) (files : TrieServer.Files)
    (s : DistributedIdiomsServer) : bool * DistributedIdiomsServer :=
  match files !! indexFile dataDir s with
  | None => (false, s)
  | Some content =>
      let '(version, in1) := Stream.getline (Stream.open content) in
      if negb (String.eqb version "IDIOMS_INDEX_V1") then (false, s)
      else
        let '(keyCount, in2) := Stream.extractInt in1 in
        let in3 := Stream.ignore in2 in
        let '(keys, in4) := readLines (Z.to_nat keyCount) in3 in
        let '(suffixCount, in5) := Stream.extractInt in4 in
        let in6 := Stream.ignore in5 in
        let '(suffixes, in7) := readLines (Z.to_nat suffixCount) in6 in
        let '(objectCount, in8) := Stream.extractInt in7 in
        let state := readObjects (Z.to_nat objectCount) (in8, ∅) in
        (true,
         {| serverId := serverId s;
            indexedKeys := keys;
            indexedSuffixes := suffixes;
            objectMetadata := state.2 |})
  end.

(** A string that fits on one line of the checkpoint. *)
Fixpoint lineSafe (s : string) : bool :=
  match s with
  | EmptyString => true
  | String c rest => negb (Ascii.eqb c Stream.newline) && lineSafe rest
  end.

Definition safeRecord (record : string * string * Z) : Prop :=
  lineSafe record.1.1 = true /\ lineSafe record.1.2 = true.

(** What the digits of a decimal number add to an accumulator, as
    [Stream.readDigits] computes it. *)
Fixpoint digitsValue (d : Decimal.uint) (acc : Z) : Z :=
  match d with
  | Decimal.Nil => acc
  | Decimal.D0 l => digitsValue l (acc * 10 + 0)
  | Decimal.D1 l => digitsValue l (acc * 10 + 1)
  | Decimal.D2 l => digitsValue l (acc * 10 + 2)
  | Decimal.D3 l => digitsValue l (acc * 10 + 3)
  | Decimal.D4 l => digitsValue l (acc * 10 + 4)
  | Decimal.D5 l => digitsValue l (acc * 10 + 5)
  | Decimal.D6 l => digitsValue l (acc * 10 + 6)
  | Decimal.D7 l => digitsValue l (acc * 10 + 7)
  | Decimal.D8 l => digitsValue l (acc * 10 + 8)
  | Decimal.D9 l => digitsValue l (acc * 10 + 9)
  end.

Definition nonNil (d : Decimal.uint) : bool :=
  match d with Decimal.Nil => false | _ => true end.

(** The next character, if any, is no digit: where a number ends. *)
Definition endsNumber (rest : string) : Prop :=
  match rest with
  | EmptyString => True
  | String c _ => Stream.digitOf c = None
  end.

(** What is safe to checkpoint: no stored string has a newline, and no
    object has an empty list of entries. *)
Definition checkpointable (s : DistributedIdiomsServer) : Prop :=
  Forall (fun key => lineSafe key = true) (indexedKeys s) /\
  Forall (fun suffix => lineSafe suffix = true) (indexedSuffixes s) /\
  map_Forall
    (fun _ metadata =>
       metadata <> [] /\
       Forall (fun entry : string * string =>
                 lineSafe entry.1 = true /\ lineSafe entry.2 = true)
              metadata)
    (objectMetadata s).

End DemoRecovery.

(* ===================================================================== *)
(** * Facts about [std::string] helpers *)
(* ===================================================================== *)

Section CppFacts.

Lemma starts_with_prefix key tok :
  Cpp.starts_with key tok = String.prefix tok key.
Proof.
  unfold Cpp.starts_with, Cpp.find.
  destruct key as [|c key]; cbn.
  - by destruct tok.
  - destruct tok as [|d tok]; [done|].
    destruct (ascii_dec d c) as [->|Hne]; [|by destruct (String.index _ _ _)].
    destruct (String.prefix tok key); [done|].
    by destruct (String.index _ _ _).
Qed.

Lemma starts_with_empty key : Cpp.starts_with key "" = true.
Proof. rewrite starts_with_prefix. by destruct key. Qed.

Lemma contains_cons c key tok :
  Cpp.contains (String c key) tok
  = Cpp.starts_with (String c key) tok || Cpp.contains key tok.
Proof.
  rewrite starts_with_prefix. unfold Cpp.contains, Cpp.find.
  cbn [String.index].
  destruct (String.prefix tok (String c key)); [done|].
  by destruct (String.index 0 tok key).
Qed.

(** A non-empty token that occurs in a key starts one of the key's
    suffixes. *)
Lemma contains_suffixes tok : tok <> "" -> forall key,
  Cpp.contains key tok = true ->
  exists suffix, suffix ∈ Cpp.suffixes key /\
                 Cpp.starts_with suffix tok = true.
Proof.
  intros Htok. induction key as [|c key IH].
  - unfold Cpp.contains, Cpp.find. cbn. by destruct tok.
  - rewrite contains_cons. intros [Hhere|Hlater]%orb_true_iff.
    + exists (String c key). split; [|done]. cbn. by left.
    + destruct (IH Hlater) as (suffix & Hin & Hstarts).
      exists suffix. split; [|done]. cbn. by right.
Qed.

Lemma substring_all s : String.substring 0 (String.length s) s = s.
Proof. induction s as [|c s IH]; cbn; [done|]. by rewrite IH. Qed.

Lemma substring_suffix : forall key (n : nat),
  (n < String.length key)%nat ->
  String.substring n (String.length key - n) key ∈ Cpp.suffixes key.
Proof.
  induction key as [|c key IH]; intros n Hn; cbn in Hn; [lia|].
  destruct n as [|n].
  - rewrite Nat.sub_0_r, substring_all. cbn. by left.
  - cbn. right. apply IH. lia.
Qed.

(** A non-empty token that ends a key is one of the key's suffixes. *)
Lemma ends_with_suffixes key tok :
  tok <> "" -> Cpp.ends_with key tok = true -> tok ∈ Cpp.suffixes key.
Proof.
  intros Htok. unfold Cpp.ends_with, Cpp.substr.
  intros [Hlen Heq]%andb_true_iff.
  apply Nat.leb_le in Hlen. apply String.eqb_eq in Heq.
  assert (0 < String.length tok)%nat as Hpos.
  { destruct tok; [done|cbn; lia]. }
  rewrite <- Heq at 1.
  replace (String.length tok)
    with (String.length key - (String.length key - String.length tok))%nat
    at 2 by lia.
  apply substring_suffix. lia.
Qed.

Lemma substring_nonempty : forall s (n m : nat),
  (n < String.length s)%nat -> (0 < m)%nat -> String.substring n m s <> "".
Proof.
  induction s as [|c s IH]; intros n m Hn Hm; cbn in Hn; [lia|].
  destruct n as [|n]; [by destruct m; [lia|]|].
  cbn. apply IH; lia.
Qed.

Lemma front_star_nonempty s :
  Ascii.eqb (Cpp.front s) Cpp.star = true -> (1 <= String.length s)%nat.
Proof. destruct s; cbn; [done|lia]. Qed.

Lemma back_star_nonempty s :
  Ascii.eqb (Cpp.back s) Cpp.star = true -> (1 <= String.length s)%nat.
Proof. destruct s; cbn; [done|lia]. Qed.

Lemma front_star_one s :
  String.length s = 1%nat -> Ascii.eqb (Cpp.front s) Cpp.star = true ->
  s = "*".
Proof.
  destruct s as [|c [|d s]]; cbn; try done.
  intros _ Hc. apply Ascii.eqb_eq in Hc. by subst.
Qed.

Lemma back_star_one s :
  String.length s = 1%nat -> Ascii.eqb (Cpp.back s) Cpp.star = true ->
  s = "*".
Proof.
  destruct s as [|c [|d s]]; cbn; try done.
  intros _ Hc. apply Ascii.eqb_eq in Hc. by subst.
Qed.

Lemma two_stars s :
  String.length s = 2%nat ->
  Ascii.eqb (Cpp.front s) Cpp.star = true ->
  Ascii.eqb (Cpp.back s) Cpp.star = true ->
  s = "**".
Proof.
  destruct s as [|c [|d [|e s]]]; cbn; try done.
  intros _ Hc Hd. apply Ascii.eqb_eq in Hc, Hd. by subst.
Qed.

End CppFacts.

(* ===================================================================== *)
(** * Facts about the virtual nodes *)
(* ===================================================================== *)

Section VirtualNodeFacts.

Import Dart.

(** The creation loop stopped because its condition became false, not
    because the bound on its passes was reached. *)
Lemma createVirtualNodes_length :
  length createVirtualNodes = NUM_VIRTUAL_NODES.
Proof. by vm_compute. Qed.

(** Node [i] of the vector has id [i]. *)
Lemma createVirtualNodes_ids : id <$> createVirtualNodes = seqZ 0 256.
Proof. by vm_compute. Qed.

Lemma createVirtualNodes_fallback :
  createVirtualNodes !! 99%nat = Some {| id := 99; prefix := "" |}.
Proof. by vm_compute. Qed.

Lemma virtualNodes_newRouter n ratio :
  virtualNodes (newRouter n ratio) = createVirtualNodes.
Proof. reflexivity. Qed.

(** [List.find] returns the first element that passes the test. *)
Lemma find_first {A} (f : A -> bool) (l : list A) v :
  List.find f l = Some v ->
  exists i : nat, l !! i = Some v /\ f v = true /\
    forall (j : nat) w, (j < i)%nat -> l !! j = Some w -> f w = false.
Proof.
  induction l as [|a l IH]; cbn; [done|].
  destruct (f a) eqn:Hfa.
  - intros [= ->]. exists O. split; [done|]. split; [done|].
    intros j w Hj. lia.
  - intros Hfind. destruct (IH Hfind) as (i & Hi & Hv & Hbefore).
    exists (S i). split; [done|]. split; [done|].
    intros [|j] w Hj; cbn; [by intros [= <-]|].
    apply Hbefore. lia.
Qed.

(** The selection on any router whose pool is numbered in vector order
    and has the empty prefix at position 99. *)
Lemma first_match_of_pool (r : DARTRouter) (key : string) :
  id <$> virtualNodes r = seqZ 0 256 ->
  virtualNodes r !! 99%nat = Some {| id := 99; prefix := "" |} ->
  0 <= getVirtualNodeId r key < 256 /\
  exists (i : nat) v,
    virtualNodes r !! i = Some v /\
    id v = Z.of_nat i /\
    getVirtualNodeId r key = id v /\
    String.prefix (prefix v) key = true /\
    forall (j : nat) w, (j < i)%nat -> virtualNodes r !! j = Some w ->
      id w = Z.of_nat j /\ String.prefix (prefix w) key = false.
Proof.
  unfold getVirtualNodeId. generalize (virtualNodes r).
  intros pool Hids Hfallback.
  assert (forall (i : nat) v, pool !! i = Some v ->
            id v = Z.of_nat i /\ (i < 256)%nat) as Hid_at.
  { intros i v Hv.
    assert ((id <$> pool) !! i = Some (id v)) as Hid
      by (by rewrite list_lookup_fmap, Hv).
    rewrite Hids in Hid. apply lookup_seqZ in Hid. lia. }
  destruct (List.find _ pool) as [v|] eqn:Hfind.
  - destruct (find_first _ _ _ Hfind) as (i & Hi & Hv & Hbefore).
    destruct (Hid_at i v Hi) as [Hid Hlt].
    split; [lia|].
    exists i, v.
    split; [exact Hi|]. split; [exact Hid|]. split; [reflexivity|].
    split.
    + unfold containsKey in Hv. by rewrite starts_with_prefix in Hv.
    + intros j w Hj Hw. split; [by apply Hid_at|].
      specialize (Hbefore j w Hj Hw). unfold containsKey in Hbefore.
      by rewrite starts_with_prefix in Hbefore.
  - exfalso.
    pose proof (find_none _ _ Hfind {| id := 99; prefix := "" |}) as Hnone.
    unfold containsKey in Hnone. cbn [prefix] in Hnone.
    rewrite starts_with_empty in Hnone.
    discriminate Hnone.
    apply list_elem_of_In.
    by eapply list_elem_of_lookup_2.
Qed.

(** C7: on a router as constructed, the pool has exactly 256 virtual
    nodes, numbered in vector order, one of them with the empty prefix;
    for every key (so for every non-empty key) [getVirtualNodeId] returns
    an id in [0, 256), and it is the id of the first virtual node, in id
    order, whose prefix is a prefix of the key. *)
Theorem getVirtualNodeId_first_match n ratio key :
  let r := newRouter n ratio in
  length (virtualNodes r) = 256%nat /\
  (exists v, v ∈ virtualNodes r /\ prefix v = "") /\
  0 <= getVirtualNodeId r key < 256 /\
  exists (i : nat) v,
    virtualNodes r !! i = Some v /\
    id v = Z.of_nat i /\
    getVirtualNodeId r key = id v /\
    String.prefix (prefix v) key = true /\
    forall (j : nat) w, (j < i)%nat -> virtualNodes r !! j = Some w ->
      id w = Z.of_nat j /\ String.prefix (prefix w) key = false.
Proof.
  intros r.
  pose proof (virtualNodes_newRouter n ratio) as Hpool. fold r in Hpool.
  split; [rewrite Hpool; exact createVirtualNodes_length|].
  split.
  { exists {| id := 99; prefix := "" |}. split; [|reflexivity].
    rewrite Hpool.
    exact (list_elem_of_lookup_2 _ _ _ createVirtualNodes_fallback). }
  apply first_match_of_pool; rewrite Hpool.
  - exact createVirtualNodes_ids.
  - exact createVirtualNodes_fallback.
Qed.

End VirtualNodeFacts.

(* ===================================================================== *)
(** * Facts about the consistent hash ring *)
(* ===================================================================== *)

Section IntFacts.

(** [int] sums that stay in the range are the sums of [Z], and a
    non-negative [int] is its own [size_t]. *)
Lemma int32_small (z : Z) :
  Cpp.INT_MIN <= z <= Cpp.INT_MAX -> Cpp.int32 z = z.
Proof.
  unfold Cpp.INT_MIN, Cpp.INT_MAX, Cpp.int32. intros Hz.
  rewrite Z.mod_small; lia.
Qed.

Lemma int32_range (z : Z) : Cpp.INT_MIN <= Cpp.int32 z <= Cpp.INT_MAX.
Proof.
  unfold Cpp.INT_MIN, Cpp.INT_MAX, Cpp.int32.
  pose proof (Z.mod_pos_bound (z + 2 ^ 31) (2 ^ 32)). lia.
Qed.

Lemma to_size_t_small (z : Z) :
  0 <= z <= Cpp.INT_MAX -> Cpp.to_size_t z = z.
Proof.
  unfold Cpp.INT_MAX, Cpp.to_size_t. intros Hz. rewrite Z.mod_small; lia.
Qed.

Lemma successor_fits (r : Z) :
  0 <= r < Cpp.INT_MAX -> Cpp.int32 (r + 1) = r + 1.
Proof.
  intros Hr. apply int32_small. unfold Cpp.INT_MIN, Cpp.INT_MAX in *. lia.
Qed.

Lemma sizeBound_small (r : Z) :
  0 <= r < Cpp.INT_MAX -> Dart.sizeBound r = r + 1.
Proof.
  intros Hr. unfold Dart.sizeBound. rewrite successor_fits by done.
  apply to_size_t_small. lia.
Qed.

Lemma reserve_small (r : Z) :
  0 <= r < Cpp.INT_MAX ->
  Dart.reserveReturns (Cpp.to_size_t (Cpp.int32 (r + 1))) = true.
Proof.
  intros Hr. rewrite successor_fits, to_size_t_small by lia.
  unfold Dart.reserveReturns, Cpp.INT_MAX in *.
  apply orb_true_iff. left. apply Z.ltb_lt. lia.
Qed.

End IntFacts.

Section RingWalk.

Import Dart.

(** The walk of [getReplicaServers] over an arbitrary non-empty ring that
    carries at least [target] distinct servers. *)
Variable ch : ConsistentHash.
Variable target : Z.
Variable p0 : nat.

Let N : nat := length (ring ch).

Hypothesis ring_nonempty : (0 < N)%nat.
Hypothesis enough_servers :
  forall U : gset Z,
    (forall i : nat, (i < N)%nat -> serverAt ch i ∈ U) ->
    target <= Z.of_nat (size U).

Lemma next_position (a : nat) :
  (if decide (S (a mod N) = N) then O else S (a mod N))%nat
  = (S a mod N)%nat.
Proof.
  assert (a mod N < N)%nat as Hlt by (apply Nat.mod_upper_bound; lia).
  replace (S a mod N)%nat with ((a + 1) mod N)%nat by (f_equal; lia).
  rewrite <- Nat.Div0.add_mod_idemp_l.
  case_decide as Hwrap.
  - replace (a mod N + 1)%nat with N by lia. by rewrite Nat.Div0.mod_same.
  - rewrite (Nat.mod_small (a mod N + 1)); lia.
Qed.

Lemma every_position_reached (i : nat) :
  (p0 < N)%nat -> (i < N)%nat ->
  exists j : nat, (j <= N - 1)%nat /\ ((p0 + j) mod N)%nat = i.
Proof.
  intros Hp Hi. destruct (decide (p0 <= i)%nat) as [Hle|Hgt].
  - exists (i - p0)%nat. split; [lia|].
    replace (p0 + (i - p0))%nat with i by lia. by apply Nat.mod_small.
  - exists (i + N - p0)%nat. split; [lia|].
    replace (p0 + (i + N - p0))%nat with (i + 1 * N)%nat by lia.
    rewrite Nat.Div0.mod_add. by apply Nat.mod_small.
Qed.

Lemma replicaLoop_terminates fuel : forall k uniqueServers servers,
  (p0 < N)%nat ->
  (N <= S (k + fuel))%nat ->
  walked ch target p0 k uniqueServers servers ->
  exists result,
    replicaLoop ch target fuel ((p0 + k) mod N)%nat uniqueServers servers
      = Some result /\
    Z.of_nat (length result) = target /\
    NoDup result /\
    head result = head servers.
Proof.
  induction fuel as [|fuel IH];
    intros k uniqueServers servers Hp Hfuel
           (Hnd & Hsame & Hsize & Hle & Hseen); fold N in Hseen;
    cbn [replicaLoop].
  - case_decide as Hcond.
    + exfalso.
      assert (target <= Z.of_nat (size uniqueServers)); [|lia].
      apply enough_servers. intros i Hi.
      destruct (every_position_reached i Hp Hi) as (j & Hj & <-).
      apply Hseen. lia.
    + exists servers. repeat split; [|done..]. lia.
  - case_decide as Hcond; [|exists servers; repeat split; [lia|done..]].
    fold N. rewrite next_position.
    replace (S (p0 + k)) with (p0 + S k)%nat by lia.
    set (s := serverAt ch ((p0 + S k) mod N)%nat).
    case_decide as Hin.
    + apply IH; [done|lia|].
      repeat split; try done; try apply Hsame.
      intros j Hj. destruct (decide (j = S k)) as [->|]; [done|].
      apply Hseen. lia.
    + assert (s ∉ servers) as Hnotin by (by rewrite <- Hsame).
      destruct (IH (S k) ({[s]} ∪ uniqueServers) (servers ++ [s]))
        as (result & Hres & Hlen & Hndr & Hhead); [done|lia| |].
      * repeat split.
        -- apply NoDup_app. repeat split; [done| |apply NoDup_singleton].
           intros x Hx Hx'. apply list_elem_of_singleton in Hx'. by subst.
        -- rewrite elem_of_union, elem_of_singleton, elem_of_app,
             list_elem_of_singleton, Hsame. tauto.
        -- rewrite elem_of_union, elem_of_singleton, elem_of_app,
             list_elem_of_singleton, Hsame. tauto.
        -- rewrite size_union.
           ++ rewrite size_singleton, length_app. cbn. lia.
           ++ apply disjoint_singleton_l. by rewrite Hsame.
        -- rewrite length_app. cbn. lia.
        -- intros j Hj. destruct (decide (j = S k)) as [->|].
           ++ apply elem_of_union_l, elem_of_singleton. reflexivity.
           ++ apply elem_of_union_r, Hseen. lia.
      * exists result. repeat split; [done..|].
        rewrite Hhead. destruct servers; [|done].
        cbn in Hsize. apply size_empty_inv in Hsize.
        cbn in Hcond, Hle. exfalso.
        specialize (Hseen O (Nat.le_0_l _)). rewrite Hsize in Hseen.
        by apply not_elem_of_empty in Hseen.
Qed.

End RingWalk.

Section RingFacts.

Import Dart.

Lemma lower_bound_le entries keyHash :
  (lower_bound entries keyHash <= length entries)%nat.
Proof.
  induction entries as [|e entries IH]; cbn; [lia|].
  case_decide; lia.
Qed.

Lemma startIndex_lt ch key :
  (0 < length (ring ch))%nat -> (startIndex ch key < length (ring ch))%nat.
Proof.
  intros Hpos. unfold startIndex.
  pose proof (lower_bound_le (ring ch) (hash64 key 0)).
  case_decide; lia.
Qed.

(** Every server of the constructor's range owns a position of the
    sorted ring. *)
Lemma ring_covers c n s :
  0 <= s < n ->
  exists i : nat,
    (i < length (ring (newConsistentHashOf c n)))%nat /\
    serverAt (newConsistentHashOf c n) i = s.
Proof.
  intros Hs.
  assert ((hash64 (ringKey s 0) 0, s) ∈ ring (newConsistentHashOf c n))
    as Hin.
  { cbn [ring newConsistentHashOf]. unfold sortRing.
    rewrite merge_sort_Permutation. unfold ringEntries.
    apply list_elem_of_In, in_flat_map. exists s. split.
    - apply list_elem_of_In, elem_of_seqZ. lia.
    - apply in_map_iff. exists 0. split; [done|].
      apply list_elem_of_In, elem_of_seqZ. unfold RING_SIZE. lia. }
  apply list_elem_of_lookup in Hin as [i Hi].
  exists i. split; [by eapply lookup_lt_Some|].
  unfold serverAt, newConsistentHashOf in *. cbn [ring] in *.
  by rewrite Hi.
Qed.

Lemma ring_nonempty c n : 1 <= n ->
  (0 < length (ring (newConsistentHashOf c n)))%nat.
Proof.
  intros Hn. destruct (ring_covers c n 0) as (i & Hi & _); lia.
Qed.

Lemma ring_enough_servers c n r (U : gset Z) :
  1 <= n ->
  (forall i : nat, (i < length (ring (newConsistentHashOf c n)))%nat ->
     serverAt (newConsistentHashOf c n) i ∈ U) ->
  Z.min (r + 1) n <= Z.of_nat (size U).
Proof.
  intros Hn HU.
  assert (list_to_set (seqZ 0 n) ⊆ U) as Hsub.
  { intros s Hs. apply elem_of_list_to_set, elem_of_seqZ in Hs.
    destruct (ring_covers c n s) as (i & Hi & <-); [lia|]. by apply HU. }
  apply subseteq_size in Hsub.
  rewrite size_list_to_set in Hsub by apply NoDup_seqZ.
  rewrite length_seqZ in Hsub. lia.
Qed.

(** C3, as stated, fails for the replication factor 0: the guard at the
    top of [getReplicaServers] returns the empty vector, where the claim
    promises [min(0 + 1, 3) = 1] server led by [getServer(k)]. *)
Lemma getReplicaServers_factor_zero :
  getReplicaServers (newConsistentHash 3) "StageX" 0 = Some [] /\
  Z.of_nat (length (@nil Z)) <> Z.min (0 + 1) 3 /\
  head (@nil Z) <> Some (getServer (newConsistentHash 3) "StageX").
Proof. split; [by vm_compute|]. split; [by vm_compute|done]. Qed.

(** With at least one lap of fuel the loop returns, and what it returns
    is as long as the loop condition asks, duplicate-free and led by the
    primary.  The factor is below [INT_MAX], so [r + 1] is the sum of the
    integers and the [reserve] of [dart.cpp] is granted. *)
Lemma replicas_within_a_lap c n key r fuel :
  1 <= n ->
  (length (ring (newConsistentHashOf c n)) <= fuel)%nat ->
  1 <= r < Cpp.INT_MAX ->
  exists servers,
    getReplicaServersFuel fuel (newConsistentHashOf c n) key r
      = Some servers /\
    Z.of_nat (length servers) = Z.min (r + 1) n /\
    NoDup servers /\
    head servers = Some (getServer (newConsistentHashOf c n) key).
Proof.
  intros Hn Hfuel Hr.
  pose proof (ring_nonempty c n Hn) as Hpos.
  assert (numServers (newConsistentHashOf c n) = n) as Hnum by done.
  assert (match copy (newConsistentHashOf c n) with
          | DART_CPP => reserveReturns (Cpp.to_size_t (Cpp.int32 (r + 1)))
          | SRC4 => true
          end = true) as Hreserve.
  { destruct (copy (newConsistentHashOf c n)); [|done].
    apply reserve_small. lia. }
  set (ch := newConsistentHashOf c n) in *.
  pose proof (startIndex_lt ch key Hpos) as Hstart.
  unfold getReplicaServersFuel, getServer. cbv zeta. rewrite Hreserve.
  destruct (ring ch) as [|e0 entries] eqn:Hring; [cbn in Hpos; lia|].
  rewrite <- Hring in *. clear e0 entries Hring.
  rewrite decide_False by lia.
  rewrite Hnum, successor_fits by lia.
  rewrite to_size_t_small by (unfold Cpp.INT_MAX in *; lia).
  set (p0 := startIndex ch key) in *.
  destruct (replicaLoop_terminates ch (Z.min (r + 1) n) p0 Hpos
              (fun U => ring_enough_servers c n r U Hn)
              fuel O {[serverAt ch p0]} [serverAt ch p0])
    as (result & Hres & Hlen & Hnd & Hhead); [done|lia| |].
  - split; [apply NoDup_singleton|].
    split.
    { intros s. by rewrite elem_of_singleton, list_elem_of_singleton. }
    split; [by rewrite size_singleton|].
    split; [cbn; lia|].
    intros j Hj. replace j with O by lia.
    replace (p0 + 0)%nat with p0 by lia.
    rewrite Nat.mod_small by done. by apply elem_of_singleton.
  - replace (p0 + 0)%nat with p0 in Hres by lia.
    rewrite Nat.mod_small in Hres by done.
    exists result. split; [done|]. split; [done|]. by split.
Qed.

(** C3, amended: on a ring built for [n >= 1] servers, in either copy of
    the class, [getReplicaServers(k, 0)] returns the empty vector, and for
    every replication factor [1 <= r < INT_MAX] [getReplicaServers(k, r)]
    returns (the loop ends within one lap of the ring, so any fuel of at
    least the ring's length gives the result) exactly [min(r + 1, n)]
    pairwise distinct server ids, the first of which is [getServer(k)]. *)
Theorem getReplicaServers_distinct c n key r fuel :
  1 <= n ->
  (length (ring (newConsistentHashOf c n)) <= fuel)%nat ->
  (r = 0 ->
   getReplicaServersFuel fuel (newConsistentHashOf c n) key r = Some []) /\
  (1 <= r < Cpp.INT_MAX ->
   exists servers,
     getReplicaServersFuel fuel (newConsistentHashOf c n) key r
       = Some servers /\
     Z.of_nat (length servers) = Z.min (r + 1) n /\
     NoDup servers /\
     head servers = Some (getServer (newConsistentHashOf c n) key)).
Proof.
  intros Hn Hfuel. split; intros Hr.
  - subst r. unfold getReplicaServersFuel. cbv zeta.
    destruct c; cbn [copy ring newConsistentHashOf];
      rewrite ?(reserve_small 0) by (unfold Cpp.INT_MAX; lia);
      (destruct (sortRing (ringEntries n)); [done|]);
      by rewrite decide_True by lia.
  - by apply replicas_within_a_lap.
Qed.

(** The theorem at three servers of the class of [src4], the key
    ["StageX"] and one replica. *)
Lemma getReplicaServers_distinct_witness :
  exists servers,
    getReplicaServersFuel 120 (newConsistentHashOf SRC4 3) "StageX" 1
      = Some servers /\
    Z.of_nat (length servers) = Z.min (1 + 1) 3 /\
    NoDup servers /\
    head servers = Some (getServer (newConsistentHashOf SRC4 3) "StageX").
Proof.
  apply (getReplicaServers_distinct SRC4 3 "StageX" 1 120);
    [lia| |unfold Cpp.INT_MAX; lia].
  vm_compute. lia.
Defined.

(** [getReplicaServers] itself, with its one lap of fuel, returns. *)
Lemma getReplicaServers_returns c n key r :
  1 <= n -> 1 <= r < Cpp.INT_MAX ->
  exists servers,
    getReplicaServers (newConsistentHashOf c n) key r = Some servers /\
    Z.of_nat (length servers) = Z.min (r + 1) n.
Proof.
  intros Hn Hr. unfold getReplicaServers.
  destruct (replicas_within_a_lap c n key r _ Hn (Nat.le_refl _))
    as (servers & Hsome & Hlen & _); [done|].
  by exists servers.
Qed.

End RingFacts.

(* ===================================================================== *)
(** * Facts about the popularity tracker and the adaptive router *)
(* ===================================================================== *)

Section PopularityFacts.

Import Popularity.

Lemma updatePopularityWithDecay_score now stamp key increment t :
  keyPopularity (updatePopularityWithDecay now stamp key increment t) !! key
  = Some (getPopularity now key t + increment)%R.
Proof.
  unfold updatePopularityWithDecay, getPopularity. cbn [keyPopularity].
  rewrite lookup_insert_eq. by destruct (keyPopularity t !! key).
Qed.

(** C5, amended: the new score of [p] is its effective score plus the
    weight, and the weight is multiplied by
    [1 + log10 (stored / threshold)] exactly when [p] has a stored score
    above the threshold: test and multiplier read the score as stored at
    the last update, before any decay. *)
Theorem recordQuery_bonus_reads_stored now stamp p w t :
  (forall stored,
     keyPopularity t !! p = Some stored ->
     (stored > popularityThreshold t)%R ->
     keyPopularity (recordQuery now stamp p w t) !! p
     = Some (getPopularity now p t
             + w * (1 + log10 (stored / popularityThreshold t)))%R) /\
  (forall stored,
     keyPopularity t !! p = Some stored ->
     ~ (stored > popularityThreshold t)%R ->
     keyPopularity (recordQuery now stamp p w t) !! p
     = Some (getPopularity now p t + w)%R) /\
  (keyPopularity t !! p = None ->
   keyPopularity (recordQuery now stamp p w t) !! p = Some (0 + w)%R).
Proof.
  unfold recordQuery. rewrite updatePopularityWithDecay_score.
  unfold actualIncrement.
  split; [|split].
  - intros stored -> Hgt. by destruct (Rgt_dec _ _).
  - intros stored -> Hle. by destruct (Rgt_dec _ _).
  - intros Hnone. unfold getPopularity. by rewrite Hnone.
Qed.

Lemma hoursBetween_oneHour : hoursBetween oneHour 0 = 1%R.
Proof.
  unfold hoursBetween, oneHour.
  replace (Z.quot (3600 * 1000 * 1000000 - 0) 1000000) with 3600000
    by (by vm_compute).
  lra.
Qed.

Lemma warm_effective :
  getPopularity oneHour "StageX" warm = (10 * exp (- 1))%R.
Proof.
  unfold getPopularity, calculateDecay, warm.
  cbn [keyPopularity lastAccess decayFactor].
  rewrite !lookup_singleton_eq, hoursBetween_oneHour.
  do 2 f_equal. lra.
Qed.

Lemma exp_minus_one_below_half : (exp (- 1) < 1 / 2)%R.
Proof.
  replace (exp (- 1)) with (exp (Ropp 1)) by (f_equal; lra).
  rewrite exp_Ropp.
  assert (2 < exp 1)%R as H2.
  { pose proof (exp_ineq1 1). lra. }
  apply Rmult_lt_reg_r with (exp 1); [lra|].
  rewrite Rinv_l by lra. lra.
Qed.

Lemma log10_two_positive : (0 < log10 (10 / 5))%R.
Proof.
  unfold log10. replace (10 / 5)%R with 2%R by lra.
  assert (0 < ln 2)%R.
  { rewrite <- ln_1. apply ln_increasing; lra. }
  assert (0 < ln 10)%R.
  { rewrite <- ln_1. apply ln_increasing; lra. }
  by apply Rdiv_lt_0_compat.
Qed.

(** The theorem at the warm tracker, one hour after its last update. *)
Lemma warm_witness :
  keyPopularity (recordQuery oneHour oneHour "StageX" 1 warm) !! "StageX"
  = Some (getPopularity oneHour "StageX" warm
          + 1 * (1 + log10 (10 / popularityThreshold warm)))%R.
Proof.
  apply (proj1 (recordQuery_bonus_reads_stored
                  oneHour oneHour "StageX" 1 warm) 10%R).
  - reflexivity.
  - cbn. lra.
Defined.

(** C5, as stated, fails: one hour after its last update the pattern has
    effective score [10 / e], below the threshold 5, yet its stored score
    10 is above it and the weight gets the bonus; the update worded by
    the specification adds the bare weight. *)
Lemma bonus_applied_below_threshold :
  ~ (getPopularity oneHour "StageX" warm > popularityThreshold warm)%R /\
  keyPopularity (recordQuery oneHour oneHour "StageX" 1 warm) !! "StageX"
  <> keyPopularity
       (PopularitySpec.recordQuery oneHour oneHour "StageX" 1 warm)
       !! "StageX".
Proof.
  pose proof exp_minus_one_below_half as Hexp.
  pose proof log10_two_positive as Hlog.
  assert (~ (getPopularity oneHour "StageX" warm
             > popularityThreshold warm)%R) as Hbelow.
  { rewrite warm_effective. cbn [popularityThreshold warm]. lra. }
  split; [done|].
  unfold recordQuery, PopularitySpec.recordQuery.
  rewrite !updatePopularityWithDecay_score.
  unfold PopularitySpec.actualIncrement, actualIncrement.
  destruct (Rgt_dec (getPopularity _ _ _) _); [done|].
  cbn [keyPopularity popularityThreshold warm].
  rewrite lookup_singleton_eq.
  destruct (Rgt_dec 10 5); [|lra].
  intros [= Heq]. lra.
Qed.

End PopularityFacts.

Section AdaptiveFacts.

Import Adaptive.

(** Whatever the shape of the key portion, an enabled router records it
    with the default weight. *)
Lemma getDestinationServers_records now stamp later r query :
  adaptiveReplicationEnabled r = true ->
  popularityTracker (getDestinationServers now stamp later r query).2
  = Popularity.recordQuery now stamp (Cpp.keyPortion query)
      Popularity.defaultIncrement (popularityTracker r).
Proof.
  intros Hon. unfold getDestinationServers. cbn [snd].
  rewrite Hon. unfold recordQuery. rewrite Hon. reflexivity.
Qed.

Lemma fresh_score_after now stamp keyPattern w :
  Popularity.keyPopularity
    (Popularity.recordQuery now stamp keyPattern w
       (popularityTracker fresh)) !! keyPattern
  = Some (0 + w)%R.
Proof.
  unfold Popularity.recordQuery.
  rewrite updatePopularityWithDecay_score.
  unfold Popularity.getPopularity, Popularity.actualIncrement.
  by cbn [fresh new popularityTracker Popularity.new
          Popularity.keyPopularity].
Qed.

(** C4 on the code: the exact query ["StageX=300.00"] has the key portion
    ["StageX"], without a star, and an enabled router that has seen no
    query records it with weight 1: the score of the pattern afterwards
    is 1, where a recording with weight 2 would leave 2. *)
Theorem exact_query_recorded_with_weight_one :
  Cpp.keyPortion "StageX=300.00" = "StageX" /\
  Cpp.find_char "StageX" Cpp.star = None /\
  adaptiveReplicationEnabled fresh = true /\
  Popularity.keyPopularity
    (popularityTracker
       (getDestinationServers 0 0 0 fresh "StageX=300.00").2) !! "StageX"
  = Some 1%R /\
  Popularity.keyPopularity
    (Popularity.recordQuery 0 0 "StageX" 2 (popularityTracker fresh))
    !! "StageX"
  = Some 2%R.
Proof.
  split; [by vm_compute|]. split; [by vm_compute|]. split; [done|].
  split.
  - rewrite getDestinationServers_records by done.
    replace (Cpp.keyPortion "StageX=300.00") with "StageX"
      by (by vm_compute).
    rewrite fresh_score_after. unfold Popularity.defaultIncrement.
    f_equal. lra.
  - rewrite fresh_score_after. f_equal. lra.
Qed.

End AdaptiveFacts.

(* ===================================================================== *)
(** * Facts about the failure detector *)
(* ===================================================================== *)

Section FaultFacts.

Import Fault.

Lemma initiateRecovery_serverStatus failedRank fm :
  serverStatus (initiateRecovery failedRank fm) = serverStatus fm.
Proof. unfold initiateRecovery. by destruct (activeServers fm). Qed.

Lemma initiateRecovery_lastHeartbeat failedRank fm :
  lastHeartbeat (initiateRecovery failedRank fm) = lastHeartbeat fm.
Proof. unfold initiateRecovery. by destruct (activeServers fm). Qed.

Lemma initiateRecovery_thresholds failedRank fm :
  timeoutThreshold (initiateRecovery failedRank fm) = timeoutThreshold fm /\
  confirmationThreshold (initiateRecovery failedRank fm)
    = confirmationThreshold fm.
Proof. unfold initiateRecovery. by destruct (activeServers fm). Qed.

(** One loop body changes only the entry it visits, and changes it as
    [checkOne] says. *)
Lemma checkEntry_status now fm k r :
  serverStatus (checkEntry now fm k) !! r =
    if decide (r = k)
    then checkOne now (default 0 (lastHeartbeat fm !! k))
           (timeoutThreshold fm) (confirmationThreshold fm)
           <$> serverStatus fm !! k
    else serverStatus fm !! r.
Proof.
  unfold checkEntry.
  destruct (serverStatus fm !! k) as [st|] eqn:Hk.
  - destruct st; cbn; repeat case_decide; subst;
      rewrite ?initiateRecovery_serverStatus; cbn;
      rewrite ?lookup_insert_eq, ?lookup_insert_ne by done;
      rewrite ?Hk; try done; try lia.
  - case_decide; subst; by rewrite ?Hk.
Qed.

Lemma checkEntry_last now fm k r :
  default 0 (lastHeartbeat (checkEntry now fm k) !! r)
    = default 0 (lastHeartbeat fm !! r).
Proof.
  unfold checkEntry.
  destruct (serverStatus fm !! k) as [st|]; [|done].
  destruct st; cbn [set_heartbeat set_status lastHeartbeat timeoutThreshold
                    confirmationThreshold];
    repeat case_decide;
    rewrite ?initiateRecovery_lastHeartbeat;
    cbn [set_heartbeat set_status lastHeartbeat]; try done;
    (destruct (decide (r = k)) as [->|];
     [by rewrite lookup_insert_eq | by rewrite lookup_insert_ne]).
Qed.

Lemma checkEntry_thresholds now fm k :
  timeoutThreshold (checkEntry now fm k) = timeoutThreshold fm /\
  confirmationThreshold (checkEntry now fm k) = confirmationThreshold fm.
Proof.
  unfold checkEntry.
  destruct (serverStatus fm !! k) as [st|]; [|done].
  destruct st; cbn [set_heartbeat set_status timeoutThreshold
                    confirmationThreshold];
    repeat case_decide; try done;
    by destruct (initiateRecovery_thresholds k
      (set_status (insert k CONFIRMED_DOWN)
         (set_heartbeat (insert k (default 0 (lastHeartbeat fm !! k))) fm))).
Qed.

(** The whole pass, over any duplicate-free list of ranks. *)
Lemma check_loop_status now keys : NoDup keys -> forall fm r,
  serverStatus (foldl (checkEntry now) fm keys) !! r =
    if decide (r ∈ keys)
    then checkOne now (default 0 (lastHeartbeat fm !! r))
           (timeoutThreshold fm) (confirmationThreshold fm)
           <$> serverStatus fm !! r
    else serverStatus fm !! r.
Proof.
  induction 1 as [|k keys Hk Hnd IH]; intros fm r; cbn [foldl].
  - case_decide; [by set_solver | done].
  - rewrite IH, checkEntry_last.
    rewrite (proj1 (checkEntry_thresholds now fm k)).
    rewrite (proj2 (checkEntry_thresholds now fm k)).
    rewrite checkEntry_status.
    destruct (decide (r = k)) as [->|Hne].
    + rewrite decide_False by exact Hk.
      rewrite decide_True by (apply elem_of_cons; by left). done.
    + destruct (decide (r ∈ keys)) as [Hin|Hin].
      * rewrite decide_True by (apply elem_of_cons; by right). done.
      * rewrite decide_False; [done|].
        rewrite elem_of_cons. by intros [?|?].
Qed.

Lemma checkHeartbeats_status now fm r :
  serverStatus (checkHeartbeats now fm) !! r =
    checkOne now (default 0 (lastHeartbeat fm !! r))
      (timeoutThreshold fm) (confirmationThreshold fm)
      <$> serverStatus fm !! r.
Proof.
  unfold checkHeartbeats.
  rewrite check_loop_status by apply NoDup_fst_map_to_list.
  case_decide as Hin; [done|].
  destruct (serverStatus fm !! r) as [st|] eqn:Hr; [|done].
  exfalso. apply Hin.
  apply list_elem_of_fmap. exists (r, st). split; [done|].
  by apply elem_of_map_to_list.
Qed.

Lemma checkOne_advance now last timeout confirm st :
  advance st (checkOne now last timeout confirm st).
Proof. destruct st; cbn; repeat case_decide; constructor. Qed.

Lemma processHeartbeat_status k now fm r :
  serverStatus (processHeartbeat k now fm) !! r =
    if decide (r = k)
    then Some (match status_at (serverStatus fm) k with
               | SUSPECT | RECOVERING => ACTIVE
               | s => s
               end)
    else serverStatus fm !! r.
Proof.
  unfold processHeartbeat.
  cbn [set_heartbeat set_status serverStatus].
  assert (status_at (touch_status k (serverStatus fm)) k
          = status_at (serverStatus fm) k) as ->.
  { unfold status_at, touch_status. by rewrite lookup_insert_eq. }
  destruct (status_at (serverStatus fm) k) eqn:Hd;
    cbn [set_status serverStatus]; unfold touch_status; rewrite ?Hd;
    (case_decide as Hrk;
     [subst r; rewrite ?lookup_insert_eq; cbn [set_heartbeat serverStatus];
      by rewrite ?Hd
     | by rewrite !lookup_insert_ne by done]).
Qed.

Lemma notifyServerFailure_status k fm r :
  serverStatus (notifyServerFailure k fm) !! r =
    if decide (r = k) then Some CONFIRMED_DOWN else serverStatus fm !! r.
Proof.
  unfold notifyServerFailure.
  destruct (isClient _); rewrite ?initiateRecovery_serverStatus;
    cbn [set_status serverStatus];
    (case_decide as Hrk; [subst r; by rewrite lookup_insert_eq
                         | by rewrite lookup_insert_ne]).
Qed.

(** C8, as stated, fails: a failure notification takes an [ACTIVE] server
    straight to [CONFIRMED_DOWN], skipping [SUSPECT]. *)
Lemma failure_notification_skips_suspect :
  serverStatus oneServer !! 1 = Some ACTIVE /\
  serverStatus (step (Failure 1) oneServer) !! 1 = Some CONFIRMED_DOWN /\
  ~ forward ACTIVE CONFIRMED_DOWN.
Proof.
  split; [by vm_compute|]. split; [by vm_compute|].
  intros [H|H]; inversion H.
Qed.

(** C8, amended: a heartbeat check leaves a server's status as it is or
    moves it one stage forward along [ACTIVE], [SUSPECT],
    [CONFIRMED_DOWN]; a heartbeat arrival leaves it as it is or returns
    it to [ACTIVE] from [SUSPECT] or [RECOVERING]; a failure notification
    sets the notified server to [CONFIRMED_DOWN] whatever its status was
    and leaves every other server as it is. *)
Theorem status_transitions_forward fm e r st st' :
  serverStatus fm !! r = Some st ->
  serverStatus (step e fm) !! r = Some st' ->
  match e with
  | Check _ => advance st st'
  | Heartbeat _ _ => revive st st'
  | Failure k => st' = if decide (r = k) then CONFIRMED_DOWN else st
  end.
Proof.
  intros Hst Hst'. destruct e as [now|k now|k]; cbn [step] in Hst'.
  - rewrite checkHeartbeats_status, Hst in Hst'. cbn in Hst'.
    injection Hst' as <-. apply checkOne_advance.
  - rewrite processHeartbeat_status in Hst'.
    case_decide as Hrk.
    + subst k. unfold status_at in Hst'. rewrite Hst in Hst'. cbn in Hst'.
      injection Hst' as <-. destruct st; constructor.
    + rewrite Hst in Hst'. injection Hst' as <-. constructor.
  - rewrite notifyServerFailure_status in Hst'.
    case_decide; [by injection Hst' as <-|].
    rewrite Hst in Hst'. by injection Hst' as <-.
Qed.

(** The theorem at a check three seconds after the last heartbeat. *)
Lemma status_transitions_forward_witness : advance ACTIVE SUSPECT.
Proof.
  apply (status_transitions_forward oneServer (Check (ms 3000)) 1
           ACTIVE SUSPECT); vm_compute; reflexivity.
Defined.

(** C10: once a server is [CONFIRMED_DOWN], no sequence of heartbeat
    arrivals and heartbeat checks changes its status again. *)
Theorem confirmed_down_absorbing es fm r :
  Forall (fun e => heartbeatDriven e = true) es ->
  serverStatus fm !! r = Some CONFIRMED_DOWN ->
  serverStatus (run es fm) !! r = Some CONFIRMED_DOWN.
Proof.
  unfold run. intros Hes. revert fm.
  induction Hes as [|e es He _ IH]; intros fm Hdown; cbn [foldl]; [done|].
  apply IH. destruct e as [now|k now|k]; cbn [step]; [| |done].
  - by rewrite checkHeartbeats_status, Hdown.
  - rewrite processHeartbeat_status. case_decide as Hrk; [|done].
    subst k. unfold status_at. by rewrite Hdown.
Qed.

(** The theorem at a server marked failed, then heard from and checked. *)
Lemma confirmed_down_absorbing_witness :
  serverStatus
    (run [Heartbeat 1 (ms 100); Check (ms 9000); Heartbeat 1 (ms 9100)]
       (step (Failure 1) oneServer)) !! 1 = Some CONFIRMED_DOWN.
Proof.
  apply confirmed_down_absorbing.
  - repeat constructor.
  - vm_compute; reflexivity.
Defined.

End FaultFacts.

(* ===================================================================== *)
(** * Facts about the affix index *)
(* ===================================================================== *)

Section ValueTrieFacts.

Import Trie.

Lemma insertValueAt_marked path objectId stored : forall node,
  vMarked path objectId stored node ->
  insertValueAt path objectId stored node = node.
Proof.
  induction path as [|c rest IH]; intros [children isEnd ids full]; cbn.
  - intros (-> & Hin & ->). f_equal.
    apply subseteq_union_1_L. by apply singleton_subseteq_l.
  - intros (child & Hchild & Hmarked). rewrite Hchild. cbn.
    rewrite IH by done. f_equal. by apply insert_id.
Qed.

Lemma insertValueAt_marks path objectId stored : forall node,
  vMarked path objectId stored (insertValueAt path objectId stored node).
Proof.
  induction path as [|c rest IH]; intros node; cbn.
  - repeat split. apply elem_of_union_l. by apply elem_of_singleton.
  - eexists. split; [apply lookup_insert_eq|apply IH].
Qed.

Lemma insertValueAt_keeps_marked path objectId stored : forall other node,
  vMarked path objectId stored node ->
  vMarked path objectId stored (insertValueAt other objectId stored node).
Proof.
  induction path as [|c rest IH]; intros [|d other] node; cbn.
  - intros (_ & Hin & _). repeat split. by apply elem_of_union_r.
  - done.
  - done.
  - intros (child & Hchild & Hmarked).
    destruct (decide (c = d)) as [<-|Hne].
    + eexists. split; [apply lookup_insert_eq|].
      rewrite Hchild. cbn. by apply IH.
    + exists child. split; [|done]. by rewrite lookup_insert_ne.
Qed.

Lemma insertValuesAt_keeps_marked paths objectId stored path : forall node,
  vMarked path objectId stored node ->
  vMarked path objectId stored (insertValuesAt paths objectId stored node).
Proof.
  unfold insertValuesAt.
  induction paths as [|q paths IH]; intros node Hmarked; cbn; [done|].
  by apply IH, insertValueAt_keeps_marked.
Qed.

Lemma insertValuesAt_marks paths objectId stored path : forall node,
  path ∈ paths ->
  vMarked path objectId stored (insertValuesAt paths objectId stored node).
Proof.
  induction paths as [|q paths IH]; intros node Hin.
  - by apply elem_of_nil in Hin.
  - apply elem_of_cons in Hin as [->|Hin].
    + apply (insertValuesAt_keeps_marked paths), insertValueAt_marks.
    + by apply IH.
Qed.

Lemma insertValuesAt_marked paths objectId stored : forall node,
  (forall path, path ∈ paths -> vMarked path objectId stored node) ->
  insertValuesAt paths objectId stored node = node.
Proof.
  unfold insertValuesAt.
  induction paths as [|q paths IH]; intros node Hall; cbn; [done|].
  rewrite insertValueAt_marked by (apply Hall; by left).
  apply IH. intros path Hin. apply Hall. by right.
Qed.

Lemma insertValuesAt_idempotent paths objectId stored node :
  insertValuesAt paths objectId stored
    (insertValuesAt paths objectId stored node)
  = insertValuesAt paths objectId stored node.
Proof.
  apply insertValuesAt_marked. intros path Hin.
  by apply insertValuesAt_marks.
Qed.

(** Both insertions of the client are insertions along a list of paths
    that store the value itself. *)
Lemma insertValue_paths value objectId t :
  insertValue value objectId "" t
  = {| vRoot := insertValuesAt [value] objectId value (vRoot t);
       vSuffixMode := vSuffixMode t |}.
Proof. reflexivity. Qed.

Lemma insertValueWithSuffixes_paths value objectId t :
  insertValueWithSuffixes value objectId t
  = {| vRoot := insertValuesAt (Cpp.suffixes value) objectId value (vRoot t);
       vSuffixMode := vSuffixMode t |}.
Proof.
  unfold insertValueWithSuffixes, insertValuesAt.
  destruct value as [|c rest]; [by destruct t|].
  generalize (Cpp.suffixes (String c rest)). intros paths. revert t.
  induction paths as [|q paths IH]; intros t; cbn [foldl]; [by destruct t|].
  rewrite IH. reflexivity.
Qed.

Lemma insertValueWithSuffixMode_paths value objectId t :
  insertValueWithSuffixMode value objectId t
  = {| vRoot :=
         insertValuesAt
           (value :: if vSuffixMode t then Cpp.suffixes value else [])
           objectId value (vRoot t);
       vSuffixMode := vSuffixMode t |}.
Proof.
  unfold insertValueWithSuffixMode. rewrite insertValue_paths.
  cbn [vSuffixMode vRoot].
  destruct (vSuffixMode t) eqn:Hmode; [|reflexivity].
  by rewrite insertValueWithSuffixes_paths.
Qed.

Lemma insertValue_idempotent value objectId t :
  insertValue value objectId "" (insertValue value objectId "" t)
  = insertValue value objectId "" t.
Proof.
  rewrite !insertValue_paths. cbn [vRoot vSuffixMode].
  by rewrite insertValuesAt_idempotent.
Qed.

Lemma insertValueWithSuffixMode_idempotent value objectId t :
  insertValueWithSuffixMode value objectId
    (insertValueWithSuffixMode value objectId t)
  = insertValueWithSuffixMode value objectId t.
Proof.
  rewrite !insertValueWithSuffixMode_paths. cbn [vRoot vSuffixMode].
  by rewrite insertValuesAt_idempotent.
Qed.

End ValueTrieFacts.

Section KeyTrieFacts.

Import Trie.

Lemma insertKeyAt_marked path stored mode : forall node,
  kMarked path stored node -> insertKeyAt path stored mode node = node.
Proof.
  induction path as [|c rest IH]; intros [children isEnd vt full]; cbn.
  - by intros (-> & [owned ->] & ->).
  - intros (child & Hchild & Hmarked). rewrite Hchild. cbn.
    rewrite IH by done. f_equal. by apply insert_id.
Qed.

Lemma insertKeyAt_marks path stored mode : forall node,
  kMarked path stored (insertKeyAt path stored mode node).
Proof.
  induction path as [|c rest IH]; intros node; cbn.
  - repeat split. by destruct (valueTrie node).
  - eexists. split; [apply lookup_insert_eq|apply IH].
Qed.

Lemma insertKeyAt_keeps_marked path stored mode : forall other node,
  kMarked path stored node ->
  kMarked path stored (insertKeyAt other stored mode node).
Proof.
  induction path as [|c rest IH]; intros [|d other] node; cbn.
  - intros (_ & Hvt & _). repeat split. by destruct (valueTrie node).
  - done.
  - done.
  - intros (child & Hchild & Hmarked).
    destruct (decide (c = d)) as [<-|Hne].
    + eexists. split; [apply lookup_insert_eq|].
      rewrite Hchild. cbn. by apply IH.
    + exists child. split; [|done]. by rewrite lookup_insert_ne.
Qed.

Lemma updateValueTrieAt_keeps_marked path stored update : forall key node,
  kMarked path stored node ->
  kMarked path stored (updateValueTrieAt key update node).
Proof.
  induction path as [|c rest IH]; intros [|d key] node; cbn.
  - intros (Hend & [owned Hvt] & Hfull). rewrite Hvt. by repeat split.
  - by destruct (kChildren node !! d).
  - done.
  - intros (child & Hchild & Hmarked).
    destruct (kChildren node !! d) as [below|] eqn:Hd; cbn;
      [|by exists child].
    destruct (decide (c = d)) as [<-|Hne].
    + eexists. split; [apply lookup_insert_eq|].
      rewrite Hchild in Hd. injection Hd as <-. by apply IH.
    + exists child. split; [|done]. by rewrite lookup_insert_ne.
Qed.

Lemma updateValueTrieAt_compose key f g : forall node,
  updateValueTrieAt key f (updateValueTrieAt key g node)
  = updateValueTrieAt key (fun vt => f (g vt)) node.
Proof.
  induction key as [|c rest IH]; intros [children isEnd vt full]; cbn.
  - f_equal. by destruct vt.
  - destruct (children !! c) as [child|] eqn:Hc; cbn.
    + rewrite lookup_insert_eq, IH. f_equal. apply insert_insert_eq.
    + by rewrite Hc.
Qed.

Lemma updateValueTrieAt_ext key f g :
  (forall vt, f vt = g vt) ->
  forall node, updateValueTrieAt key f node = updateValueTrieAt key g node.
Proof.
  intros Hfg. induction key as [|c rest IH]; intros node; cbn.
  - f_equal. destruct (valueTrie node); cbn; by rewrite ?Hfg.
  - destruct (kChildren node !! c); [|done]. by rewrite IH.
Qed.

Lemma insertKeysAt_keeps_marked paths stored mode path : forall node,
  kMarked path stored node ->
  kMarked path stored (insertKeysAt paths stored mode node).
Proof.
  unfold insertKeysAt.
  induction paths as [|q paths IH]; intros node Hmarked; cbn; [done|].
  by apply IH, insertKeyAt_keeps_marked.
Qed.

Lemma insertKeysAt_marks paths stored mode path : forall node,
  path ∈ paths ->
  kMarked path stored (insertKeysAt paths stored mode node).
Proof.
  induction paths as [|q paths IH]; intros node Hin.
  - by apply elem_of_nil in Hin.
  - apply elem_of_cons in Hin as [->|Hin].
    + apply (insertKeysAt_keeps_marked paths), insertKeyAt_marks.
    + by apply IH.
Qed.

Lemma insertKeysAt_marked paths stored mode : forall node,
  (forall path, path ∈ paths -> kMarked path stored node) ->
  insertKeysAt paths stored mode node = node.
Proof.
  unfold insertKeysAt.
  induction paths as [|q paths IH]; intros node Hall; cbn; [done|].
  rewrite insertKeyAt_marked by (apply Hall; by left).
  apply IH. intros path Hin. apply Hall. by right.
Qed.

(** Indexing a record a second time changes nothing: the key paths are
    already terminals, and the update of the value trie is idempotent. *)
Lemma index_twice paths key mode update node :
  (forall vt, update (update vt) = update vt) ->
  let once :=
    updateValueTrieAt key update (insertKeysAt paths key mode node) in
  updateValueTrieAt key update (insertKeysAt paths key mode once) = once.
Proof.
  intros Hidem once.
  rewrite (insertKeysAt_marked paths key mode once).
  - unfold once. rewrite updateValueTrieAt_compose.
    by apply updateValueTrieAt_ext.
  - intros path Hin. unfold once.
    by apply updateValueTrieAt_keeps_marked, insertKeysAt_marks.
Qed.

Lemma insertKeyOnly_paths key t :
  insertKeyOnly key "" t
  = {| kRoot := insertKeysAt [key] key (kSuffixMode t) (kRoot t);
       kSuffixMode := kSuffixMode t |}.
Proof. reflexivity. Qed.

Lemma insertKeyWithSuffixes_paths key t :
  insertKeyWithSuffixes key t
  = {| kRoot :=
         insertKeysAt (Cpp.suffixes key) key (kSuffixMode t) (kRoot t);
       kSuffixMode := kSuffixMode t |}.
Proof.
  unfold insertKeyWithSuffixes, insertKeysAt.
  destruct key as [|c rest]; [by destruct t|].
  generalize (Cpp.suffixes (String c rest)). intros paths. revert t.
  induction paths as [|q paths IH]; intros t; cbn [foldl]; [by destruct t|].
  rewrite IH. reflexivity.
Qed.

Lemma insertKeyWithSuffixMode_paths key t :
  insertKeyWithSuffixMode key t
  = {| kRoot :=
         insertKeysAt
           (key :: if kSuffixMode t then Cpp.suffixes key else [])
           key (kSuffixMode t) (kRoot t);
       kSuffixMode := kSuffixMode t |}.
Proof.
  unfold insertKeyWithSuffixMode.
  assert (insertKeyOnly key key t = insertKeyOnly key "" t) as ->.
  { unfold insertKeyOnly. by destruct key. }
  rewrite insertKeyOnly_paths. cbn [kSuffixMode kRoot].
  destruct (kSuffixMode t) eqn:Hmode; [|reflexivity].
  by rewrite insertKeyWithSuffixes_paths.
Qed.

Lemma indexRecord_idempotent suffixMode key value objectId t :
  indexRecord suffixMode key value objectId
    (indexRecord suffixMode key value objectId t)
  = indexRecord suffixMode key value objectId t.
Proof.
  unfold indexRecord, updateValueTrie. destruct suffixMode.
  - rewrite !insertKeyWithSuffixMode_paths. cbn [kRoot kSuffixMode].
    f_equal. apply index_twice.
    apply insertValueWithSuffixMode_idempotent.
  - rewrite !insertKeyOnly_paths. cbn [kRoot kSuffixMode].
    f_equal. apply index_twice. apply insertValue_idempotent.
Qed.

(** C6: after [create_md_index(key, value, objectId)] a second call with
    the same arguments leaves the client as it is, so every [md_search]
    returns the same vector as after the first call. *)
Theorem create_md_index_twice key value objectId p queryStr :
  md_search queryStr
    (client (create_md_index key value objectId
               (create_md_index key value objectId p)))
  = md_search queryStr (client (create_md_index key value objectId p)).
Proof.
  unfold create_md_index. cbn [client keyTrie useSuffixTreeMode].
  by rewrite indexRecord_idempotent.
Qed.

(** C1 on the code: with suffix-tree mode on and the single record
    [("k", "ab", 1)], the exact query ["k=b"] returns object 1, because
    the value trie lists the id at the node of every suffix of the value;
    the brute-force scan, which tests ["ab" = "b"], returns nothing. *)
Theorem exact_value_query_matches_suffix :
  md_search "k=b" (client (create_md_index "k" "ab" 1 (newProgram true)))
  = [1] /\
  BruteForce.scan [("k", "ab", 1)] "k=b" = [].
Proof. split; by vm_compute. Qed.

(** The key layer has a second defect of the kind: a suffix terminal keeps
    only the full key of the last insertion through it, so after the keys
    ["X"] and ["StageX"] the suffix query ["*geX"] also reaches the value
    trie of ["X"]. *)
Lemma suffix_key_query_reads_last_full_key :
  md_search "*geX=*"
    (client (create_md_index "StageX" "w" 2
               (create_md_index "X" "v" 1 (newProgram true))))
  = [1; 2] /\
  BruteForce.scan [("X", "v", 1); ("StageX", "w", 2)] "*geX=*" = [2].
Proof. split; by vm_compute. Qed.

End KeyTrieFacts.

(* ===================================================================== *)
(** * Facts about the servers *)
(* ===================================================================== *)

Section DemoServerFacts.

Import DemoServer.

Lemma new_consistent id : consistent (new id).
Proof.
  split.
  - intros key suffix Hin. by apply elem_of_nil in Hin.
  - intros objectId metadata entry Hlookup. cbn in Hlookup.
    by rewrite lookup_empty in Hlookup.
Qed.

Lemma addIndexedKey_consistent key value objectId s :
  consistent s -> consistent (addIndexedKey key value objectId s).
Proof.
  intros [Hsuffixes Hkeys]. split; cbn [addIndexedKey indexedKeys
    indexedSuffixes objectMetadata].
  - intros k suffix Hk Hsuffix. apply elem_of_app.
    apply elem_of_app in Hk as [Hk|Hk].
    + left. by eapply Hsuffixes.
    + right. apply list_elem_of_singleton in Hk. by subst.
  - intros o metadata entry Hlookup Hentry. apply elem_of_app.
    unfold Trie.track_metadata in Hlookup.
    destruct (decide (o = objectId)) as [->|Hne].
    + rewrite lookup_insert_eq in Hlookup. injection Hlookup as <-.
      apply elem_of_app in Hentry as [Hentry|Hentry].
      * left. destruct (objectMetadata s !! objectId) as [old|] eqn:Hold.
        -- by eapply Hkeys.
        -- by apply elem_of_nil in Hentry.
      * right. apply list_elem_of_singleton in Hentry. subst entry.
        by apply list_elem_of_singleton.
    + rewrite lookup_insert_ne in Hlookup by done. left. by eapply Hkeys.
Qed.

Lemma afterInserts_consistent id records :
  consistent (afterInserts id records).
Proof.
  unfold afterInserts. generalize (new_consistent id).
  generalize (new id). induction records as [|r records IH]; intros s Hs.
  - done.
  - cbn [foldl]. by apply IH, addIndexedKey_consistent.
Qed.

Lemma existsb_false_elem {A} (f : A -> bool) (l : list A) x :
  existsb f l = false -> x ∈ l -> f x = false.
Proof.
  intros Hnone Hin. apply list_elem_of_In in Hin.
  destruct (f x) eqn:Hfx; [|done].
  assert (existsb f l = true) as Hsome
    by (apply existsb_exists; by exists x).
  congruence.
Qed.

(** Away from the two-star pattern, a declined query matches no indexed
    key. *)
Lemma declined_key_matches_nothing query s key :
  consistent s ->
  Cpp.keyPortion query <> "**" ->
  canHandleQuery query s = false ->
  key ∈ indexedKeys s ->
  patternMatch (patternOf (Cpp.keyPortion query)) key = false.
Proof.
  intros [Hsuffixes _] Hstars. unfold canHandleQuery.
  generalize dependent (Cpp.keyPortion query). intros part Hstars.
  unfold Query.shapeOf, patternOf, patternMatch.
  cbn [isWildcard hasInfix hasPrefix hasSuffixStar token].
  destruct (String.eqb part "*") eqn:Hwild; [done|].
  apply String.eqb_neq in Hwild.
  destruct (Ascii.eqb (Cpp.front part) Cpp.star) eqn:Hfront;
    destruct (Ascii.eqb (Cpp.back part) Cpp.star) eqn:Hback;
    cbn [andb negb].
  - (* a star at both ends *)
    pose proof (front_star_nonempty part Hfront) as Hlen.
    destruct (2 <? String.length part)%nat eqn:Hlong.
    + apply Nat.ltb_lt in Hlong.
      assert ((1 <? String.length part)%nat = true) as ->
        by (apply Nat.ltb_lt; lia).
      cbn [andb Query.tokenOf]. intros Hnone Hkey.
      destruct (Cpp.contains key _) eqn:Hcontains; [|done].
      apply contains_suffixes in Hcontains
        as (suffix & Hsuffix & Hstarts);
        [|apply substring_nonempty; lia].
      rewrite (existsb_false_elem _ _ suffix Hnone) in Hstarts; [done|].
      by eapply Hsuffixes.
    + apply Nat.ltb_ge in Hlong. exfalso.
      destruct (decide (String.length part = 1%nat)) as [Hone|Hnot].
      * by apply Hwild, front_star_one.
      * apply Hstars, two_stars; [lia|done..].
  - (* a leading star only *)
    pose proof (front_star_nonempty part Hfront) as Hlen.
    assert (2 <= String.length part)%nat as Htwo.
    { destruct (decide (String.length part = 1%nat)) as [Hone|Hnot];
        [|lia].
      exfalso. by apply Hwild, front_star_one. }
    assert ((1 <? String.length part)%nat = true) as ->
      by (apply Nat.ltb_lt; lia).
    cbn [andb Query.tokenOf]. unfold hasSuffix. intros Hnone Hkey.
    destruct (Cpp.ends_with key _) eqn:Hends; [|done].
    apply ends_with_suffixes in Hends;
      [|apply substring_nonempty; lia].
    pose proof (existsb_false_elem _ _ _ Hnone
                  (Hsuffixes _ _ Hkey Hends)) as Hself.
    by rewrite String.eqb_refl in Hself.
  - (* a trailing star only *)
    pose proof (back_star_nonempty part Hback) as Hlen.
    assert (2 <= String.length part)%nat as Htwo.
    { destruct (decide (String.length part = 1%nat)) as [Hone|Hnot];
        [|lia].
      exfalso. by apply Hwild, back_star_one. }
    assert ((1 <? String.length part)%nat = true) as ->
      by (apply Nat.ltb_lt; lia).
    cbn [andb Query.tokenOf]. intros Hnone Hkey.
    by apply (existsb_false_elem _ _ key Hnone).
  - (* no star at either end *)
    unfold hasKey. intros Hnone Hkey.
    rewrite String.eqb_sym. by apply (existsb_false_elem _ _ key Hnone).
Qed.

Lemma executeQuery_nothing query s :
  (forall objectId metadata,
     objectMetadata s !! objectId = Some metadata ->
     objectMatches (patternOf (Cpp.keyPortion query))
       (patternOf (Cpp.valuePortion query)) metadata = false) ->
  executeQuery query s = [].
Proof.
  intros Hnone. unfold executeQuery.
  assert (map_fold
            (fun objectId metadata (resultSet : gset Z) =>
               if objectMatches (patternOf (Cpp.keyPortion query))
                    (patternOf (Cpp.valuePortion query)) metadata
               then {[objectId]} ∪ resultSet
               else resultSet)
            ∅ (objectMetadata s) = ∅) as ->.
  { revert Hnone. generalize (objectMetadata s). intros m.
    induction m as [|objectId metadata m Hfresh Hfold IH]
      using map_first_key_ind; intros Hnone.
    - by rewrite map_fold_empty.
    - rewrite map_fold_insert_first_key by done.
      rewrite (Hnone objectId metadata) by apply lookup_insert_eq.
      apply IH. intros o md Ho. apply (Hnone o).
      rewrite lookup_insert_ne; [done|]. intros ->. congruence. }
  unfold Trie.sortedVector. by rewrite elements_empty.
Qed.

(** Outside of the two-star key pattern the two methods agree: on every
    state reached by [addIndexedKey] calls, a query that
    [canHandleQuery] declines gets the empty vector from
    [executeQuery]. *)
Lemma declined_query_is_empty id records query :
  Cpp.keyPortion query <> "**" ->
  canHandleQuery query (afterInserts id records) = false ->
  executeQuery query (afterInserts id records) = [].
Proof.
  intros Hstars Hdeclined.
  pose proof (afterInserts_consistent id records) as Hconsistent.
  apply executeQuery_nothing. intros objectId metadata Hlookup.
  unfold objectMatches.
  destruct (existsb _ metadata) eqn:Hsome; [|done].
  apply existsb_exists in Hsome as (entry & Hentry & Hmatch).
  apply list_elem_of_In in Hentry.
  rewrite (declined_key_matches_nothing query _ entry.1
             Hconsistent Hstars Hdeclined) in Hmatch; [done|].
  by eapply (proj2 Hconsistent).
Qed.

(** C9 on the code: a server that holds the single key ["*a"] declines
    the query ["**"] ([canHandleQuery] reads it as the suffix ["*"], and
    no key ends in a star) and yet answers it ([executeQuery] reads it as
    the prefix ["*"], and the key starts with a star). *)
Theorem double_star_declined_but_answered :
  canHandleQuery "**" (afterInserts 0 [("*a", "v", 1)]) = false /\
  executeQuery "**" (afterInserts 0 [("*a", "v", 1)]) = [1].
Proof. split; by vm_compute. Qed.

End DemoServerFacts.

Section TrieServerFacts.

Import TrieServer.

(** Replaying a record while the mutex is held never returns. *)
Lemma replayRecords_blocks count objectId input s :
  indexMutex s = true ->
  replayRecords (S count) objectId (input, s) = None.
Proof.
  intros Hheld. cbn [replayRecords fst snd].
  destruct (Stream.getline input) as [key in1].
  destruct (Stream.getline in1) as [value in2].
  unfold addIndexedKey, lock. by rewrite Hheld.
Qed.

(** C2 on the code: a server with the single record [("k", "v", 1)]
    answers the query ["k=v"] and checkpoints successfully; on a fresh
    server with the same id and mode [recoverIndex] never returns, since
    it calls [addIndexedKey] for the first record while it holds
    [indexMutex], which [addIndexedKey] locks again. *)
Theorem recoverIndex_waits_for_its_own_mutex :
  exists original files afterCheckpoint,
    addIndexedKey "k" "v" 1 (new 0 "data" false) = Some original /\
    executeQuery "k=v" original = [1] /\
    checkpointIndex ∅ original = Some (true, files, afterCheckpoint) /\
    recoverIndex files (new 0 "data" false) = None.
Proof.
  do 3 eexists.
  split; [vm_compute; reflexivity|].
  split; [by vm_compute|].
  split; [vm_compute; reflexivity|].
  by vm_compute.
Qed.

End TrieServerFacts.

(* ===================================================================== *)
(** * The ring as the constructor leaves it *)
(* ===================================================================== *)

Section FilterFacts.

Context {A : Type} (P : A -> Prop) `{forall x, Decision (P x)}.

Lemma filter_all (l : list A) : Forall P l -> filter P l = l.
Proof.
  induction 1 as [|x l Hx _ IH]; [done|].
  by rewrite filter_cons_True, IH.
Qed.

Lemma filter_none (l : list A) :
  Forall (fun x => ~ P x) l -> filter P l = [].
Proof.
  induction 1 as [|x l Hx _ IH]; [done|].
  by rewrite filter_cons_False.
Qed.

End FilterFacts.

Lemma default_Some {A : Type} (d x : A) : default d (Some x) = x.
Proof. reflexivity. Qed.

Lemma default_None {A : Type} (d : A) : default d None = d.
Proof. reflexivity. Qed.

Lemma filter_ext_in {A : Type} (P Q : A -> Prop)
    `{forall x, Decision (P x)} `{forall x, Decision (Q x)} (l : list A) :
  (forall x, x ∈ l -> P x <-> Q x) -> filter P l = filter Q l.
Proof.
  induction l as [|x l IH]; [done|]. intros Hext.
  rewrite !filter_cons, IH.
  - pose proof (Hext x (list_elem_of_here _ _)).
    repeat case_decide; tauto.
  - intros y Hy. apply Hext. by apply list_elem_of_further.
Qed.

Section RingInvariant.

Import Dart.

#[local] Instance position_le_total : Total position_le.
Proof. intros a b. unfold position_le. lia. Qed.

#[local] Instance position_le_trans : Transitive position_le.
Proof. intros a b c. unfold position_le. lia. Qed.

Lemma ringEntries_servers n :
  Forall (fun e : RingEntry => validServer n e.2) (ringEntries n).
Proof.
  apply Forall_forall. intros e He.
  apply list_elem_of_In, in_flat_map in He as (s & Hs & He).
  apply in_map_iff in He as (i & <- & _).
  apply list_elem_of_In, elem_of_seqZ in Hs. cbn. unfold validServer. lia.
Qed.

Lemma ring_servers c n :
  Forall (fun e : RingEntry => validServer n e.2)
         (ring (newConsistentHashOf c n)).
Proof.
  cbn [ring newConsistentHashOf]. unfold sortRing.
  rewrite merge_sort_Permutation. apply ringEntries_servers.
Qed.

Lemma ring_sorted c n :
  StronglySorted position_le (ring (newConsistentHashOf c n)).
Proof. apply StronglySorted_merge_sort; apply _. Qed.

(** The entries of one server among those of a list of distinct
    servers. *)
Lemma entries_of_server (s : Z) (l : list Z) :
  NoDup l ->
  length (filter (fun e : RingEntry => e.2 = s)
            (flat_map
               (fun server =>
                  map (fun i => (hash64 (ringKey server i) 0, server))
                      (seqZ 0 RING_SIZE)) l))
  = if decide (s ∈ l) then Z.to_nat RING_SIZE else O.
Proof.
  induction 1 as [|x l Hx Hnd IH]; [done|].
  cbn [flat_map]. rewrite filter_app, length_app, IH.
  destruct (decide (x = s)) as [->|Hne].
  - rewrite (decide_True (P := s ∈ s :: l)) by apply list_elem_of_here.
    rewrite decide_False by done.
    rewrite filter_all.
    + rewrite length_map, length_seqZ. lia.
    + apply Forall_forall. intros e He.
      apply list_elem_of_In, in_map_iff in He as (i & <- & _). done.
  - rewrite filter_none.
    + cbn [length]. case_decide as Hin; case_decide as Hin'; try done.
      * exfalso. apply Hin'. by apply list_elem_of_further.
      * exfalso. apply elem_of_cons in Hin' as [->|]; done.
    + apply Forall_forall. intros e He.
      apply list_elem_of_In, in_map_iff in He as (i & <- & _). done.
Qed.

(** X1: The constructor of [ConsistentHash] leaves a ring that is sorted by
    position and in which every server of [0, n) owns exactly
    [RING_SIZE] entries and nobody else owns any. *)
Theorem ring_after_construction (n s : Z) :
  Sorted position_le (ring (newConsistentHash n)) /\
  length (filter (fun e : RingEntry => e.2 = s) (ring (newConsistentHash n)))
  = (if decide (0 <= s < n) then Z.to_nat RING_SIZE else O).
Proof.
  split; [apply Sorted_merge_sort; apply _|].
  unfold newConsistentHash. cbn [ring newConsistentHashOf]. unfold sortRing.
  rewrite merge_sort_Permutation. unfold ringEntries.
  rewrite entries_of_server by apply NoDup_seqZ.
  case_decide as Hin; case_decide as Hs; try done.
  - apply elem_of_seqZ in Hin. lia.
  - exfalso. apply Hin, elem_of_seqZ. lia.
Qed.

(** [lower_bound] on a ring sorted by position. *)
Lemma lower_bound_below entries h (j : nat) (e : RingEntry) :
  (j < lower_bound entries h)%nat -> entries !! j = Some e -> e.1 < h.
Proof.
  revert j. induction entries as [|a entries IH]; cbn; [lia|].
  case_decide as Ha; [|lia].
  intros [|j] Hj; cbn; [by intros [= <-]|]. apply IH. lia.
Qed.

Lemma lower_bound_above entries h (j : nat) (e : RingEntry) :
  StronglySorted position_le entries ->
  (lower_bound entries h <= j)%nat -> entries !! j = Some e -> h <= e.1.
Proof.
  intros Hsorted. revert j.
  induction Hsorted as [|a entries Hsorted IH Hall]; cbn; [done|].
  case_decide as Ha.
  - intros [|j] Hj; [lia|]. cbn. apply IH. lia.
  - intros [|j] _; cbn; [intros [= <-]; lia|].
    intros He. apply list_elem_of_lookup_2 in He.
    rewrite Forall_forall in Hall. specialize (Hall e He).
    unfold position_le in Hall. lia.
Qed.

Lemma sorted_first_least entries (e0 e : RingEntry) :
  StronglySorted position_le entries ->
  entries !! O = Some e0 -> e ∈ entries -> e0.1 <= e.1.
Proof.
  intros Hsorted. destruct Hsorted as [|a entries Hsorted Hall]; [done|].
  cbn. intros [= <-] [->|He]%elem_of_cons; [lia|].
  rewrite Forall_forall in Hall. exact (Hall e He).
Qed.

Lemma sorted_lookup_le entries (i j : nat) (a b : RingEntry) :
  StronglySorted position_le entries ->
  (i <= j)%nat -> entries !! i = Some a -> entries !! j = Some b ->
  a.1 <= b.1.
Proof.
  intros Hsorted. revert i j.
  induction Hsorted as [|x entries Hsorted IH Hall]; [done|].
  intros [|i] [|j] Hij; cbn; try lia.
  - intros [= <-] [= <-]. lia.
  - intros [= <-] Hb. apply list_elem_of_lookup_2 in Hb.
    rewrite Forall_forall in Hall. exact (Hall b Hb).
  - apply IH. lia.
Qed.

(** X2: [getServer] returns the server of the first ring entry at or after
    the hash of the key, and wraps to the entry of least position when
    the hash is beyond every entry; the server is one of [0, n). *)
Theorem getServer_clockwise (n : Z) (key : string) :
  1 <= n ->
  exists e : RingEntry,
    e ∈ ring (newConsistentHash n) /\
    getServer (newConsistentHash n) key = e.2 /\
    validServer n e.2 /\
    ((hash64 key 0 <= e.1 /\
      forall e' : RingEntry, e' ∈ ring (newConsistentHash n) ->
        hash64 key 0 <= e'.1 -> e.1 <= e'.1)
     \/
     ((forall e' : RingEntry, e' ∈ ring (newConsistentHash n) ->
         e'.1 < hash64 key 0) /\
      forall e' : RingEntry, e' ∈ ring (newConsistentHash n) ->
        e.1 <= e'.1)).
Proof.
  intros Hn. unfold newConsistentHash.
  pose proof (ring_nonempty DART_CPP n Hn) as Hpos.
  pose proof (ring_sorted DART_CPP n) as Hsorted.
  pose proof (ring_servers DART_CPP n) as Hvalid.
  unfold getServer, serverAt, startIndex.
  generalize dependent (ring (newConsistentHashOf DART_CPP n)).
  intros entries Hpos Hsorted Hvalid.
  rewrite Forall_forall in Hvalid.
  destruct entries as [|x rest] eqn:Hentries; [cbn in Hpos; lia|].
  rewrite <- Hentries in *. clear x rest Hentries.
  set (h := hash64 key 0).
  pose proof (lower_bound_le entries h) as Hle.
  case_decide as Hend.
  - destruct (entries !! O) as [e0|] eqn:He0;
      [|apply lookup_ge_None in He0; lia].
    exists e0.
    split; [by eapply list_elem_of_lookup_2|].
    split; [done|].
    split; [by eapply Hvalid, list_elem_of_lookup_2|].
    right. split.
    + intros e' [j Hj]%list_elem_of_lookup.
      eapply lower_bound_below; [|exact Hj].
      apply lookup_lt_Some in Hj. lia.
    + intros e' He'. by eapply sorted_first_least.
  - destruct (entries !! lower_bound entries h) as [e|] eqn:He;
      [|apply lookup_ge_None in He; lia].
    exists e.
    split; [by eapply list_elem_of_lookup_2|].
    split; [done|].
    split; [by eapply Hvalid, list_elem_of_lookup_2|].
    left. split.
    + exact (lower_bound_above entries h _ e Hsorted (Nat.le_refl _) He).
    + intros e' [j Hj]%list_elem_of_lookup Hh.
      destruct (decide (lower_bound entries h <= j)%nat) as [Hge|Hlt].
      * exact (sorted_lookup_le entries _ j e e' Hsorted Hge He Hj).
      * assert (e'.1 < h); [|lia].
        eapply lower_bound_below; [|exact Hj]. lia.
Qed.

Lemma getServer_clockwise_witness :
  exists e : RingEntry,
    e ∈ ring (newConsistentHash 1) /\
    getServer (newConsistentHash 1) "k" = e.2 /\
    validServer 1 e.2 /\
    ((hash64 "k" 0 <= e.1 /\
      forall e' : RingEntry, e' ∈ ring (newConsistentHash 1) ->
        hash64 "k" 0 <= e'.1 -> e.1 <= e'.1)
     \/
     ((forall e' : RingEntry, e' ∈ ring (newConsistentHash 1) ->
         e'.1 < hash64 "k" 0) /\
      forall e' : RingEntry, e' ∈ ring (newConsistentHash 1) ->
        e.1 <= e'.1)).
Proof. apply (getServer_clockwise 1 "k"). lia. Defined.

Lemma serverAt_valid c n (i : nat) :
  1 <= n -> validServer n (serverAt (newConsistentHashOf c n) i).
Proof.
  intros Hn. unfold serverAt.
  destruct (ring (newConsistentHashOf c n) !! i) as [e|] eqn:He.
  - pose proof (ring_servers c n) as Hvalid. rewrite Forall_forall in Hvalid.
    by eapply Hvalid, list_elem_of_lookup_2.
  - unfold validServer. lia.
Qed.

Lemma getServer_valid c n key :
  1 <= n -> validServer n (getServer (newConsistentHashOf c n) key).
Proof.
  intros Hn. unfold getServer.
  destruct (ring (newConsistentHashOf c n)) eqn:Hring.
  - unfold validServer. lia.
  - by apply serverAt_valid.
Qed.

End RingInvariant.

(* ===================================================================== *)
(** * The router's two maps *)
(* ===================================================================== *)

Section Assignment.

Import Dart.

Variable ch : ConsistentHash.

Let serverOf (i : Z) : Z := getServer ch ("vnode_" +:+ Cpp.to_string i).

Lemma assign_first (l : list VirtualNode) : forall acc i,
  (foldl (assignStep ch) acc l).1 !! i
  = if decide (i ∈ id <$> l) then Some (serverOf i) else acc.1 !! i.
Proof.
  induction l as [|v l IH]; intros acc i; [done|].
  cbn [foldl]. rewrite IH. rewrite fmap_cons.
  cbn [assignStep fst].
  destruct (decide (i ∈ id <$> l)) as [Hin|Hnotin].
  - rewrite decide_True; [done|]. by apply list_elem_of_further.
  - destruct (decide (i = id v)) as [->|Hne].
    + rewrite lookup_insert_eq.
      rewrite decide_True; [done|]. apply list_elem_of_here.
    + rewrite lookup_insert_ne by done.
      rewrite decide_False; [done|].
      intros [?|?]%elem_of_cons; done.
Qed.

Lemma assign_second_independent (l : list VirtualNode) : forall a a' b,
  (foldl (assignStep ch) (a, b) l).2 = (foldl (assignStep ch) (a', b) l).2.
Proof.
  induction l as [|v l IH]; intros a a' b; [done|].
  cbn [foldl]. unfold assignStep at 2 4. cbn [fst snd]. apply IH.
Qed.

Lemma assign_second (l : list VirtualNode) : forall acc s i,
  i ∈ default [] ((foldl (assignStep ch) acc l).2 !! s)
  <-> i ∈ default [] (acc.2 !! s) \/ (i ∈ id <$> l /\ serverOf i = s).
Proof.
  induction l as [|v l IH]; intros acc s i.
  - cbn. rewrite elem_of_nil. tauto.
  - cbn [foldl]. rewrite IH, fmap_cons, elem_of_cons.
    cbn [assignStep snd]. fold (serverOf (id v)).
    destruct (decide (serverOf (id v) = s)) as [Hs|Hs].
    + rewrite Hs, lookup_insert_eq, default_Some.
      rewrite elem_of_app, list_elem_of_singleton.
      split.
      * intros [ [?| ->] | [? ?] ]; tauto.
      * intros [?| [ [->|?] ?] ]; tauto.
    + rewrite lookup_insert_ne by done.
      split; [tauto|]. intros [?| [ [->|?] ?] ]; tauto.
Qed.

Lemma assign_second_NoDup (l : list VirtualNode) : forall acc s,
  NoDup (id <$> l) ->
  NoDup (default [] (acc.2 !! s)) ->
  (forall i, i ∈ default [] (acc.2 !! s) -> i ∉ id <$> l) ->
  NoDup (default [] ((foldl (assignStep ch) acc l).2 !! s)).
Proof.
  induction l as [|v l IH]; intros acc s Hnd Hacc Hfresh; [done|].
  rewrite fmap_cons in Hnd, Hfresh. apply NoDup_cons in Hnd as [Hv Hnd].
  cbn [foldl]. apply IH; [done|..]; cbn [assignStep snd];
    fold (serverOf (id v)).
  - destruct (decide (serverOf (id v) = s)) as [Hs|Hs].
    + rewrite Hs, lookup_insert_eq, default_Some.
      apply NoDup_app. split; [done|]. split; [|apply NoDup_singleton].
      intros i Hi ->%list_elem_of_singleton.
      apply (Hfresh _ Hi), list_elem_of_here.
    + by rewrite lookup_insert_ne.
  - intros i. destruct (decide (serverOf (id v) = s)) as [Hs|Hs].
    + rewrite Hs, lookup_insert_eq, default_Some.
      intros [Hi| ->%list_elem_of_singleton]%elem_of_app; [|done].
      intros Hin. apply (Hfresh _ Hi). by apply list_elem_of_further.
    + rewrite lookup_insert_ne by done.
      intros Hi Hin. apply (Hfresh _ Hi). by apply list_elem_of_further.
Qed.

End Assignment.

Section RouterMaps.

Import Dart.

Lemma virtualNodeToServer_newRouter c n ratio :
  virtualNodeToServer (newRouterOf c n ratio)
  = (assignVirtualNodes (newConsistentHashOf c n) createVirtualNodes).1.
Proof. reflexivity. Qed.

Lemma serverToVirtualNodes_newRouter c n ratio :
  serverToVirtualNodes (newRouterOf c n ratio)
  = (assignVirtualNodes (newConsistentHashOf c n) createVirtualNodes).2.
Proof. reflexivity. Qed.

Lemma serverMap_newRouter c n ratio :
  serverMap (newRouterOf c n ratio) = newConsistentHashOf c n.
Proof. reflexivity. Qed.

Lemma routerServers_newRouter c n ratio :
  routerServers (newRouterOf c n ratio) = n.
Proof. reflexivity. Qed.

Lemma virtualNodes_newRouterOf c n ratio :
  virtualNodes (newRouterOf c n ratio) = createVirtualNodes.
Proof. reflexivity. Qed.

Lemma copy_newRouter c n ratio :
  copy (serverMap (newRouterOf c n ratio)) = c.
Proof. reflexivity. Qed.

(** [static_cast<int>] of a value below [INT_MAX] is below it. *)
Lemma truncate_below (x : R) :
  (x < IZR Cpp.INT_MAX)%R -> truncate x < Cpp.INT_MAX.
Proof.
  intros Hx. unfold truncate. cbv zeta.
  case_decide as Hfits; [|unfold Cpp.INT_MIN, Cpp.INT_MAX; lia].
  clear Hfits. destruct (Rle_dec 0 x) as [Hpos|Hneg].
  - destruct (base_Int_part x) as [Hle _].
    apply lt_IZR. lra.
  - destruct (base_Int_part (- x)) as [_ Hgt].
    assert (-1 < Int_part (- x)) by (apply lt_IZR; lra).
    unfold Cpp.INT_MAX. lia.
Qed.

Lemma replicationFactor_newRouter c n ratio :
  1 <= replicationFactor (newRouterOf c n ratio).
Proof.
  change (1 <= if decide (truncate (IZR (Cpp.int32 n) * ratio) < 1) then 1
               else truncate (IZR (Cpp.int32 n) * ratio)).
  case_decide; lia.
Qed.

(** The factor of the constructor stays below [INT_MAX] when the product
    of the server count and the ratio does. *)
Lemma replicationFactor_below c n ratio :
  (IZR (Cpp.int32 n) * ratio < IZR Cpp.INT_MAX)%R ->
  replicationFactor (newRouterOf c n ratio) < Cpp.INT_MAX.
Proof.
  intros Hproduct.
  change ((if decide (truncate (IZR (Cpp.int32 n) * ratio) < 1) then 1
           else truncate (IZR (Cpp.int32 n) * ratio)) < Cpp.INT_MAX).
  case_decide; [unfold Cpp.INT_MAX; lia|]. by apply truncate_below.
Qed.

(** With the default ratio of a tenth it always does. *)
Lemma replicationFactor_default c n :
  replicationFactor (newRouterOf c n (1 / 10)) < Cpp.INT_MAX.
Proof.
  apply replicationFactor_below.
  destruct (int32_range n) as [_ Hmax]. apply IZR_le in Hmax.
  unfold Cpp.INT_MAX in *. lra.
Qed.

Lemma lookup_newRouter c n ratio i :
  virtualNodeToServer (newRouterOf c n ratio) !! i
  = if decide (0 <= i < 256)
    then Some (getServer (newConsistentHashOf c n)
                 ("vnode_" +:+ Cpp.to_string i))
    else None.
Proof.
  rewrite virtualNodeToServer_newRouter. unfold assignVirtualNodes.
  rewrite assign_first, createVirtualNodes_ids. cbn [fst].
  rewrite lookup_empty.
  case_decide as Hin; case_decide as Hi; try done.
  - apply elem_of_seqZ in Hin. lia.
  - exfalso. apply Hin, elem_of_seqZ. lia.
Qed.

(** X3: The two maps that [initializeVirtualNodes] fills say the same: a
    virtual node is in the list of a server exactly when the server is
    the one it is mapped to, and no list repeats a node. *)
Theorem router_maps_agree (n : Z) (ratio : R) (s i : Z) :
  (i ∈ getVirtualNodesForServer (newRouter n ratio) s
   <-> virtualNodeToServer (newRouter n ratio) !! i = Some s) /\
  NoDup (getVirtualNodesForServer (newRouter n ratio) s).
Proof.
  unfold getVirtualNodesForServer, newRouter.
  rewrite lookup_newRouter, serverToVirtualNodes_newRouter.
  unfold assignVirtualNodes. split.
  - rewrite assign_second, createVirtualNodes_ids. cbn [snd].
    rewrite lookup_empty, default_None, elem_of_nil, elem_of_seqZ.
    case_decide as Hi.
    + split; [intros [[]|[_ <-]]; done|]. intros [= <-]. right. done.
    + split; [intros [[]|[? _]]; lia|done].
  - apply assign_second_NoDup.
    + rewrite createVirtualNodes_ids. apply NoDup_seqZ.
    + cbn [snd]. rewrite lookup_empty. apply NoDup_nil_2.
    + cbn [snd]. rewrite lookup_empty, default_None.
      intros j Hj. by apply elem_of_nil in Hj.
Qed.

Lemma virtual_node_server c (n : Z) (ratio : R) (i : Z) :
  1 <= n -> 0 <= i < 256 ->
  virtualNodeToServer (newRouterOf c n ratio) !! i
  = Some (getServerForVirtualNode (newRouterOf c n ratio) i) /\
  validServer n (getServerForVirtualNode (newRouterOf c n ratio) i).
Proof.
  intros Hn Hi. unfold getServerForVirtualNode.
  rewrite lookup_newRouter, decide_True by done.
  split; [done|]. by apply getServer_valid.
Qed.

(** X4: On a router built for at least one server, every virtual node is
    mapped, the map is what [getServerForVirtualNode] answers from (its
    hash fall-back is not used), and the server is one of [0, n). *)
Theorem every_virtual_node_has_server (n : Z) (ratio : R) (i : Z) :
  1 <= n -> 0 <= i < 256 ->
  virtualNodeToServer (newRouter n ratio) !! i
  = Some (getServerForVirtualNode (newRouter n ratio) i) /\
  validServer n (getServerForVirtualNode (newRouter n ratio) i).
Proof. apply (virtual_node_server DART_CPP). Qed.

Lemma every_virtual_node_has_server_witness :
  virtualNodeToServer (newRouter 4 (1 / 10)) !! 99
  = Some (getServerForVirtualNode (newRouter 4 (1 / 10)) 99) /\
  validServer 4 (getServerForVirtualNode (newRouter 4 (1 / 10)) 99).
Proof. apply every_virtual_node_has_server; lia. Defined.

Lemma primary_valid c n ratio key :
  1 <= n ->
  validServer n
    (getServerForVirtualNode (newRouterOf c n ratio)
       (getVirtualNodeId (newRouterOf c n ratio) key)).
Proof.
  intros Hn. apply virtual_node_server; [done|].
  apply first_match_of_pool; rewrite virtualNodes_newRouterOf.
  - exact createVirtualNodes_ids.
  - exact createVirtualNodes_fallback.
Qed.

End RouterMaps.

(* ===================================================================== *)
(** * Routing a key *)
(* ===================================================================== *)

Section KeyRouting.

Import Dart.

Lemma replicaLoop_elements ch target fuel :
  forall it uniqueServers servers result,
  replicaLoop ch target fuel it uniqueServers servers = Some result ->
  forall x, x ∈ result -> x ∈ servers \/ exists i : nat, x = serverAt ch i.
Proof.
  induction fuel as [|fuel IH]; intros it U servers result; cbn [replicaLoop];
    case_decide as Hcond; try done.
  - intros [= <-] x Hx. by left.
  - case_decide as Hin.
    + apply IH.
    + intros Hloop x Hx.
      destruct (IH _ _ _ _ Hloop x Hx) as [Hold|Hring]; [|by right].
      apply elem_of_app in Hold as [Hold|Hnew%list_elem_of_singleton];
        [by left|].
      right. eauto.
  - intros [= <-] x Hx. by left.
Qed.

Lemma getReplicaServers_valid c n key r servers :
  1 <= n ->
  getReplicaServers (newConsistentHashOf c n) key r = Some servers ->
  Forall (validServer n) servers.
Proof.
  intros Hn. unfold getReplicaServers, getReplicaServersFuel. cbv zeta.
  destruct (match copy (newConsistentHashOf c n) with
            | DART_CPP => _
            | SRC4 => true
            end); [|done].
  destruct (ring (newConsistentHashOf c n)) eqn:Hring;
    [by intros [= <-]|].
  case_decide; [by intros [= <-]|].
  intros Hloop. apply Forall_forall. intros x Hx.
  destruct (replicaLoop_elements _ _ _ _ _ _ _ Hloop x Hx)
    as [->%list_elem_of_singleton|[i ->]]; by apply serverAt_valid.
Qed.

(** A loop that asks for more servers than there are never ends. *)
Lemma replicaLoop_starved c n target fuel :
  1 <= n -> n < target ->
  forall it uniqueServers servers,
  (forall s, s ∈ uniqueServers -> validServer n s) ->
  replicaLoop (newConsistentHashOf c n) target fuel it uniqueServers servers
  = None.
Proof.
  intros Hn Htarget.
  induction fuel as [|fuel IH]; intros it U servers HU; cbn [replicaLoop];
    (rewrite decide_True; [|
      assert (U ⊆ list_to_set (seqZ 0 n)) as Hsub
        by (intros s Hs; apply elem_of_list_to_set, elem_of_seqZ;
            specialize (HU s Hs); unfold validServer in HU; lia);
      apply subseteq_size in Hsub;
      rewrite size_list_to_set in Hsub by apply NoDup_seqZ;
      rewrite length_seqZ in Hsub; lia]); [done|].
  case_decide as Hin; apply IH; [done|].
  intros s [->%elem_of_singleton|Hs]%elem_of_union; [|by apply HU].
  by apply serverAt_valid.
Qed.

(** At the factor [INT_MAX] the sum [replicationFactor + 1] wraps to
    [INT_MIN]: the [reserve] of [dart.cpp] throws, and the loop of
    [src4], whose bound has become [2 ^ 64 - 2 ^ 31], does not end. *)
Lemma getReplicaServers_at_INT_MAX c n key fuel :
  1 <= n <= Cpp.INT_MAX ->
  getReplicaServersFuel fuel (newConsistentHashOf c n) key Cpp.INT_MAX
  = None.
Proof.
  intros Hn.
  assert (copy (newConsistentHashOf c n) = c) as Hcopy by done.
  assert (numServers (newConsistentHashOf c n) = n) as Hnum by done.
  pose proof (ring_nonempty c n (proj1 Hn)) as Hpos.
  pose proof (fun i => serverAt_valid c n i (proj1 Hn)) as Hat.
  assert (n < 2 ^ 64 - 2 ^ 31) as Hfew by (unfold Cpp.INT_MAX in Hn; lia).
  pose proof (replicaLoop_starved c n _ fuel (proj1 Hn) Hfew) as Hloop.
  unfold getReplicaServersFuel. cbv zeta.
  generalize dependent (newConsistentHashOf c n).
  intros ch -> -> Hpos Hat Hloop.
  change (Cpp.int32 (Cpp.INT_MAX + 1)) with Cpp.INT_MIN.
  destruct c.
  - by change (reserveReturns (Cpp.to_size_t Cpp.INT_MIN)) with false.
  - destruct (ring ch); [cbn in Hpos; lia|].
    rewrite decide_False by (unfold Cpp.INT_MAX; lia).
    rewrite Z.min_l by (unfold Cpp.INT_MIN; lia).
    change (Cpp.to_size_t Cpp.INT_MIN) with (2 ^ 64 - 2 ^ 31).
    apply Hloop. intros s ->%elem_of_singleton. apply Hat.
Qed.

(** The replica loop of [getServersForKey]. *)
Lemma addReplicas_spec primary bound replicas : forall servers,
  NoDup replicas -> NoDup servers -> primary ∈ servers ->
  Z.of_nat (length servers) < bound ->
  NoDup (addReplicas primary bound replicas servers) /\
  (exists tail, addReplicas primary bound replicas servers
                = servers ++ tail) /\
  (forall x, x ∈ addReplicas primary bound replicas servers ->
     x ∈ servers \/ x ∈ replicas) /\
  Z.of_nat (length (addReplicas primary bound replicas servers))
  = Z.min bound
      (Z.of_nat (length servers)
       + Z.of_nat (length (filter (fun x => x ∉ servers) replicas))).
Proof.
  induction replicas as [|x rest IH]; intros servers Hrep Hnd Hprim Hlen.
  - cbn [addReplicas]. split; [done|].
    split; [exists []; by rewrite app_nil_r|].
    split; [by left|]. rewrite filter_nil. cbn [length]. lia.
  - apply NoDup_cons in Hrep as [Hx Hrest].
    cbn [addReplicas]. case_decide as Hnew.
    + destruct Hnew as [Hne Hnotin].
      assert (NoDup (servers ++ [x])) as Hnd'.
      { apply NoDup_app. split; [done|]. split; [|apply NoDup_singleton].
        intros y Hy ->%list_elem_of_singleton. done. }
      rewrite filter_cons_True by done.
      case_decide as Hfull.
      * split; [done|]. split; [by exists [x]|].
        split.
        { intros y [?| ->%list_elem_of_singleton]%elem_of_app;
            [by left|right; apply list_elem_of_here]. }
        rewrite length_app in *. cbn [length] in *. lia.
      * destruct (IH (servers ++ [x])) as (Hres & [tail Htail] & Hel & Hcount);
          [done|done|by apply elem_of_app; left|
           rewrite length_app in *; cbn [length] in *; lia|].
        split; [done|].
        split; [exists (x :: tail); by rewrite Htail, <- app_assoc|].
        split.
        { intros y Hy. destruct (Hel y Hy) as [Hold|Hnewer].
          - apply elem_of_app in Hold
              as [?| ->%list_elem_of_singleton];
              [by left|right; apply list_elem_of_here].
          - right. by apply list_elem_of_further. }
        rewrite Hcount.
        rewrite (filter_ext_in (fun y => y ∉ servers ++ [x])
                   (fun y => y ∉ servers) rest).
        { rewrite length_app. cbn [length]. lia. }
        intros y Hy. rewrite elem_of_app, list_elem_of_singleton.
        split; [tauto|]. intros Hy' [?| ->]; done.
    + assert (x ∈ servers) as Hin.
      { destruct (decide (x = primary)) as [->|Hne]; [done|].
        destruct (decide (x ∈ servers)) as [|Hnotin]; [done|].
        exfalso. by apply Hnew. }
      destruct (IH servers) as (Hres & Htail & Hel & Hcount); [done..|].
      split; [done|]. split; [done|].
      split.
      { intros y Hy. destruct (Hel y Hy); [by left|].
        right. by apply list_elem_of_further. }
      rewrite filter_cons_False by (intros Hnotin; done).
      done.
Qed.

Lemma length_filter_other (primary : Z) (replicas : list Z) :
  NoDup replicas ->
  length (filter (fun x => x ∉ [primary]) replicas)
  = (length replicas - if decide (primary ∈ replicas) then 1 else 0)%nat.
Proof.
  induction 1 as [|x l Hx Hnd IH]; [done|].
  destruct (decide (x = primary)) as [->|Hne].
  - rewrite filter_cons_False
      by (intros Hnot; apply Hnot, list_elem_of_here).
    rewrite IH, decide_False by done.
    rewrite decide_True by apply list_elem_of_here. cbn [length]. lia.
  - rewrite filter_cons_True
      by (by intros ->%list_elem_of_singleton).
    cbn [length]. rewrite IH.
    destruct (decide (primary ∈ l)) as [Hin|Hnotin].
    + rewrite decide_True by (by apply list_elem_of_further).
      destruct l; [by apply elem_of_nil in Hin|cbn [length]; lia].
    + rewrite decide_False; [lia|].
      intros [?|?]%elem_of_cons; done.
Qed.

(** A list of [n] distinct servers of [0, n) holds each of them. *)
Lemma all_servers_listed (n : Z) (servers : list Z) (s : Z) :
  NoDup servers -> Forall (validServer n) servers ->
  Z.of_nat (length servers) = n -> validServer n s -> s ∈ servers.
Proof.
  intros Hnd Hvalid Hlen Hs. rewrite Forall_forall in Hvalid.
  assert ((list_to_set servers : gset Z) = list_to_set (seqZ 0 n)) as Heq.
  { apply set_subseteq_size_eq.
    - intros x Hx%elem_of_list_to_set.
      apply elem_of_list_to_set, elem_of_seqZ.
      specialize (Hvalid x Hx). unfold validServer in Hvalid. lia.
    - rewrite !size_list_to_set by (done || apply NoDup_seqZ).
      rewrite length_seqZ. lia. }
  apply (elem_of_list_to_set (C := gset Z)). rewrite Heq.
  apply elem_of_list_to_set, elem_of_seqZ. unfold validServer in Hs. lia.
Qed.

(** What [getServersForKey] and [getServersForSuffixQuery] share. *)
Lemma primary_and_replicas c n key primary rf :
  1 <= n -> 1 <= rf < Cpp.INT_MAX -> validServer n primary ->
  exists servers,
    (replicaServers ← getReplicaServers (newConsistentHashOf c n) key rf;
     Some (addReplicas primary (sizeBound rf) replicaServers [primary]))
    = Some servers /\
    head servers = Some primary /\
    NoDup servers /\
    Forall (validServer n) servers /\
    Z.of_nat (length servers) = Z.min (rf + 1) n.
Proof.
  intros Hn Hrf Hprimary.
  destruct (replicas_within_a_lap c n key rf _ Hn (Nat.le_refl _) Hrf)
    as (replicas & Hsome & Hlen & Hnd & _).
  fold (getReplicaServers (newConsistentHashOf c n) key rf) in Hsome.
  pose proof (getReplicaServers_valid c n key rf replicas Hn Hsome) as Hvalid.
  rewrite Hsome. cbn [mbind option_bind].
  rewrite sizeBound_small by lia.
  destruct (addReplicas_spec primary (rf + 1) replicas [primary])
    as (Hres & [tail Htail] & Hel & Hcount);
    [done|apply NoDup_singleton|apply list_elem_of_here|cbn; lia|].
  eexists. split; [reflexivity|].
  split; [by rewrite Htail|].
  split; [done|].
  split.
  { apply Forall_forall. intros x Hx.
    destruct (Hel x Hx) as [->%list_elem_of_singleton|Hrep]; [done|].
    rewrite Forall_forall in Hvalid. by apply Hvalid. }
  rewrite Hcount, length_filter_other by done. cbn [length].
  destruct (decide (primary ∈ replicas)) as [Hin|Hnotin].
  - destruct replicas; [by apply elem_of_nil in Hin|].
    cbn [length] in *. lia.
  - destruct (decide (rf + 1 <= n)) as [|Hsmall]; [lia|].
    exfalso. apply Hnotin.
    apply (all_servers_listed n); [done|done|lia|done].
Qed.

Lemma getServersForKey_replicas_aux c (n : Z) (ratio : R) (key : string) :
  1 <= n ->
  replicationFactor (newRouterOf c n ratio) < Cpp.INT_MAX ->
  exists servers,
    getServersForKey (newRouterOf c n ratio) key = Some servers /\
    head servers
    = Some (getServerForVirtualNode (newRouterOf c n ratio)
              (getVirtualNodeId (newRouterOf c n ratio) key)) /\
    NoDup servers /\
    Forall (validServer n) servers /\
    Z.of_nat (length servers)
    = Z.min (replicationFactor (newRouterOf c n ratio) + 1) n.
Proof.
  intros Hn Hmax.
  pose proof (replicationFactor_newRouter c n ratio) as Hrf.
  unfold getServersForKey. rewrite decide_True by lia.
  rewrite serverMap_newRouter.
  apply primary_and_replicas; [done|done|]. by apply primary_valid.
Qed.

(** X5: On a router of either copy built for [n >= 1] servers whose
    replication factor is below [INT_MAX], [getServersForKey] returns for
    every key a list that starts with the server of the key's virtual
    node and holds exactly [min(replicationFactor + 1, n)] distinct
    servers, all of [0, n). *)
Theorem getServersForKey_replicas (c : Copy) (n : Z) (ratio : R)
    (key : string) :
  1 <= n ->
  replicationFactor (newRouterOf c n ratio) < Cpp.INT_MAX ->
  exists servers,
    getServersForKey (newRouterOf c n ratio) key = Some servers /\
    head servers
    = Some (getServerForVirtualNode (newRouterOf c n ratio)
              (getVirtualNodeId (newRouterOf c n ratio) key)) /\
    NoDup servers /\
    Forall (validServer n) servers /\
    Z.of_nat (length servers)
    = Z.min (replicationFactor (newRouterOf c n ratio) + 1) n.
Proof. apply getServersForKey_replicas_aux. Qed.

Lemma getServersForKey_replicas_witness :
  exists servers,
    getServersForKey (newRouter 2 (1 / 10)) "StageX" = Some servers /\
    head servers
    = Some (getServerForVirtualNode (newRouter 2 (1 / 10))
              (getVirtualNodeId (newRouter 2 (1 / 10)) "StageX")) /\
    NoDup servers /\
    Forall (validServer 2) servers /\
    Z.of_nat (length servers)
    = Z.min (replicationFactor (newRouter 2 (1 / 10)) + 1) 2.
Proof.
  apply (getServersForKey_replicas DART_CPP 2 (1 / 10) "StageX"); [lia|].
  apply replicationFactor_default.
Defined.

End KeyRouting.

(* ===================================================================== *)
(** * Routing a query *)
(* ===================================================================== *)

Section QueryRouting.

Import Dart.

Lemma prefixLoop_spec r pre (l : list VirtualNode) : forall servers,
  NoDup servers ->
  NoDup (foldl (prefixStep r pre) servers l) /\
  forall s, s ∈ foldl (prefixStep r pre) servers l <->
    s ∈ servers \/
    exists v, v ∈ l /\ overlaps v pre = true /\
      getServerForVirtualNode r (id v) = s.
Proof.
  induction l as [|v l IH]; intros servers Hnd.
  - cbn [foldl]. split; [done|]. intros s. split; [by left|].
    intros [?|(v & Hv & _)]; [done|by apply elem_of_nil in Hv].
  - cbn [foldl]. unfold prefixStep at 2 4. fold (overlaps v pre).
    destruct (overlaps v pre) eqn:Hov.
    + case_decide as Hin.
      * destruct (IH servers Hnd) as [Hres Hel]. split; [done|].
        intros s. rewrite Hel. split.
        -- intros [?|(w & Hw & ? & ?)]; [by left|].
           right. exists w. split; [by apply list_elem_of_further|done].
        -- intros [?|(w & [->|Hw]%elem_of_cons & Hovw & Hs)]; [by left|..].
           ++ left. by rewrite <- Hs.
           ++ right. by exists w.
      * destruct (IH (servers ++ [getServerForVirtualNode r (id v)]))
          as [Hres Hel].
        { apply NoDup_app. split; [done|]. split; [|apply NoDup_singleton].
          intros y Hy ->%list_elem_of_singleton. done. }
        split; [done|].
        intros s. rewrite Hel, elem_of_app, list_elem_of_singleton. split.
        -- intros [[?| ->]|(w & Hw & ? & ?)]; [by left|..].
           ++ right. exists v. split; [apply list_elem_of_here|done].
           ++ right. exists w. split; [by apply list_elem_of_further|done].
        -- intros [?|(w & [->|Hw]%elem_of_cons & Hovw & Hs)];
             [by left; left|by left; right|].
           right. by exists w.
    + destruct (IH servers Hnd) as [Hres Hel]. split; [done|].
      intros s. rewrite Hel. split.
      * intros [?|(w & Hw & ? & ?)]; [by left|].
        right. exists w. split; [by apply list_elem_of_further|done].
      * intros [?|(w & [->|Hw]%elem_of_cons & Hovw & Hs)]; [by left|..].
        -- congruence.
        -- right. by exists w.
Qed.

(** The loop of [getServersForPrefixQuery] finds a server for every
    prefix, because the virtual node with the empty prefix overlaps all
    of them: the fall-back to all servers is not taken. *)
Lemma prefix_pool_loop (r : DARTRouter) (pre : string) :
  virtualNodes r !! 99%nat = Some {| id := 99; prefix := "" |} ->
  getServersForPrefixQuery r pre
  = foldl (prefixStep r pre) [] (virtualNodes r) /\
  getServersForPrefixQuery r pre <> [].
Proof.
  intros Hfallback. unfold getServersForPrefixQuery.
  destruct (prefixLoop_spec r pre (virtualNodes r) [] NoDup_nil_2)
    as [_ Hel].
  destruct (foldl (prefixStep r pre) [] (virtualNodes r)) as [|s l] eqn:Hloop;
    [|done].
  exfalso.
  apply (elem_of_nil (getServerForVirtualNode r 99)), Hel. right.
  exists {| id := 99; prefix := "" |}.
  split; [by eapply list_elem_of_lookup_2|].
  split; [|reflexivity].
  unfold overlaps. cbn [prefix]. by rewrite starts_with_empty, orb_true_r.
Qed.

Lemma prefix_query_servers c (n : Z) (ratio : R)
    (pre : string) (s : Z) :
  (s ∈ getServersForPrefixQuery (newRouterOf c n ratio) pre <->
   exists v, v ∈ virtualNodes (newRouterOf c n ratio) /\
     overlaps v pre = true /\
     getServerForVirtualNode (newRouterOf c n ratio) (id v) = s) /\
  NoDup (getServersForPrefixQuery (newRouterOf c n ratio) pre).
Proof.
  destruct (prefix_pool_loop (newRouterOf c n ratio) pre) as [-> _].
  { rewrite virtualNodes_newRouterOf. exact createVirtualNodes_fallback. }
  destruct (prefixLoop_spec (newRouterOf c n ratio) pre
              (virtualNodes (newRouterOf c n ratio)) [] NoDup_nil_2)
    as [Hnd Hel].
  split; [|exact Hnd].
  rewrite Hel. split; [|by right].
  intros [Hs|?]; [by apply elem_of_nil in Hs|done].
Qed.

(** X6: [getServersForPrefixQuery] returns, without repetition, exactly the
    servers of the virtual nodes whose prefix starts the query's prefix
    or is started by it. *)
Theorem getServersForPrefixQuery_servers (n : Z) (ratio : R)
    (pre : string) (s : Z) :
  (s ∈ getServersForPrefixQuery (newRouter n ratio) pre <->
   exists v, v ∈ virtualNodes (newRouter n ratio) /\
     overlaps v pre = true /\
     getServerForVirtualNode (newRouter n ratio) (id v) = s) /\
  NoDup (getServersForPrefixQuery (newRouter n ratio) pre).
Proof. apply (prefix_query_servers DART_CPP). Qed.

(** Two prefixes of one string: one is a prefix of the other. *)
Lemma prefix_comparable (k : string) : forall a b,
  String.prefix a k = true -> String.prefix b k = true ->
  String.prefix a b = true \/ String.prefix b a = true.
Proof.
  induction k as [|c k IH]; intros [|x a] [|y b]; cbn; try tauto;
    try discriminate.
  destruct (ascii_dec x c) as [->|]; [|discriminate].
  destruct (ascii_dec y c) as [->|]; [|discriminate].
  destruct (ascii_dec c c) as [_|]; [|done].
  apply IH.
Qed.

Lemma prefix_reaches_primary c (n : Z) (ratio : R)
    (pre key : string) :
  Cpp.starts_with key pre = true ->
  getServerForVirtualNode (newRouterOf c n ratio)
    (getVirtualNodeId (newRouterOf c n ratio) key)
  ∈ getServersForPrefixQuery (newRouterOf c n ratio) pre.
Proof.
  intros Hpre. rewrite starts_with_prefix in Hpre.
  destruct (first_match_of_pool (newRouterOf c n ratio) key)
    as (_ & i & v & Hv & _ & -> & Hkey & _).
  { rewrite virtualNodes_newRouterOf. exact createVirtualNodes_ids. }
  { rewrite virtualNodes_newRouterOf. exact createVirtualNodes_fallback. }
  apply prefix_query_servers.
  exists v. split; [by eapply list_elem_of_lookup_2|]. split; [|done].
  unfold overlaps. rewrite !starts_with_prefix.
  destruct (prefix_comparable key _ _ Hkey Hpre) as [-> | ->];
    [by rewrite orb_true_r|done].
Qed.

(** X7: A prefix query is sent to the primary server of every key that
    starts with the prefix. *)
Theorem prefix_query_reaches_primary (n : Z) (ratio : R)
    (pre key : string) :
  Cpp.starts_with key pre = true ->
  getServerForVirtualNode (newRouter n ratio)
    (getVirtualNodeId (newRouter n ratio) key)
  ∈ getServersForPrefixQuery (newRouter n ratio) pre.
Proof. apply (prefix_reaches_primary DART_CPP). Qed.

Lemma prefix_query_reaches_primary_witness :
  getServerForVirtualNode (newRouter 4 (1 / 10))
    (getVirtualNodeId (newRouter 4 (1 / 10)) "StageX")
  ∈ getServersForPrefixQuery (newRouter 4 (1 / 10)) "Sta".
Proof. apply prefix_query_reaches_primary. reflexivity. Defined.

Lemma getServersForPrefixQuery_valid c n ratio pre :
  1 <= n ->
  Forall (validServer n) (getServersForPrefixQuery (newRouterOf c n ratio) pre).
Proof.
  intros Hn. apply Forall_forall. intros s Hs.
  apply prefix_query_servers in Hs as (v & Hv & _ & <-).
  apply virtual_node_server; [done|].
  assert (id v ∈ id <$> virtualNodes (newRouterOf c n ratio)) as Hid
    by (by apply list_elem_of_fmap_2).
  rewrite virtualNodes_newRouterOf, createVirtualNodes_ids in Hid.
  apply elem_of_seqZ in Hid. lia.
Qed.

Lemma destination_servers c (n : Z) (ratio : R) (query : string) :
  1 <= n ->
  replicationFactor (newRouterOf c n ratio) < Cpp.INT_MAX ->
  exists servers,
    getDestinationServers (newRouterOf c n ratio) query = Some servers /\
    servers <> [] /\
    NoDup servers /\
    Forall (validServer n) servers.
Proof.
  intros Hn Hmax.
  pose proof (replicationFactor_newRouter c n ratio) as Hrf.
  assert (forall key,
    exists servers,
      getServersForKey (newRouterOf c n ratio) key = Some servers /\
      servers <> [] /\ NoDup servers /\ Forall (validServer n) servers)
    as Hkey.
  { intros key.
    destruct (getServersForKey_replicas_aux c n ratio key Hn Hmax)
      as (servers & Hsome & Hhead & Hnd & Hvalid & _).
    exists servers. split; [done|]. split; [|done].
    by destruct servers. }
  unfold getDestinationServers.
  destruct (Query.shapeOf (Cpp.keyPortion query)).
  - eexists. split; [reflexivity|].
    unfold getServersForWildcardQuery, allServers.
    rewrite routerServers_newRouter.
    split.
    { intros Hnil. apply (f_equal length) in Hnil.
      rewrite length_seqZ in Hnil. cbn in Hnil. lia. }
    split; [apply NoDup_seqZ|].
    apply Forall_forall. intros s Hs%elem_of_seqZ. unfold validServer. lia.
  - eexists. split; [reflexivity|]. unfold getServersForInfixQuery.
    split.
    { apply prefix_pool_loop. rewrite virtualNodes_newRouterOf.
      exact createVirtualNodes_fallback. }
    split; [apply prefix_query_servers; exact 0|].
    by apply getServersForPrefixQuery_valid.
  - apply Hkey.
  - eexists. split; [reflexivity|].
    split.
    { apply prefix_pool_loop. rewrite virtualNodes_newRouterOf.
      exact createVirtualNodes_fallback. }
    split; [apply prefix_query_servers; exact 0|].
    by apply getServersForPrefixQuery_valid.
  - apply Hkey.
Qed.

(** X8: On a router of either copy built for [n >= 1] servers whose
    replication factor is below [INT_MAX], [getDestinationServers]
    returns for every query a list of servers that is not empty, repeats
    no server and names servers of [0, n) only. *)
Theorem getDestinationServers_total (c : Copy) (n : Z) (ratio : R)
    (query : string) :
  1 <= n ->
  replicationFactor (newRouterOf c n ratio) < Cpp.INT_MAX ->
  exists servers,
    getDestinationServers (newRouterOf c n ratio) query = Some servers /\
    servers <> [] /\
    NoDup servers /\
    Forall (validServer n) servers.
Proof. apply destination_servers. Qed.

Lemma getDestinationServers_total_witness :
  exists servers,
    getDestinationServers (newRouter 4 (1 / 10)) "Stage*=*" = Some servers /\
    servers <> [] /\
    NoDup servers /\
    Forall (validServer 4) servers.
Proof.
  apply (getDestinationServers_total DART_CPP 4 (1 / 10) "Stage*=*"); [lia|].
  apply replicationFactor_default.
Defined.

End QueryRouting.

(* ===================================================================== *)
(** * Changing the number of servers *)
(* ===================================================================== *)

Section Remapping.

Import Dart.

Lemma remapped_maps ch (pool : list VirtualNode) (old : gmap Z Z) :
  (forall i, i ∉ id <$> pool -> old !! i = None) ->
  foldl (assignStep ch) (old, ∅) pool = assignVirtualNodes ch pool.
Proof.
  intros Hold. unfold assignVirtualNodes.
  rewrite (surjective_pairing (foldl (assignStep ch) (old, ∅) pool)).
  rewrite (surjective_pairing (foldl (assignStep ch) (∅, ∅) pool)).
  rewrite (assign_second_independent ch pool old ∅ ∅).
  apply (f_equal (fun m => (m, (foldl (assignStep ch) (∅, ∅) pool).2))).
  apply map_eq. intros i. rewrite !assign_first. cbn [fst].
  case_decide as Hin; [done|].
  by rewrite Hold, lookup_empty.
Qed.

Lemma remapped_newRouter c n m ratio :
  foldl (assignStep (newConsistentHashOf c n))
    (virtualNodeToServer (newRouterOf c m ratio), ∅) createVirtualNodes
  = assignVirtualNodes (newConsistentHashOf c n) createVirtualNodes.
Proof.
  apply remapped_maps. intros i Hi.
  rewrite lookup_newRouter, decide_False; [done|].
  intros Hrange. apply Hi. rewrite createVirtualNodes_ids.
  apply elem_of_seqZ. lia.
Qed.

(** X9: [remapServers] to [n >= 1] servers leaves the router that the
    constructor builds for [n] servers with its default replication
    ratio: nothing of the old assignment survives. *)
Theorem remapServers_rebuilds (n m : Z) (ratio : R) :
  1 <= n ->
  (remapServers n (newRouter m ratio)).1 = newRouter n (1 / 10).
Proof.
  intros Hn. unfold remapServers, newRouter.
  rewrite decide_False by lia.
  cbn [fst]. rewrite copy_newRouter, virtualNodes_newRouterOf.
  rewrite remapped_newRouter. reflexivity.
Qed.

Lemma remapServers_rebuilds_witness :
  (remapServers 5 (newRouter 3 (1 / 2))).1 = newRouter 5 (1 / 10).
Proof. apply remapServers_rebuilds. lia. Defined.

Lemma migrationsNeeded_same (m : gmap Z Z) (l : list VirtualNode) :
  (forall v, v ∈ l -> is_Some (m !! id v)) ->
  migrationsNeeded m m l = 0.
Proof.
  unfold migrationsNeeded. generalize 0.
  induction l as [|v l IH]; intros count Hmapped; [done|].
  cbn [foldl]. destruct (Hmapped v (list_elem_of_here _ _)) as [s Hs].
  rewrite Hs, !default_Some.
  rewrite decide_False by (intros [_ Hne]; done).
  apply IH. intros w Hw. apply Hmapped. by apply list_elem_of_further.
Qed.

(** X10: [remapServers] to the number of servers the router already has
    reports that no virtual node needs to be migrated. *)
Theorem remapServers_same_count (n : Z) (ratio : R) :
  1 <= n ->
  (remapServers n (newRouter n ratio)).2 = Some 0.
Proof.
  intros Hn. unfold remapServers, newRouter.
  rewrite decide_False by lia.
  cbn [snd]. rewrite copy_newRouter, virtualNodes_newRouterOf.
  rewrite remapped_newRouter.
  rewrite <- (virtualNodeToServer_newRouter DART_CPP n ratio).
  f_equal. apply migrationsNeeded_same.
  intros v Hv.
  assert (id v ∈ id <$> createVirtualNodes) as Hid
    by (by apply list_elem_of_fmap_2).
  rewrite createVirtualNodes_ids in Hid. apply elem_of_seqZ in Hid.
  rewrite lookup_newRouter, decide_True by lia. done.
Qed.

Lemma remapServers_same_count_witness :
  (remapServers 3 (newRouter 3 (1 / 2))).2 = Some 0.
Proof. apply remapServers_same_count. lia. Defined.

End Remapping.

(* ===================================================================== *)
(** * More about the failure detector *)
(* ===================================================================== *)

Section FaultTimeline.

Import Fault.

Lemma check_loop_last now keys : forall fm r,
  default 0 (lastHeartbeat (foldl (checkEntry now) fm keys) !! r)
  = default 0 (lastHeartbeat fm !! r).
Proof.
  induction keys as [|k keys IH]; intros fm r; cbn [foldl]; [done|].
  by rewrite IH, checkEntry_last.
Qed.

Lemma check_loop_thresholds now keys : forall fm,
  timeoutThreshold (foldl (checkEntry now) fm keys) = timeoutThreshold fm /\
  confirmationThreshold (foldl (checkEntry now) fm keys)
  = confirmationThreshold fm.
Proof.
  induction keys as [|k keys IH]; intros fm; cbn [foldl]; [done|].
  destruct (IH (checkEntry now fm k)) as [-> ->].
  apply checkEntry_thresholds.
Qed.

Lemma checkHeartbeats_last now fm r :
  default 0 (lastHeartbeat (checkHeartbeats now fm) !! r)
  = default 0 (lastHeartbeat fm !! r).
Proof. apply check_loop_last. Qed.

Lemma checkHeartbeats_thresholds now fm :
  timeoutThreshold (checkHeartbeats now fm) = timeoutThreshold fm /\
  confirmationThreshold (checkHeartbeats now fm) = confirmationThreshold fm.
Proof. apply check_loop_thresholds. Qed.

Lemma processHeartbeat_last k now fm :
  lastHeartbeat (processHeartbeat k now fm) !! k = Some now.
Proof.
  unfold processHeartbeat.
  destruct (status_at _ k); cbn; apply lookup_insert_eq.
Qed.

Lemma processHeartbeat_thresholds k now fm :
  timeoutThreshold (processHeartbeat k now fm) = timeoutThreshold fm /\
  confirmationThreshold (processHeartbeat k now fm)
  = confirmationThreshold fm.
Proof. unfold processHeartbeat. by destruct (status_at _ k). Qed.

(** X11: A server that has just been heard from survives the next check as
    [ACTIVE], provided the check comes within the timeout and the server
    was not confirmed down before; a rank unknown so far is registered by
    its heartbeat. *)
Theorem heartbeat_then_check_keeps_active fm k now later :
  serverStatus fm !! k <> Some CONFIRMED_DOWN ->
  later - now <= timeoutThreshold fm ->
  isServerActive k (checkHeartbeats later (processHeartbeat k now fm)) = true.
Proof.
  intros Hup Hsoon. unfold isServerActive.
  rewrite checkHeartbeats_status, processHeartbeat_last.
  destruct (processHeartbeat_thresholds k now fm) as [-> ->].
  rewrite processHeartbeat_status, decide_True by done.
  unfold status_at. cbn.
  destruct (serverStatus fm !! k) as [[]|]; cbn; try done;
    by rewrite decide_False by lia.
Qed.

(** The theorem for the single server, checked 1.4 s after it was heard. *)
Lemma heartbeat_then_check_keeps_active_witness :
  isServerActive 1
    (checkHeartbeats (ms 1500) (processHeartbeat 1 (ms 100) oneServer))
  = true.
Proof.
  apply heartbeat_then_check_keeps_active.
  - vm_compute. discriminate.
  - vm_compute. discriminate.
Defined.

(** X12: Checks alone do not confirm a server down before the confirmation
    threshold has passed since its last heartbeat. *)
Theorem no_confirmation_before_threshold es : forall fm k,
  serverStatus fm !! k <> Some CONFIRMED_DOWN ->
  checksUntil (default 0 (lastHeartbeat fm !! k) + confirmationThreshold fm)
    es ->
  serverStatus (run es fm) !! k <> Some CONFIRMED_DOWN.
Proof.
  unfold run, checksUntil.
  induction es as [|e es IH]; intros fm k Hup Hchecks; cbn [foldl]; [done|].
  apply Forall_cons in Hchecks as [(now & -> & Hnow) Hrest]. cbn [step].
  apply IH.
  - rewrite checkHeartbeats_status.
    destruct (serverStatus fm !! k) as [[]|]; cbn; try done.
    + by case_decide.
    + rewrite decide_False by lia. done.
  - rewrite checkHeartbeats_last.
    by rewrite (proj2 (checkHeartbeats_thresholds now fm)).
Qed.

(** The theorem for the single server and three checks in its first
    five seconds. *)
Lemma no_confirmation_before_threshold_witness :
  serverStatus
    (run [Check (ms 1000); Check (ms 3000); Check (ms 5000)] oneServer) !! 1
  <> Some CONFIRMED_DOWN.
Proof.
  apply no_confirmation_before_threshold.
  - vm_compute. discriminate.
  - repeat constructor; eexists; (split; [reflexivity|]);
      vm_compute; discriminate.
Defined.

(** X13: An [ACTIVE] server that stays silent is [CONFIRMED_DOWN] after two
    checks: the first, later than the timeout, suspects it; the second,
    later than the confirmation threshold, confirms. *)
Theorem silent_server_confirmed_after_two_checks fm k first second :
  serverStatus fm !! k = Some ACTIVE ->
  first - default 0 (lastHeartbeat fm !! k) > timeoutThreshold fm ->
  second - default 0 (lastHeartbeat fm !! k) > confirmationThreshold fm ->
  serverStatus (run [Check first] fm) !! k = Some SUSPECT /\
  serverStatus (run [Check first; Check second] fm) !! k
  = Some CONFIRMED_DOWN.
Proof.
  intros Hactive Hfirst Hsecond. unfold run. cbn [foldl step].
  assert (serverStatus (checkHeartbeats first fm) !! k = Some SUSPECT)
    as Hsuspect.
  { rewrite checkHeartbeats_status, Hactive. cbn.
    by rewrite decide_True by done. }
  split; [done|].
  rewrite checkHeartbeats_status, Hsuspect, checkHeartbeats_last.
  rewrite (proj2 (checkHeartbeats_thresholds first fm)). cbn.
  by rewrite decide_True by done.
Qed.

(** The theorem for the single server, checked after 3 s and after 6 s. *)
Lemma silent_server_confirmed_after_two_checks_witness :
  serverStatus (run [Check (ms 3000)] oneServer) !! 1 = Some SUSPECT /\
  serverStatus (run [Check (ms 3000); Check (ms 6000)] oneServer) !! 1
  = Some CONFIRMED_DOWN.
Proof.
  apply silent_server_confirmed_after_two_checks.
  - vm_compute. reflexivity.
  - vm_compute. reflexivity.
  - vm_compute. reflexivity.
Defined.

(** X14: No event makes the manager forget a server: a rank with a status
    keeps one through every sequence of checks, heartbeats and failure
    notifications. *)
Theorem run_never_forgets_server es : forall fm r,
  is_Some (serverStatus fm !! r) ->
  is_Some (serverStatus (run es fm) !! r).
Proof.
  unfold run.
  induction es as [|e es IH]; intros fm r Hknown; cbn [foldl]; [done|].
  apply IH. destruct Hknown as [st Hst].
  destruct e as [now|k now|k]; cbn [step].
  - rewrite checkHeartbeats_status, Hst. by eexists.
  - rewrite processHeartbeat_status. case_decide; by eexists.
  - rewrite notifyServerFailure_status. case_decide; by eexists.
Qed.

(** The theorem for the single server. *)
Lemma run_never_forgets_server_witness :
  is_Some
    (serverStatus
       (run [Failure 1; Heartbeat 2 (ms 10); Check (ms 9000)] oneServer)
       !! 1).
Proof.
  apply run_never_forgets_server. vm_compute. by eexists.
Defined.

End FaultTimeline.

Section FaultMessages.

Import Fault.

Lemma elem_of_activeServers fm r :
  r ∈ activeServers fm <-> serverStatus fm !! r = Some ACTIVE.
Proof.
  unfold activeServers. rewrite list_elem_of_fmap. split.
  - intros ([r' st] & -> & Hin). cbn.
    apply list_elem_of_filter in Hin as [Hactive Hin]. cbn in Hactive.
    apply elem_of_map_to_list in Hin. by subst.
  - intros Hr. exists (r, ACTIVE). split; [done|].
    apply list_elem_of_filter. split; [done|].
    by apply elem_of_map_to_list.
Qed.

Lemma NoDup_activeServers fm : NoDup (activeServers fm).
Proof.
  unfold activeServers.
  apply (NoDup_fmap_fst _ ).
  - intros r st1 st2 H1 H2.
    apply list_elem_of_filter in H1 as [_ H1].
    apply list_elem_of_filter in H2 as [_ H2].
    apply elem_of_map_to_list in H1, H2. congruence.
  - apply NoDup_filter, NoDup_map_to_list.
Qed.

(** [initiateRecovery] addresses active servers only, each once, all
    about the failed rank and naming one coordinator. *)
Lemma initiateRecovery_sent failedRank fm :
  exists msgs,
    sent (initiateRecovery failedRank fm) = sent fm ++ msgs /\
    dest <$> msgs = activeServers fm /\
    forall m, m ∈ msgs ->
      failedServerId m = failedRank /\
      coordinatorId m ∈ activeServers fm /\
      (tag m = RECOVERY_COORD_TAG <-> dest m = coordinatorId m).
Proof.
  unfold initiateRecovery.
  pose proof (NoDup_activeServers fm) as Hnd.
  destruct (activeServers fm) as [|coordinator others] eqn:Hactive.
  - exists []. split; [by rewrite app_nil_r|]. split; [done|].
    intros m Hm. by apply elem_of_nil in Hm.
  - eexists. split; [reflexivity|]. split.
    + cbn. f_equal. rewrite <- list_fmap_compose.
      rewrite <- (list_fmap_id others) at 2.
      apply list_fmap_ext. by intros.
    + intros m Hm. apply elem_of_cons in Hm as [->|Hm]; cbn.
      * split; [done|]. split; [by left|]. done.
      * apply list_elem_of_fmap in Hm as (o & -> & Ho). cbn.
        split; [done|]. split; [by left|].
        apply NoDup_cons in Hnd as [Hc _].
        split; [done|]. intros ->. done.
Qed.

(** X15: The recovery messages of a failure notification: only a client sends
    any; each is about the notified rank, goes to a server that is
    [ACTIVE] afterwards, and so never to the failed server itself. *)
Theorem notifyServerFailure_messages k fm m :
  m ∈ sent (notifyServerFailure k fm) ->
  m ∈ sent fm \/
  (isClient fm = true /\ failedServerId m = k /\ dest m <> k /\
   serverStatus (notifyServerFailure k fm) !! dest m = Some ACTIVE).
Proof.
  intros Hm.
  assert (forall d, d ≠ k ->
            serverStatus (notifyServerFailure k fm) !! d
            = serverStatus fm !! d) as Hother.
  { intros d Hd. by rewrite notifyServerFailure_status, decide_False. }
  unfold notifyServerFailure in Hm. cbn [set_status isClient] in Hm.
  destruct (isClient fm) eqn:Hclient; [|by left].
  set (fm1 := set_status (insert k CONFIRMED_DOWN) fm) in *.
  destruct (initiateRecovery_sent k fm1) as (msgs & Hsent & Hdests & Hall).
  rewrite Hsent in Hm. apply elem_of_app in Hm as [Hm|Hm]; [by left|].
  right. destruct (Hall m Hm) as (Hfailed & _ & _).
  assert (dest m ∈ activeServers fm1) as Hactive.
  { rewrite <- Hdests. apply list_elem_of_fmap. by exists m. }
  apply elem_of_activeServers in Hactive.
  assert (dest m ≠ k) as Hne.
  { intros Heq. rewrite Heq in Hactive. unfold fm1 in Hactive.
    cbn in Hactive. by rewrite lookup_insert_eq in Hactive. }
  split; [done|]. split; [done|]. split; [done|].
  rewrite Hother by done. unfold fm1 in Hactive. cbn in Hactive.
  by rewrite lookup_insert_ne in Hactive.
Qed.

(** The theorem for a client that watches ranks 1 and 2 and is told that
    rank 1 failed: rank 2 coordinates. *)
Lemma notifyServerFailure_messages_witness :
  coordinatorNotice ∈ sent twoServers \/
  (isClient twoServers = true /\ failedServerId coordinatorNotice = 1 /\
   dest coordinatorNotice <> 1 /\
   serverStatus (notifyServerFailure 1 twoServers) !! dest coordinatorNotice
   = Some ACTIVE).
Proof.
  apply notifyServerFailure_messages.
  vm_compute. apply list_elem_of_here.
Defined.

Lemma sendHeartbeatTo_status_at timestamp acc i r :
  status_at (serverStatus (sendHeartbeatTo timestamp acc i).2) r
  = status_at (serverStatus acc.2) r.
Proof.
  unfold sendHeartbeatTo.
  assert (status_at (serverStatus (set_status (touch_status i) acc.2)) r
          = status_at (serverStatus acc.2) r) as Htouch.
  { cbn. unfold touch_status, status_at.
    destruct (decide (r = i)) as [->|Hne].
    - by rewrite lookup_insert_eq.
    - by rewrite lookup_insert_ne. }
  by destruct (status_at _ i).
Qed.

Lemma sendHeartbeats_loop timestamp ranks : forall acc,
  hbDest <$> (foldl (sendHeartbeatTo timestamp) acc ranks).1
  = (hbDest <$> acc.1) ++ filter (fun i => heartbeatTarget acc.2 i) ranks.
Proof.
  induction ranks as [|i ranks IH]; intros acc; cbn [foldl].
  - by rewrite filter_nil, app_nil_r.
  - rewrite IH. rewrite filter_cons.
    assert (forall r, heartbeatTarget (sendHeartbeatTo timestamp acc i).2 r
                      = heartbeatTarget acc.2 r) as Hsame.
    { intros r. unfold heartbeatTarget.
      by rewrite sendHeartbeatTo_status_at. }
    rewrite (list_filter_iff _ (fun i => heartbeatTarget acc.2 i))
      by (intros r; by rewrite Hsame).
    unfold sendHeartbeatTo at 1.
    assert (status_at (serverStatus (set_status (touch_status i) acc.2)) i
            = status_at (serverStatus acc.2) i) as ->.
    { cbn. unfold touch_status, status_at. by rewrite lookup_insert_eq. }
    destruct (status_at (serverStatus acc.2) i) eqn:Hst; cbn;
      rewrite ?fmap_app, <- ?app_assoc; cbn.
    all: assert (heartbeatTarget acc.2 i
                 = match status_at (serverStatus acc.2) i with
                   | ACTIVE | SUSPECT => true | _ => false end) as Htarget
           by reflexivity; rewrite Hst in Htarget.
    all: case_decide as Hd; rewrite Htarget in Hd; done.
Qed.

(** X16: [sendHeartbeats] addresses exactly the ranks from 1 below the world
    size whose status is [ACTIVE] or [SUSPECT] (a rank without a status
    counts as [ACTIVE]), in rising order: a server that is confirmed down
    or recovering gets no heartbeat. *)
Theorem sendHeartbeats_targets timestamp fm :
  hbDest <$> (sendHeartbeats timestamp fm).1
  = filter (fun i => heartbeatTarget fm i) (seqZ 1 (worldSize fm - 1)).
Proof. unfold sendHeartbeats. by rewrite sendHeartbeats_loop. Qed.

End FaultMessages.

(* ===================================================================== *)
(** * The replication factor of a pattern *)
(* ===================================================================== *)

Section ReplicationFactor.

Import Popularity.























End ReplicationFactor.

Section PopularityStats.

Import Popularity.

#[local] Instance popularity_ge_total : Total popularity_ge.
Proof.
  intros a b. unfold popularity_ge.
  destruct (Rle_dec b.2 a.2); [by left|right; lra].
Qed.

(** X20: [getAllKeysSortedByPopularity] lists, most popular first and each
    pattern once, exactly the patterns whose decayed score exceeds 0.01,
    each with that score. *)
Theorem getAllKeysSortedByPopularity_sorted (now : Z)
    (t : PopularityTracker) :
  Sorted popularity_ge (getAllKeysSortedByPopularity now t) /\
  NoDup (fst <$> getAllKeysSortedByPopularity now t) /\
  forall key score,
    (key, score) ∈ getAllKeysSortedByPopularity now t
    <-> score = getPopularity now key t /\ (score > 1 / 100)%R.
Proof.
  unfold getAllKeysSortedByPopularity.
  split; [apply Sorted_merge_sort; apply _|].
  split.
  - rewrite merge_sort_Permutation.
    apply (NoDup_fmap_2_strong fst).
    + intros [k1 s1] [k2 s2]
        [_ (e1 & Hd1 & He1)%list_elem_of_fmap]%list_elem_of_filter
        [_ (e2 & Hd2 & He2)%list_elem_of_fmap]%list_elem_of_filter Hk.
      destruct e1 as [k1' r1], e2 as [k2' r2].
      unfold decayed in Hd1, Hd2. cbn in Hd1, Hd2, Hk.
      injection Hd1 as -> ->. injection Hd2 as -> ->. subst k2'.
      apply elem_of_map_to_list in He1, He2.
      rewrite He1 in He2. by injection He2 as ->.
    + apply NoDup_filter, NoDup_fmap_2_strong; [|apply NoDup_map_to_list].
      intros [k1 r1] [k2 r2] He1 He2. unfold decayed. cbn.
      intros [= -> _]. apply elem_of_map_to_list in He1, He2.
      rewrite He1 in He2. by injection He2 as ->.
  - intros key score.
    rewrite merge_sort_Permutation.
    rewrite list_elem_of_filter, list_elem_of_fmap. unfold popular. cbn [snd].
    split.
    + intros [Hpop ([k raw] & Hd & He)]. unfold decayed in Hd. cbn in Hd.
      injection Hd as -> ->. apply elem_of_map_to_list in He.
      split; [|done]. unfold getPopularity. by rewrite He.
    + intros [-> Hpop]. split; [done|].
      unfold getPopularity in *.
      destruct (keyPopularity t !! key) as [raw|] eqn:Hraw; [|lra].
      exists (key, raw). split; [done|]. by apply elem_of_map_to_list.
Qed.

End PopularityStats.

(* ===================================================================== *)
(** * The adaptive router and the router under it *)
(* ===================================================================== *)

Section AdaptiveRouting.

Import Adaptive.

(** X21: With adaptive replication switched off, the adaptive router answers
    every query as the router under it does, and records nothing. *)
Theorem disabled_router_is_base (now stamp later : Z)
    (r : AdaptiveDARTRouter) (query : string) :
  adaptiveReplicationEnabled r = false ->
  getDestinationServers now stamp later r query
  = (Dart.getDestinationServers (base r) query, r).
Proof.
  intros Hoff. unfold getDestinationServers, Dart.getDestinationServers.
  rewrite Hoff. f_equal.
  destruct (Query.shapeOf (Cpp.keyPortion query)); try reflexivity.
  unfold getServersForKey. by rewrite Hoff.
Qed.

Lemma disabled_router_is_base_witness :
  getDestinationServers 0 0 0
    (setAdaptiveReplicationEnabled false fresh) "StageX=300.00"
  = (Dart.getDestinationServers
       (base (setAdaptiveReplicationEnabled false fresh)) "StageX=300.00",
     setAdaptiveReplicationEnabled false fresh).
Proof. apply disabled_router_is_base. reflexivity. Defined.





End AdaptiveRouting.

(* ===================================================================== *)
(** * Exact look-ups in the two tries *)
(* ===================================================================== *)

Section ExactLookup.

Import Trie.

Lemma vIdsAt_new path : vIdsAt path newValueTrieNode = ∅.
Proof. destruct path; cbn; [done|]. by rewrite lookup_empty. Qed.

Lemma vEndAt_new path : vEndAt path newValueTrieNode = false.
Proof. destruct path; cbn; [done|]. by rewrite lookup_empty. Qed.

Lemma kTrieAt_new path : kTrieAt path newKeyTrieNode = None.
Proof. destruct path; cbn; [done|]. by rewrite lookup_empty. Qed.

Lemma kEndAt_new path : kEndAt path newKeyTrieNode = false.
Proof. destruct path; cbn; [done|]. by rewrite lookup_empty. Qed.

Lemma vIdsAt_insert path' objectId stored : forall path node,
  vIdsAt path (insertValueAt path' objectId stored node)
  = if decide (path = path') then {[objectId]} ∪ vIdsAt path node
    else vIdsAt path node.
Proof.
  induction path' as [|c' rest' IH]; intros [|c rest] node;
    cbn [insertValueAt vIdsAt vChildren objectIds].
  - by rewrite decide_True.
  - by rewrite decide_False.
  - by rewrite decide_False.
  - destruct (decide (c = c')) as [->|Hne].
    + rewrite lookup_insert_eq, IH.
      destruct (decide (rest = rest')) as [->|Hrest].
      * rewrite decide_True by done.
        destruct (vChildren node !! c'); [by rewrite default_Some|].
        by rewrite default_None, vIdsAt_new.
      * rewrite decide_False by congruence.
        destruct (vChildren node !! c'); [by rewrite default_Some|].
        by rewrite default_None, vIdsAt_new.
    + rewrite lookup_insert_ne by done.
      rewrite decide_False by congruence. done.
Qed.

Lemma vEndAt_insert path' objectId stored : forall path node,
  vEndAt path (insertValueAt path' objectId stored node)
  = if decide (path = path') then true else vEndAt path node.
Proof.
  induction path' as [|c' rest' IH]; intros [|c rest] node;
    cbn [insertValueAt vEndAt vChildren isEndOfValue].
  - by rewrite decide_True.
  - by rewrite decide_False.
  - by rewrite decide_False.
  - destruct (decide (c = c')) as [->|Hne].
    + rewrite lookup_insert_eq, IH.
      destruct (decide (rest = rest')) as [->|Hrest].
      * by rewrite decide_True.
      * rewrite decide_False by congruence.
        destruct (vChildren node !! c'); [by rewrite default_Some|].
        by rewrite default_None, vEndAt_new.
    + rewrite lookup_insert_ne by done.
      rewrite decide_False by congruence. done.
Qed.

Lemma searchExactValueAt_reads path : forall node,
  searchExactValueAt path node
  = if vEndAt path node then vIdsAt path node else ∅.
Proof.
  induction path as [|c rest IH]; intros node; cbn; [done|].
  destruct (vChildren node !! c); [apply IH|done].
Qed.

Lemma kTrieAt_insert path' stored mode : forall path node,
  kTrieAt path (insertKeyAt path' stored mode node)
  = if decide (path = path')
    then Some (default (newValueTrie mode) (kTrieAt path node))
    else kTrieAt path node.
Proof.
  induction path' as [|c' rest' IH]; intros [|c rest] node;
    cbn [insertKeyAt kTrieAt kChildren valueTrie].
  - rewrite decide_True by done. by destruct (valueTrie node).
  - by rewrite decide_False.
  - by rewrite decide_False.
  - destruct (decide (c = c')) as [->|Hne].
    + rewrite lookup_insert_eq, IH.
      destruct (decide (rest = rest')) as [->|Hrest].
      * rewrite decide_True by done.
        destruct (kChildren node !! c'); [by rewrite default_Some|].
        by rewrite (default_None newKeyTrieNode), kTrieAt_new.
      * rewrite decide_False by congruence.
        destruct (kChildren node !! c'); [by rewrite default_Some|].
        by rewrite default_None, kTrieAt_new.
    + rewrite lookup_insert_ne by done.
      rewrite decide_False by congruence. done.
Qed.

Lemma kEndAt_insert path' stored mode : forall path node,
  kEndAt path (insertKeyAt path' stored mode node)
  = if decide (path = path') then true else kEndAt path node.
Proof.
  induction path' as [|c' rest' IH]; intros [|c rest] node;
    cbn [insertKeyAt kEndAt kChildren isEndOfKey].
  - by rewrite decide_True.
  - by rewrite decide_False.
  - by rewrite decide_False.
  - destruct (decide (c = c')) as [->|Hne].
    + rewrite lookup_insert_eq, IH.
      destruct (decide (rest = rest')) as [->|Hrest].
      * by rewrite decide_True.
      * rewrite decide_False by congruence.
        destruct (kChildren node !! c'); [by rewrite default_Some|].
        by rewrite default_None, kEndAt_new.
    + rewrite lookup_insert_ne by done.
      rewrite decide_False by congruence. done.
Qed.

Lemma kTrieAt_update key update : forall path node,
  kTrieAt path (updateValueTrieAt key update node)
  = if decide (path = key) then update <$> kTrieAt path node
    else kTrieAt path node.
Proof.
  induction key as [|c' rest' IH]; intros [|c rest] node;
    cbn [updateValueTrieAt kTrieAt kChildren valueTrie].
  - by rewrite decide_True.
  - by rewrite decide_False.
  - rewrite decide_False by done.
    by destruct (kChildren node !! c').
  - destruct (kChildren node !! c') as [child|] eqn:Hchild.
    + cbn [kTrieAt kChildren].
      destruct (decide (c = c')) as [->|Hne].
      * rewrite lookup_insert_eq, IH, Hchild.
        destruct (decide (rest = rest')) as [->|Hrest].
        -- by rewrite decide_True.
        -- by rewrite decide_False by congruence.
      * rewrite lookup_insert_ne by done.
        by rewrite decide_False by congruence.
    + cbn [kTrieAt].
      destruct (decide (String c rest = String c' rest')) as [[= -> ->]|Hne];
        [|done].
      by rewrite Hchild.
Qed.

Lemma kEndAt_update key update : forall path node,
  kEndAt path (updateValueTrieAt key update node) = kEndAt path node.
Proof.
  induction key as [|c' rest' IH]; intros [|c rest] node;
    cbn [updateValueTrieAt kEndAt kChildren isEndOfKey]; try done.
  - by destruct (kChildren node !! c').
  - destruct (kChildren node !! c') as [child|] eqn:Hchild; [|done].
    cbn [kEndAt kChildren].
    destruct (decide (c = c')) as [->|Hne].
    + by rewrite lookup_insert_eq, IH, Hchild.
    + by rewrite lookup_insert_ne.
Qed.

Lemma searchExactKeyAt_reads path : forall node,
  searchExactKeyAt path node
  = if kEndAt path node then kTrieAt path node else None.
Proof.
  induction path as [|c rest IH]; intros node; cbn; [done|].
  destruct (kChildren node !! c); [apply IH|done].
Qed.

Lemma holds_new : holds [] (newKeyTrie false).
Proof.
  split; [done|]. intros key. cbn [kRoot newKeyTrie].
  rewrite kTrieAt_new. intros value objectId Hin.
  by apply elem_of_nil in Hin.
Qed.

Lemma holds_indexRecord records t key value objectId :
  holds records t ->
  holds (records ++ [(key, value, objectId)])
        (indexRecord false key value objectId t).
Proof.
  intros [Hmode Hkeys]. split; [done|].
  intros key0. specialize (Hkeys key0).
  unfold indexRecord, updateValueTrie, insertKeyOnly.
  cbn [kRoot kSuffixMode Cpp.empty].
  rewrite kTrieAt_update, kEndAt_update, kTrieAt_insert, kEndAt_insert.
  rewrite Hmode.
  destruct (decide (key0 = key)) as [->|Hne].
  - cbn [fmap option_fmap option_map].
    split; [done|]. intros value0.
    unfold insertValue. cbn [vRoot Cpp.empty].
    rewrite vIdsAt_insert, vEndAt_insert.
    assert (forall objectId0,
      objectId0 ∈ vIdsAt value0
        (vRoot (default (newValueTrie false) (kTrieAt key (kRoot t))))
      <-> (key, value0, objectId0) ∈ records) as Hold.
    { intros objectId0.
      destruct (kTrieAt key (kRoot t)) as [vt|].
      - rewrite default_Some. apply Hkeys.
      - rewrite default_None. cbn [vRoot newValueTrie].
        rewrite vIdsAt_new. split; [by intros ?%elem_of_empty|].
        intros Hin. by apply Hkeys in Hin. }
    assert (vEndAt value0
              (vRoot (default (newValueTrie false) (kTrieAt key (kRoot t))))
            = false ->
            vIdsAt value0
              (vRoot (default (newValueTrie false) (kTrieAt key (kRoot t))))
            = ∅) as Hclean.
    { destruct (kTrieAt key (kRoot t)) as [vt|].
      - rewrite default_Some. apply Hkeys.
      - rewrite default_None. cbn [vRoot newValueTrie].
        intros _. apply vIdsAt_new. }
    split.
    + intros objectId0. rewrite elem_of_app, list_elem_of_singleton.
      destruct (decide (value0 = value)) as [->|Hv].
      * rewrite elem_of_union, elem_of_singleton, Hold.
        split; [intros [->|?]; [by right|by left]|].
        intros [?|[= ->]]; [by right|by left].
      * rewrite Hold. split; [by left|].
        intros [?|[= ? ?]]; [done|congruence].
    + destruct (decide (value0 = value)) as [->|Hv]; [done|].
      apply Hclean.
  - destruct (kTrieAt key0 (kRoot t)) as [vt|].
    + destruct Hkeys as [Hend Hvalues]. split; [done|].
      intros value0. destruct (Hvalues value0) as [Hids Hclean].
      split; [|done].
      intros objectId0. rewrite Hids, elem_of_app, list_elem_of_singleton.
      split; [by left|]. intros [?|[= ? ? ?]]; [done|congruence].
    + intros value0 objectId0
        [Hin|[= ? ? ?]%list_elem_of_singleton]%elem_of_app;
        [by apply Hkeys in Hin|congruence].
Qed.

Lemma afterRecords_holds records :
  useSuffixTreeMode (client (afterRecords false records)) = false /\
  holds records (keyTrie (client (afterRecords false records))).
Proof.
  unfold afterRecords.
  induction records as [|r records IH] using rev_ind.
  - split; [done|]. apply holds_new.
  - rewrite foldl_snoc. destruct IH as [Hmode Hholds].
    destruct r as [[key value] objectId].
    cbn [create_md_index client keyTrie useSuffixTreeMode fst snd].
    rewrite Hmode. split; [done|]. by apply holds_indexRecord.
Qed.

(** X23: Without suffix-tree mode, a query whose key part and value part are
    both exact returns what the scan of all indexed records returns: the
    ids recorded with that very key and that very value, in ascending
    order. *)
Theorem exact_query_is_the_scan (records : list (string * string * Z))
    (queryStr : string) :
  Query.shapeOf (Cpp.keyPortion queryStr) = Query.EXACT ->
  Query.shapeOf (Cpp.valuePortion queryStr) = Query.EXACT ->
  md_search queryStr (client (afterRecords false records))
  = BruteForce.scan records queryStr.
Proof.
  intros Hkey Hvalue.
  destruct (afterRecords_holds records) as [_ [_ Hkeys]].
  unfold md_search, parseQueryCondition, search, BruteForce.scan.
  cbn [keyType keyPart valueType valuePart].
  rewrite Hkey, Hvalue. cbn [Query.tokenOf valueTriesFor valueResults].
  set (key := Cpp.keyPortion queryStr) in *.
  set (value := Cpp.valuePortion queryStr) in *.
  f_equal. apply set_eq. intros objectId.
  rewrite elem_of_list_to_set, list_elem_of_In, in_map_iff.
  assert ((exists r : string * string * Z,
             r.2 = objectId /\
             In r (filter (fun r => BruteForce.matches queryStr r) records))
          <-> (key, value, objectId) ∈ records) as ->.
  { split.
    - intros ([[k v] i] & Hi & Hin). cbn in Hi. subst i.
      apply list_elem_of_In, list_elem_of_filter in Hin as [Hm Hin].
      unfold BruteForce.matches in Hm. fold key value in Hm.
      rewrite Hkey, Hvalue in Hm. cbn in Hm.
      apply andb_prop_elim in Hm as [Hk Hv].
      apply Is_true_true in Hk, Hv.
      apply String.eqb_eq in Hk, Hv. by subst.
    - intros Hin. exists (key, value, objectId). split; [done|].
      apply list_elem_of_In, list_elem_of_filter. split; [|done].
      unfold BruteForce.matches. fold key value.
      rewrite Hkey, Hvalue. cbn. by rewrite !String.eqb_refl. }
  unfold searchExactKey. rewrite searchExactKeyAt_reads.
  specialize (Hkeys key).
  destruct (kTrieAt key _) as [vt|].
  - destruct Hkeys as [-> Hvalues]. cbn [foldl].
    destruct (Hvalues value) as [Hids Hclean].
    unfold searchExactValue. rewrite searchExactValueAt_reads.
    rewrite elem_of_union, <- Hids.
    destruct (vEndAt value (vRoot vt)).
    + split; [intros [?|?%elem_of_empty]; done|by left].
    + rewrite Hclean by done. split; [intros [?|?]; done|done].
  - destruct (kEndAt key _); cbn [foldl].
    + split; [by intros ?%elem_of_empty|]. intros Hin. by apply Hkeys in Hin.
    + split; [by intros ?%elem_of_empty|]. intros Hin. by apply Hkeys in Hin.
Qed.

Lemma exact_query_is_the_scan_witness :
  md_search "StageX=300.00"
    (client (afterRecords false
               [("StageX", "300.00", 1001); ("StageY", "300.00", 1002)]))
  = BruteForce.scan
      [("StageX", "300.00", 1001); ("StageY", "300.00", 1002)]
      "StageX=300.00".
Proof. apply exact_query_is_the_scan; reflexivity. Defined.

End ExactLookup.

(* ===================================================================== *)
(** * The result vectors *)
(* ===================================================================== *)

Section ResultVectors.

Lemma ascending_without_repetition (l : list Z) :
  StronglySorted Z.le l -> NoDup l -> StronglySorted Z.lt l.
Proof.
  induction 1 as [|x l Hsorted IH Hall]; intros Hnd; [constructor|].
  apply NoDup_cons in Hnd as [Hx Hnd]. constructor; [by apply IH|].
  rewrite Forall_forall in *. intros y Hy.
  specialize (Hall y Hy). destruct (decide (x = y)) as [->|]; [done|lia].
Qed.

Lemma sortedVector_ascending (resultSet : gset Z) :
  StronglySorted Z.lt (Trie.sortedVector resultSet).
Proof.
  unfold Trie.sortedVector. apply ascending_without_repetition.
  - apply StronglySorted_merge_sort; apply _.
  - rewrite merge_sort_Permutation. apply NoDup_elements.
Qed.

Lemma elem_of_sortedVector (resultSet : gset Z) (x : Z) :
  x ∈ Trie.sortedVector resultSet <-> x ∈ resultSet.
Proof.
  unfold Trie.sortedVector.
  by rewrite merge_sort_Permutation, elem_of_elements.
Qed.

Lemma sortedVector_set (resultSet : gset Z) :
  list_to_set (Trie.sortedVector resultSet) = resultSet.
Proof.
  apply set_eq. intros x.
  by rewrite elem_of_list_to_set, elem_of_sortedVector.
Qed.

(** X24: Whatever the query and whatever was indexed, the vector that
    [md_search] of the client and [executeQuery] of the two servers
    return is strictly ascending: no object is reported twice. *)
Theorem results_strictly_ascending (queryStr : string)
    (c : Trie.IdiomsClient) (s : TrieServer.DistributedIdiomsServer)
    (d : DemoServer.DistributedIdiomsServer) :
  StronglySorted Z.lt (Trie.md_search queryStr c) /\
  StronglySorted Z.lt (TrieServer.executeQuery queryStr s) /\
  StronglySorted Z.lt (DemoServer.executeQuery queryStr d).
Proof. repeat split; apply sortedVector_ascending. Qed.

End ResultVectors.

(* ===================================================================== *)
(** * The demo server: what a query returns *)
(* ===================================================================== *)

Section DemoServerAnswers.

Import DemoServer.

Lemma elem_of_executeQuery query s objectId :
  objectId ∈ executeQuery query s
  <-> exists key value,
        (key, value) ∈ default [] (objectMetadata s !! objectId) /\
        patternMatch (patternOf (Cpp.keyPortion query)) key = true /\
        patternMatch (patternOf (Cpp.valuePortion query)) value = true.
Proof.
  unfold executeQuery. rewrite elem_of_sortedVector.
  set (kp := patternOf (Cpp.keyPortion query)).
  set (vp := patternOf (Cpp.valuePortion query)).
  assert (forall m : Trie.Metadata,
    objectId ∈ map_fold
      (fun objectId metadata (resultSet : gset Z) =>
         if objectMatches kp vp metadata
         then {[objectId]} ∪ resultSet else resultSet) ∅ m
    <-> exists metadata,
          m !! objectId = Some metadata /\
          objectMatches kp vp metadata = true) as Hfold.
  { intros m. apply (map_fold_weak_ind (fun r m =>
      objectId ∈ r <-> exists metadata,
        m !! objectId = Some metadata /\
        objectMatches kp vp metadata = true)).
    - split; [by intros ?%elem_of_empty|].
      intros (metadata & Hlookup & _). by rewrite lookup_empty in Hlookup.
    - intros i x m' r Hfresh IH.
      destruct (decide (objectId = i)) as [->|Hne].
      + destruct (objectMatches kp vp x) eqn:Hx.
        * split; [|intros _; apply elem_of_union_l; by apply elem_of_singleton].
          intros _. exists x. by rewrite lookup_insert_eq.
        * rewrite IH. split.
          -- intros (metadata & Hlookup & _). congruence.
          -- intros (metadata & Hlookup & Hm).
             rewrite lookup_insert_eq in Hlookup. congruence.
      + rewrite lookup_insert_ne by done.
        destruct (objectMatches kp vp x); [|done].
        rewrite elem_of_union, elem_of_singleton, IH.
        split; [intros [?|?]; done|by right]. }
  rewrite Hfold. unfold objectMatches. split.
  - intros (metadata & -> & Hm).
    apply existsb_exists in Hm as ([key value] & Hin & Hboth).
    apply andb_true_iff in Hboth as [Hk Hv].
    exists key, value. split; [by apply list_elem_of_In|done].
  - intros (key & value & Hin & Hk & Hv).
    destruct (objectMetadata s !! objectId) as [metadata|];
      [|by apply elem_of_nil in Hin].
    exists metadata. split; [done|].
    apply existsb_exists. exists (key, value).
    split; [by apply list_elem_of_In|]. cbn. by rewrite Hk, Hv.
Qed.

Lemma elem_of_track_metadata objectId key value m objectId0 key0 value0 :
  (key0, value0) ∈
    default [] (Trie.track_metadata objectId key value m !! objectId0)
  <-> (key0, value0) ∈ default [] (m !! objectId0) \/
      (key0, value0, objectId0) = (key, value, objectId).
Proof.
  unfold Trie.track_metadata.
  destruct (decide (objectId0 = objectId)) as [->|Hne].
  - rewrite lookup_insert_eq, default_Some, elem_of_app,
      list_elem_of_singleton.
    split; (intros [?|Heq]; [by left|right; congruence]).
  - rewrite lookup_insert_ne by done.
    split; [by left|]. intros [?|?]; [done|congruence].
Qed.

(** One server that was given every record holds every record. *)
Lemma afterInserts_metadata id records key value objectId :
  (key, value) ∈
    default [] (objectMetadata (afterInserts id records) !! objectId)
  <-> (key, value, objectId) ∈ records.
Proof.
  unfold afterInserts.
  induction records as [|[[k v] i] records IH] using rev_ind.
  - cbn. rewrite lookup_empty. cbn. by rewrite !elem_of_nil.
  - rewrite foldl_snoc. cbn [addIndexedKey objectMetadata fst snd].
    rewrite elem_of_track_metadata, IH, elem_of_app, list_elem_of_singleton.
    done.
Qed.

(** The two ladders agree on what the key part asks for, as long as it
    is exact, a prefix or the wildcard. *)
Lemma exact_pattern part key :
  Query.shapeOf part = Query.EXACT ->
  patternMatch (patternOf part) key = String.eqb key part.
Proof.
  unfold Query.shapeOf, patternOf, patternMatch.
  cbn [isWildcard hasInfix hasPrefix hasSuffixStar token].
  destruct (String.eqb part "*"); [done|].
  destruct (Ascii.eqb (Cpp.front part) Cpp.star);
    destruct (Ascii.eqb (Cpp.back part) Cpp.star);
    destruct (2 <? String.length part)%nat; cbn [andb negb]; done.
Qed.

Lemma prefix_pattern part key :
  Query.shapeOf part = Query.PREFIX ->
  patternMatch (patternOf part) key
  = Cpp.starts_with key (Query.tokenOf Query.PREFIX part).
Proof.
  unfold Query.shapeOf, patternOf, patternMatch.
  cbn [isWildcard hasInfix hasPrefix hasSuffixStar token Query.tokenOf].
  destruct (String.eqb part "*") eqn:Hwild; [done|].
  apply String.eqb_neq in Hwild.
  destruct (Ascii.eqb (Cpp.front part) Cpp.star) eqn:Hfront.
  { destruct (Ascii.eqb (Cpp.back part) Cpp.star);
      destruct (2 <? String.length part)%nat; cbn [andb]; done. }
  destruct (Ascii.eqb (Cpp.back part) Cpp.star) eqn:Hback; cbn [andb];
    [|done].
  intros _.
  pose proof (back_star_nonempty part Hback) as Hlen.
  assert ((1 <? String.length part)%nat = true) as ->.
  { apply Nat.ltb_lt.
    destruct (decide (String.length part = 1%nat)) as [Hone|]; [|lia].
    exfalso. by apply Hwild, back_star_one. }
  done.
Qed.

Lemma wildcard_pattern part key :
  Query.shapeOf part = Query.WILDCARD ->
  patternMatch (patternOf part) key = true.
Proof.
  unfold Query.shapeOf, patternOf, patternMatch. cbn [isWildcard].
  destruct (String.eqb part "*"); [done|].
  destruct (_ && _ && _); [done|].
  destruct (Ascii.eqb (Cpp.front part) Cpp.star); [done|].
  by destruct (Ascii.eqb (Cpp.back part) Cpp.star).
Qed.

(** X25: Outside of the two-star key pattern, [canHandleQuery] and
    [executeQuery] of the demo server agree: on every state reached by
    [addIndexedKey] calls, a query that [canHandleQuery] declines gets
    the empty vector from [executeQuery]. *)
Theorem demo_server_declined_is_empty (id : Z)
    (records : list (string * string * Z)) (query : string) :
  Cpp.keyPortion query <> "**" ->
  canHandleQuery query (afterInserts id records) = false ->
  executeQuery query (afterInserts id records) = [].
Proof.
  intros Hstars Hdeclined.
  pose proof (afterInserts_consistent id records) as Hconsistent.
  apply executeQuery_nothing. intros objectId metadata Hlookup.
  unfold objectMatches.
  destruct (existsb _ metadata) eqn:Hsome; [|done].
  apply existsb_exists in Hsome as (entry & Hentry & Hmatch).
  apply list_elem_of_In in Hentry.
  rewrite (declined_key_matches_nothing query _ entry.1
             Hconsistent Hstars Hdeclined) in Hmatch; [done|].
  by eapply (proj2 Hconsistent).
Qed.

Lemma demo_server_declined_is_empty_witness :
  executeQuery "Stage*=*" (afterInserts 0 [("Run", "7", 1)]) = [].
Proof.
  apply demo_server_declined_is_empty; [by vm_compute|by vm_compute].
Defined.

End DemoServerAnswers.

(* ===================================================================== *)
(** * The trie-backed server: the tests and the removal *)
(* ===================================================================== *)

Section TrieServerTests.

Import TrieServer.

Lemma kSuffixMode_indexRecord mode key value objectId t :
  Trie.kSuffixMode (Trie.indexRecord mode key value objectId t)
  = Trie.kSuffixMode t.
Proof.
  unfold Trie.indexRecord. destruct mode; cbn [Trie.updateValueTrie
    Trie.kSuffixMode]; [|done].
  by rewrite insertKeyWithSuffixMode_paths.
Qed.

Lemma afterInserts_returns id dir mode records :
  exists s,
    afterInserts id dir mode records = Some s /\
    indexMutex s = false /\
    useSuffixTreeMode s = Trie.kSuffixMode (keyTrie s).
Proof.
  unfold afterInserts.
  induction records as [|[[k v] i] records IH] using rev_ind.
  - by eexists.
  - rewrite foldl_snoc. destruct IH as (s & -> & Hfree & Hmode).
    cbn [mbind option_bind fst snd]. unfold addIndexedKey, lock.
    rewrite Hfree. cbn [mbind option_bind]. eexists. split; [reflexivity|].
    split; [done|].
    cbn [unlock set_mutex useSuffixTreeMode keyTrie].
    by rewrite kSuffixMode_indexRecord.
Qed.

Lemma search_nothing valueShape valueToken keyShape keyToken t :
  Trie.valueTriesFor keyShape keyToken t = [] ->
  Trie.search keyShape keyToken valueShape valueToken t = [].
Proof.
  intros Hnone. unfold Trie.search. rewrite Hnone. cbn [foldl].
  unfold Trie.sortedVector. by rewrite elements_empty.
Qed.

Lemma nonEmpty_false {A} (l : list A) : nonEmpty l = false -> l = [].
Proof. by destruct l. Qed.

(** X26: On the trie-backed server the two methods agree for every query,
    the two-star pattern included: after any sequence of [addIndexedKey]
    calls, a query that [canHandleQuery] declines gets the empty vector
    from [executeQuery]. *)
Theorem trie_server_declined_is_empty (id : Z) (dir : string) (mode : bool)
    (records : list (string * string * Z))
    (s : DistributedIdiomsServer) (query : string) :
  afterInserts id dir mode records = Some s ->
  canHandleQuery query s = false ->
  executeQuery query s = [].
Proof.
  intros Hs Hdeclined.
  destruct (afterInserts_returns id dir mode records) as (s' & Hs' & _ & Hmode).
  rewrite Hs in Hs'. injection Hs' as <-.
  unfold executeQuery. apply search_nothing.
  unfold canHandleQuery in Hdeclined.
  destruct (Query.shapeOf (Cpp.keyPortion query));
    cbn [Trie.valueTriesFor].
  - done.
  - by apply nonEmpty_false.
  - unfold hasSuffix in Hdeclined. unfold Trie.searchKeySuffix in *.
    rewrite Hmode in Hdeclined.
    destruct (Trie.kSuffixMode (keyTrie s)); [|done].
    by apply nonEmpty_false.
  - by apply nonEmpty_false.
  - unfold hasKey in Hdeclined.
    by destruct (Trie.searchExactKey _ _).
Qed.

Lemma trie_server_declined_is_empty_witness :
  executeQuery "b*" starServer = [].
Proof.
  apply (trie_server_declined_is_empty 0 "data" true [("*a", "v", 1)]);
    by vm_compute.
Defined.



End TrieServerTests.

(* ===================================================================== *)
(** * The client of the demo servers *)
(* ===================================================================== *)

Section SendAndCollect.

Import DemoClient.

Lemma addIndexedKey_added key value objectId s :
  added key value objectId s (DemoServer.addIndexedKey key value objectId s).
Proof.
  split; cbn [DemoServer.addIndexedKey DemoServer.objectMetadata
              DemoServer.indexedKeys].
  - intros key0 value0 objectId0. apply elem_of_track_metadata.
  - intros key0. by rewrite elem_of_app, list_elem_of_singleton.
Qed.

Lemma added_twice key value objectId s s1 s2 :
  added key value objectId s s1 -> added key value objectId s1 s2 ->
  added key value objectId s s2.
Proof.
  intros [Hm1 Hk1] [Hm2 Hk2]. split.
  - intros key0 value0 objectId0. rewrite Hm2, Hm1. tauto.
  - intros key0. rewrite Hk2, Hk1. tauto.
Qed.

Lemma serverOf_valid (d : Z) {A} (ss : list A) :
  0 <= d < Z.of_nat (length ss) -> is_Some (ss !! Z.to_nat d).
Proof. intros Hd. apply lookup_lt_is_Some. lia. Qed.

(** The loop of [create_md_index] over server ids that the vector has. *)
Lemma sendLoop key value objectId (ids : list Z) : forall ss,
  Forall (fun d => 0 <= d < Z.of_nat (length ss)) ids ->
  exists ss',
    foldl (sendRecord key value objectId) (Some ss) ids = Some ss' /\
    length ss' = length ss /\
    forall (j : nat) s, ss !! j = Some s ->
      exists s',
        ss' !! j = Some s' /\
        (Z.of_nat j ∈ ids -> added key value objectId s s') /\
        (Z.of_nat j ∉ ids -> s' = s).
Proof.
  induction ids as [|d ids IH]; intros ss Hvalid.
  - exists ss. split; [done|]. split; [done|].
    intros j s Hs. exists s. split; [done|].
    split; [by intros ?%elem_of_nil|done].
  - apply Forall_cons in Hvalid as [Hd Hvalid].
    destruct (serverOf_valid d ss Hd) as [sd Hsd].
    cbn [foldl]. unfold sendRecord at 2, serverOf.
    cbn [mbind option_bind]. rewrite decide_True by lia.
    rewrite Hsd. cbn [mbind option_bind].
    set (ss1 := <[Z.to_nat d := _]> ss).
    assert (length ss1 = length ss) as Hlen by apply length_insert.
    destruct (IH ss1) as (ss' & Hloop & Hlen' & Hservers).
    { by rewrite Hlen. }
    exists ss'. split; [done|]. split; [lia|].
    intros j s Hs.
    destruct (decide (j = Z.to_nat d)) as [->|Hne].
    + assert (s = sd) as -> by congruence.
      destruct (Hservers (Z.to_nat d)
                  (DemoServer.addIndexedKey key value objectId sd))
        as (s' & Hs' & Hin & Hout).
      { apply list_lookup_insert_eq. by eapply lookup_lt_Some. }
      exists s'. split; [done|]. split.
      * intros _. destruct (decide (Z.of_nat (Z.to_nat d) ∈ ids)) as [Hi|Hi].
        -- eapply added_twice; [apply addIndexedKey_added|by apply Hin].
        -- rewrite (Hout Hi). apply addIndexedKey_added.
      * intros Hnot. exfalso. apply Hnot.
        rewrite Z2Nat.id by lia. apply list_elem_of_here.
    + destruct (Hservers j s) as (s' & Hs' & Hin & Hout).
      { unfold ss1. by rewrite list_lookup_insert_ne. }
      exists s'. split; [done|]. split.
      * intros [Hjd|Hi]%elem_of_cons; [lia|by apply Hin].
      * intros Hnot. apply Hout. intros Hi. apply Hnot.
        by apply list_elem_of_further.
Qed.

(** The loop of [md_search]. *)
Lemma collectLoop queryStr ss (dests : list Z) : forall acc,
  Forall (fun d => 0 <= d < Z.of_nat (length ss)) dests ->
  exists resultSet,
    foldl (collect queryStr ss) (Some acc) dests = Some resultSet /\
    forall objectId,
      objectId ∈ resultSet
      <-> objectId ∈ acc \/
          exists d s,
            d ∈ dests /\ ss !! Z.to_nat d = Some s /\
            DemoServer.canHandleQuery queryStr s = true /\
            objectId ∈ DemoServer.executeQuery queryStr s.
Proof.
  induction dests as [|d dests IH]; intros acc Hvalid.
  - exists acc. split; [done|]. intros objectId. split; [by left|].
    intros [?|(d & s & Hd & _)]; [done|by apply elem_of_nil in Hd].
  - apply Forall_cons in Hvalid as [Hd Hvalid].
    destruct (serverOf_valid d ss Hd) as [sd Hsd].
    cbn [foldl]. unfold collect at 2, serverOf.
    cbn [mbind option_bind]. rewrite decide_True by lia.
    rewrite Hsd. cbn [mbind option_bind].
    destruct (IH (if DemoServer.canHandleQuery queryStr sd
                  then list_to_set (DemoServer.executeQuery queryStr sd) ∪ acc
                  else acc) Hvalid) as (resultSet & Hloop & Hel).
    exists resultSet. split; [done|].
    intros objectId. rewrite Hel. split.
    + intros [Hacc|(d' & s & Hd' & Hs & Hcan & Hin)].
      * destruct (DemoServer.canHandleQuery queryStr sd) eqn:Hcan;
          [|by left].
        apply elem_of_union in Hacc as [Hnew|?]; [|by left].
        right. exists d, sd. split; [apply list_elem_of_here|].
        split; [done|]. split; [done|].
        by apply elem_of_list_to_set in Hnew.
      * right. exists d', s. split; [by apply list_elem_of_further|done].
    + intros [Hacc|(d' & s & [->|Hd']%elem_of_cons & Hs & Hcan & Hin)].
      * left. destruct (DemoServer.canHandleQuery queryStr sd); [|done].
        by apply elem_of_union_r.
      * left. assert (s = sd) as -> by congruence. rewrite Hcan.
        by apply elem_of_union_l, elem_of_list_to_set.
      * right. by exists d', s.
Qed.

End SendAndCollect.

Section DistributedSearch.

Import DemoClient.

(** The router of the client, and what the proofs use of it. *)
Variable n : Z.
Variable r : Dart.DARTRouter.

Hypothesis servers_exist : 1 <= n.
Hypothesis router_built : Dart.newRouter n (1 / 10) = r.

Lemma key_servers key :
  exists serverIds,
    Dart.getServersForKey r key = Some serverIds /\
    primaryServer r key ∈ serverIds /\
    Forall (Dart.validServer n) serverIds.
Proof.
  rewrite <- router_built.
  destruct (getServersForKey_replicas_aux Dart.DART_CPP n (1 / 10) key
              servers_exist (replicationFactor_default Dart.DART_CPP n))
    as (serverIds & Hsome & Hhead & _ & Hvalid & _).
  exists serverIds. split; [done|]. split; [|done].
  unfold primaryServer. by apply head_Some_elem_of.
Qed.

Lemma query_servers queryStr :
  exists dests,
    Dart.getDestinationServers r queryStr = Some dests /\
    Forall (Dart.validServer n) dests.
Proof.
  rewrite <- router_built.
  destruct (destination_servers Dart.DART_CPP n (1 / 10) queryStr
              servers_exist (replicationFactor_default Dart.DART_CPP n))
    as (dests & Hsome & _ & _ & Hvalid).
  by exists dests.
Qed.

Lemma valid_index (ss : list DemoServer.DistributedIdiomsServer)
    (ids : list Z) :
  length ss = Z.to_nat n -> Forall (Dart.validServer n) ids ->
  Forall (fun d => 0 <= d < Z.of_nat (length ss)) ids.
Proof.
  intros Hlen Hvalid. eapply Forall_impl; [exact Hvalid|].
  intros d Hd. unfold Dart.validServer in Hd. lia.
Qed.

Lemma new_distributed mode :
  router (new n mode) = r /\
  length (servers (new n mode)) = Z.to_nat n /\
  distributed r [] (servers (new n mode)).
Proof.
  split; [exact router_built|].
  cbn [servers new]. split; [by rewrite length_fmap, length_seqZ|].
  intros j s Hs. apply list_lookup_fmap_Some in Hs as (i & -> & _).
  cbn [DemoServer.new DemoServer.objectMetadata DemoServer.indexedKeys].
  split.
  - intros key value objectId. rewrite lookup_empty, default_None.
    split; [by intros ?%elem_of_nil|]. intros [Hin _].
    by apply elem_of_nil in Hin.
  - intros key. split; [by intros ?%elem_of_nil|].
    intros (value & objectId & Hin).
    rewrite lookup_empty, default_None in Hin. by apply elem_of_nil in Hin.
Qed.

Lemma create_md_index_distributed records key value objectId c :
  router c = r -> length (servers c) = Z.to_nat n ->
  distributed r records (servers c) ->
  exists c',
    create_md_index key value objectId c = Some c' /\
    router c' = r /\
    length (servers c') = Z.to_nat n /\
    distributed r (records ++ [(key, value, objectId)]) (servers c').
Proof.
  intros Hrouter Hlen Hdist. unfold create_md_index. rewrite Hrouter.
  destruct (key_servers key) as (ids & Hids & _ & Hvalid).
  rewrite Hids. cbn [mbind option_bind].
  destruct (sendLoop key value objectId ids (servers c))
    as (ss' & -> & Hlen' & Hservers); [by apply valid_index|].
  cbn [mbind option_bind]. eexists. split; [reflexivity|].
  cbn [router servers]. split; [done|]. split; [lia|].
  intros j s' Hs'.
  destruct (lookup_lt_is_Some_2 (servers c) j) as [s Hs].
  { apply lookup_lt_Some in Hs'. lia. }
  destruct (Hservers j s Hs) as (s'' & Hs'' & Hin & Hout).
  assert (s'' = s') as -> by congruence.
  destruct (Hdist j s Hs) as [Hmeta Hkeys].
  destruct (decide (Z.of_nat j ∈ ids)) as [Hj|Hj].
  - destruct (Hin Hj) as [Hm Hk]. split.
    + intros key0 value0 objectId0.
      rewrite Hm, Hmeta, elem_of_app, list_elem_of_singleton. split.
      * intros [[Hrec Hrouted]|[= -> -> ->]]; [by split; [left|]|].
        split; [by right|]. by exists ids.
      * intros [[Hrec|Hnew] Hrouted]; [left; by split|by right].
    + intros key0. rewrite Hk, Hkeys. split.
      * intros [(value0 & objectId0 & Hin0)| ->].
        -- exists value0, objectId0. apply Hm. by left.
        -- exists value, objectId. apply Hm. by right.
      * intros (value0 & objectId0 & [Hold|[= -> _ _]]%Hm); [|by right].
        left. by exists value0, objectId0.
  - rewrite (Hout Hj). split; [|done].
    intros key0 value0 objectId0.
    rewrite Hmeta, elem_of_app, list_elem_of_singleton. split.
    + intros [Hrec Hrouted]. split; [by left|done].
    + intros [[Hrec|[= -> -> ->]] Hrouted]; [done|].
      destruct Hrouted as (ids' & Hids' & Hj').
      exfalso. apply Hj. congruence.
Qed.

Lemma afterRecords_distributed mode records :
  exists c,
    afterRecords n mode records = Some c /\
    router c = r /\
    length (servers c) = Z.to_nat n /\
    distributed r records (servers c).
Proof.
  unfold afterRecords.
  induction records as [|[[key value] objectId] records IH] using rev_ind.
  - eexists. split; [reflexivity|]. apply new_distributed.
  - rewrite foldl_snoc.
    destruct IH as (c & -> & Hrouter & Hlen & Hdist).
    cbn [mbind option_bind fst snd].
    by apply create_md_index_distributed.
Qed.

(** What [md_search] returns, server by server. *)
Lemma md_search_answers mode records queryStr :
  exists c dests result,
    afterRecords n mode records = Some c /\
    length (servers c) = Z.to_nat n /\
    distributed r records (servers c) /\
    Dart.getDestinationServers r queryStr = Some dests /\
    Forall (Dart.validServer n) dests /\
    md_search queryStr c = Some (Trie.sortedVector result) /\
    forall objectId,
      objectId ∈ result
      <-> exists d s,
            d ∈ dests /\ servers c !! Z.to_nat d = Some s /\
            DemoServer.canHandleQuery queryStr s = true /\
            objectId ∈ DemoServer.executeQuery queryStr s.
Proof.
  destruct (afterRecords_distributed mode records)
    as (c & Hc & Hrouter & Hlen & Hdist).
  destruct (query_servers queryStr) as (dests & Hdests & Hvalid).
  destruct (collectLoop queryStr (servers c) dests ∅)
    as (result & Hloop & Hel); [by apply valid_index|].
  exists c, dests, result.
  split; [done|]. split; [done|]. split; [done|]. split; [done|].
  split; [done|]. split.
  - unfold md_search. rewrite Hrouter, Hdests. cbn [mbind option_bind].
    rewrite Hloop. done.
  - intros objectId. rewrite Hel. split; [|by right].
    intros [?%elem_of_empty|?]; done.
Qed.

(** Every object that a server reports is reported by the one server
    that holds all records. *)
Lemma server_answer_sound records (j : nat) s queryStr objectId ss :
  distributed r records ss -> ss !! j = Some s ->
  objectId ∈ DemoServer.executeQuery queryStr s ->
  objectId ∈ DemoServer.executeQuery queryStr
               (DemoServer.afterInserts 0 records).
Proof.
  intros Hdist Hs (key & value & Hin & Hk & Hv)%elem_of_executeQuery.
  apply elem_of_executeQuery. exists key, value. split; [|done].
  apply afterInserts_metadata. by apply (Hdist j s Hs) in Hin as [Hrec _].
Qed.

(** The primary server of a record's key holds the record. *)
Lemma primary_holds records ss key value objectId :
  length ss = Z.to_nat n -> distributed r records ss ->
  (key, value, objectId) ∈ records ->
  0 <= primaryServer r key /\
  exists s,
    ss !! Z.to_nat (primaryServer r key) = Some s /\
    (key, value) ∈ default [] (DemoServer.objectMetadata s !! objectId) /\
    key ∈ DemoServer.indexedKeys s.
Proof.
  intros Hlen Hdist Hrec.
  destruct (key_servers key) as (ids & Hids & Hprimary & Hvalid).
  rewrite Forall_forall in Hvalid.
  pose proof (Hvalid _ Hprimary) as Hrange. unfold Dart.validServer in Hrange.
  split; [lia|].
  destruct (lookup_lt_is_Some_2 ss (Z.to_nat (primaryServer r key)))
    as [s Hs]; [lia|].
  exists s. split; [done|].
  destruct (Hdist _ s Hs) as [Hmeta Hkeys].
  assert ((key, value) ∈
            default [] (DemoServer.objectMetadata s !! objectId)) as Hin.
  { apply Hmeta. split; [done|]. exists ids. split; [done|].
    by rewrite Z2Nat.id by lia. }
  split; [done|]. apply Hkeys. by exists value, objectId.
Qed.

Lemma distributed_sound_aux mode records queryStr :
  exists c result,
    afterRecords n mode records = Some c /\
    md_search queryStr c = Some result /\
    forall objectId,
      objectId ∈ result ->
      objectId ∈ DemoServer.executeQuery queryStr
                   (DemoServer.afterInserts 0 records).
Proof.
  destruct (md_search_answers mode records queryStr)
    as (c & dests & result & Hc & _ & Hdist & _ & _ & Hsearch & Hel).
  exists c, (Trie.sortedVector result).
  split; [done|]. split; [done|].
  intros objectId (d & s & _ & Hs & _ & Hin)%elem_of_sortedVector%Hel.
  by eapply server_answer_sound.
Qed.

Lemma executeQuery_as_set queryStr s :
  DemoServer.executeQuery queryStr s
  = Trie.sortedVector (list_to_set (DemoServer.executeQuery queryStr s)).
Proof. unfold DemoServer.executeQuery. by rewrite sortedVector_set. Qed.

Lemma distributed_complete_aux mode records queryStr :
  Query.shapeOf (Cpp.keyPortion queryStr) <> Query.SUFFIX ->
  Query.shapeOf (Cpp.keyPortion queryStr) <> Query.INFIX ->
  exists c,
    afterRecords n mode records = Some c /\
    md_search queryStr c
    = Some (DemoServer.executeQuery queryStr
              (DemoServer.afterInserts 0 records)).
Proof.
  intros Hsuffix Hinfix.
  destruct (md_search_answers mode records queryStr)
    as (c & dests & result & Hc & Hlen & Hdist & Hdests & _ & Hsearch & Hel).
  exists c. split; [done|].
  rewrite Hsearch, executeQuery_as_set. do 2 f_equal.
  apply set_eq. intros objectId. rewrite elem_of_list_to_set. split.
  { intros (d & s & _ & Hs & _ & Hin)%Hel. by eapply server_answer_sound. }
  intros (key & value & Hrec%afterInserts_metadata & Hk & Hv)
    %elem_of_executeQuery.
  destruct (primary_holds records (servers c) key value objectId
              Hlen Hdist Hrec) as (Hpos & s & Hs & Hin & Hkey).
  apply Hel. exists (primaryServer r key), s.
  assert (objectId ∈ DemoServer.executeQuery queryStr s) as Hanswer.
  { apply elem_of_executeQuery. by exists key, value. }
  unfold DemoServer.canHandleQuery.
  unfold Dart.getDestinationServers in Hdests.
  destruct (Query.shapeOf (Cpp.keyPortion queryStr)) eqn:Hshape;
    [| done | done | |].
  - (* the wildcard: every server is asked *)
    injection Hdests as <-. split; [|done].
    unfold Dart.getServersForWildcardQuery, Dart.allServers.
    assert (Dart.routerServers r = n) as ->
      by (rewrite <- router_built; reflexivity).
    apply elem_of_seqZ.
    apply lookup_lt_Some in Hs. lia.
  - (* a prefix *)
    rewrite (prefix_pattern _ _ Hshape) in Hk.
    injection Hdests as <-. split.
    { unfold primaryServer. rewrite <- router_built.
      by apply (prefix_reaches_primary Dart.DART_CPP). }
    split; [done|]. split; [|done].
    apply existsb_exists. exists key. split; [by apply list_elem_of_In|done].
  - (* an exact key *)
    rewrite (exact_pattern _ _ Hshape) in Hk.
    apply String.eqb_eq in Hk. subst key.
    destruct (key_servers (Cpp.keyPortion queryStr))
      as (ids & Hids & Hprimary & _).
    assert (dests = ids) as -> by congruence.
    split; [done|]. split; [done|]. split; [|done].
    unfold DemoServer.hasKey. apply existsb_exists.
    exists (Cpp.keyPortion queryStr).
    split; [by apply list_elem_of_In|apply String.eqb_refl].
Qed.

End DistributedSearch.

Section DistributedSearchTheorems.

Import DemoClient.

(** X28: On a client with [n >= 1] servers every call of [create_md_index]
    and of [md_search] returns, and whatever the query, [md_search]
    reports only objects that one server holding all the records would
    report for it. *)
Theorem distributed_search_sound (n : Z) (mode : bool)
    (records : list (string * string * Z)) (queryStr : string) :
  1 <= n ->
  exists c result,
    afterRecords n mode records = Some c /\
    md_search queryStr c = Some result /\
    forall objectId,
      objectId ∈ result ->
      objectId ∈ DemoServer.executeQuery queryStr
                   (DemoServer.afterInserts 0 records).
Proof.
  intros Hn.
  exact (distributed_sound_aux n _ Hn eq_refl mode records queryStr).
Qed.

Lemma distributed_search_sound_witness :
  exists c result,
    afterRecords 3 false [("StageX", "300.00", 1001)] = Some c /\
    md_search "*eX=*" c = Some result /\
    forall objectId,
      objectId ∈ result ->
      objectId ∈ DemoServer.executeQuery "*eX=*"
                   (DemoServer.afterInserts 0 [("StageX", "300.00", 1001)]).
Proof. apply distributed_search_sound. lia. Defined.

(** X29: For a query whose key part is exact, a prefix or the wildcard, the
    client with [n >= 1] servers returns exactly the vector that one
    server holding all the records returns: the routing loses no
    record. *)
Theorem distributed_search_complete (n : Z) (mode : bool)
    (records : list (string * string * Z)) (queryStr : string) :
  1 <= n ->
  Query.shapeOf (Cpp.keyPortion queryStr) <> Query.SUFFIX ->
  Query.shapeOf (Cpp.keyPortion queryStr) <> Query.INFIX ->
  exists c,
    afterRecords n mode records = Some c /\
    md_search queryStr c
    = Some (DemoServer.executeQuery queryStr
              (DemoServer.afterInserts 0 records)).
Proof.
  intros Hn.
  exact (distributed_complete_aux n _ Hn eq_refl mode records queryStr).
Qed.

Lemma distributed_search_complete_witness :
  exists c,
    afterRecords 3 false [("StageX", "300.00", 1001)] = Some c /\
    md_search "Stage*=3*" c
    = Some (DemoServer.executeQuery "Stage*=3*"
              (DemoServer.afterInserts 0 [("StageX", "300.00", 1001)])).
Proof.
  apply distributed_search_complete; [lia|by vm_compute|by vm_compute].
Defined.

End DistributedSearchTheorems.

(* ===================================================================== *)
(** * The checkpoint of the demo server, written and read back *)
(* ===================================================================== *)

Section CheckpointText.

Lemma append_cons c s t : String c s +:+ t = String c (s +:+ t).
Proof. reflexivity. Qed.

Lemma append_nil_l t : "" +:+ t = t.
Proof. reflexivity. Qed.

Lemma append_nil_r t : t +:+ "" = t.
Proof. induction t as [|x t IH]; [done|]. by rewrite append_cons, IH. Qed.

Lemma append_assoc a b c : (a +:+ b) +:+ c = a +:+ b +:+ c.
Proof.
  induction a as [|x a IH]; [done|]. by rewrite !append_cons, IH.
Qed.

Lemma writeLines_from acc lines :
  foldl (fun out line => out +:+ line +:+ Stream.endl) acc lines
  = acc +:+ DemoRecovery.writeLines lines.
Proof.
  unfold DemoRecovery.writeLines. revert acc.
  induction lines as [|line lines IH]; intros acc; cbn [foldl].
  - by rewrite append_nil_r.
  - rewrite IH, (IH ("" +:+ line +:+ Stream.endl)).
    by rewrite append_nil_l, !append_assoc.
Qed.

Lemma writeLines_cons line lines :
  DemoRecovery.writeLines (line :: lines)
  = line +:+ Stream.endl +:+ DemoRecovery.writeLines lines.
Proof.
  unfold DemoRecovery.writeLines at 1. cbn [foldl].
  by rewrite writeLines_from, append_nil_l, append_assoc.
Qed.

Lemma writeMetadata_from acc metadata :
  foldl (fun out (entry : string * string) =>
           out +:+ entry.1 +:+ Stream.endl +:+ entry.2 +:+ Stream.endl)
        acc metadata
  = acc +:+ TrieServer.writeMetadata metadata.
Proof.
  unfold TrieServer.writeMetadata. revert acc.
  induction metadata as [|entry metadata IH]; intros acc; cbn [foldl].
  - by rewrite append_nil_r.
  - rewrite IH, (IH ("" +:+ _)).
    by rewrite append_nil_l, !append_assoc.
Qed.

Lemma writeMetadata_cons (entry : string * string) metadata :
  TrieServer.writeMetadata (entry :: metadata)
  = entry.1 +:+ Stream.endl +:+ entry.2 +:+ Stream.endl
    +:+ TrieServer.writeMetadata metadata.
Proof.
  unfold TrieServer.writeMetadata at 1. cbn [foldl].
  by rewrite writeMetadata_from, append_nil_l, !append_assoc.
Qed.

Lemma writeObjects_from acc objects :
  foldl (fun out (object : Z * list (string * string)) =>
           out +:+ Cpp.to_string object.1 +:+ " "
               +:+ Cpp.to_string (Z.of_nat (length object.2))
               +:+ Stream.endl +:+ TrieServer.writeMetadata object.2)
        acc objects
  = acc +:+ TrieServer.writeObjects objects.
Proof.
  unfold TrieServer.writeObjects. revert acc.
  induction objects as [|object objects IH]; intros acc; cbn [foldl].
  - by rewrite append_nil_r.
  - rewrite IH, (IH ("" +:+ _)).
    by rewrite append_nil_l, !append_assoc.
Qed.

Lemma writeObjects_cons (object : Z * list (string * string)) objects :
  TrieServer.writeObjects (object :: objects)
  = Cpp.to_string object.1 +:+ " "
    +:+ Cpp.to_string (Z.of_nat (length object.2)) +:+ Stream.endl
    +:+ TrieServer.writeMetadata object.2
    +:+ TrieServer.writeObjects objects.
Proof.
  unfold TrieServer.writeObjects at 1. cbn [foldl].
  by rewrite writeObjects_from, append_nil_l, !append_assoc.
Qed.

End CheckpointText.

Section CheckpointParse.

Import Stream DemoRecovery.

Lemma splitLine_line line rest :
  lineSafe line = true ->
  splitLine (line +:+ endl +:+ rest) = (line, rest).
Proof.
  induction line as [|c line IH]; intros Hsafe.
  - reflexivity.
  - cbn [lineSafe] in Hsafe. apply andb_true_iff in Hsafe as [Hc Hline].
    apply negb_true_iff in Hc.
    rewrite append_cons. cbn [splitLine]. rewrite Hc, (IH Hline). done.
Qed.

Lemma getline_line line rest :
  lineSafe line = true ->
  getline {| unread := line +:+ endl +:+ rest; failed := false |}
  = (line, {| unread := rest; failed := false |}).
Proof.
  intros Hsafe. pose proof (splitLine_line line rest Hsafe) as Hsplit.
  unfold getline. cbn [failed unread].
  destruct (line +:+ endl +:+ rest) as [|c text] eqn:Htext.
  - by destruct line.
  - by rewrite Hsplit.
Qed.

Lemma ignore_char c text :
  ignore {| unread := String c text; failed := false |}
  = {| unread := text; failed := false |}.
Proof. reflexivity. Qed.

Lemma extractInt_skip c text :
  isSpace c = true ->
  extractInt {| unread := String c text; failed := false |}
  = extractInt {| unread := text; failed := false |}.
Proof.
  intros Hc. unfold extractInt. cbn [failed unread skipSpace].
  by rewrite Hc.
Qed.

Lemma readDigits_end rest acc seen :
  endsNumber rest -> readDigits rest acc seen = (acc, seen, rest).
Proof.
  destruct rest as [|c rest]; [done|]. cbn [endsNumber readDigits].
  by intros ->.
Qed.

Lemma readDigits_step c k rest acc seen :
  digitOf c = Some k ->
  readDigits (String c rest) acc seen = readDigits rest (acc * 10 + k) true.
Proof. intros Hc. cbn [readDigits]. by rewrite Hc. Qed.

Lemma readDigits_digits d : forall acc seen rest,
  endsNumber rest ->
  readDigits (NilEmpty.string_of_uint d +:+ rest) acc seen
  = (digitsValue d acc, seen || nonNil d, rest).
Proof.
  induction d as [|d IH|d IH|d IH|d IH|d IH|d IH|d IH|d IH|d IH|d IH];
    intros acc seen rest Hrest;
    cbn [NilEmpty.string_of_uint digitsValue nonNil];
    rewrite ?append_cons, ?append_nil_l.
  - rewrite readDigits_end by done. by rewrite orb_false_r.
  - rewrite (readDigits_step _ 0) by done.
    rewrite (IH _ _ _ Hrest). by rewrite orb_true_r.
  - rewrite (readDigits_step _ 1) by done.
    rewrite (IH _ _ _ Hrest). by rewrite orb_true_r.
  - rewrite (readDigits_step _ 2) by done.
    rewrite (IH _ _ _ Hrest). by rewrite orb_true_r.
  - rewrite (readDigits_step _ 3) by done.
    rewrite (IH _ _ _ Hrest). by rewrite orb_true_r.
  - rewrite (readDigits_step _ 4) by done.
    rewrite (IH _ _ _ Hrest). by rewrite orb_true_r.
  - rewrite (readDigits_step _ 5) by done.
    rewrite (IH _ _ _ Hrest). by rewrite orb_true_r.
  - rewrite (readDigits_step _ 6) by done.
    rewrite (IH _ _ _ Hrest). by rewrite orb_true_r.
  - rewrite (readDigits_step _ 7) by done.
    rewrite (IH _ _ _ Hrest). by rewrite orb_true_r.
  - rewrite (readDigits_step _ 8) by done.
    rewrite (IH _ _ _ Hrest). by rewrite orb_true_r.
  - rewrite (readDigits_step _ 9) by done.
    rewrite (IH _ _ _ Hrest). by rewrite orb_true_r.
Qed.

Lemma digitsValue_pos d : forall acc : positive,
  digitsValue d (Z.pos acc) = Z.pos (Pos.of_uint_acc d acc).
Proof.
  induction d as [|d IH|d IH|d IH|d IH|d IH|d IH|d IH|d IH|d IH|d IH];
    intros acc; cbn [digitsValue Pos.of_uint_acc]; [done|..];
    rewrite <- IH; f_equal; lia.
Qed.

Lemma digitsValue_zero d : digitsValue d 0 = Z.of_uint d.
Proof.
  unfold Z.of_uint.
  induction d as [|d IH|d IH|d IH|d IH|d IH|d IH|d IH|d IH|d IH|d IH];
    cbn [digitsValue Pos.of_uint]; [done|exact IH|..];
    apply digitsValue_pos.
Qed.

(** [file >> n] reads back what [file << n] wrote, when what follows is
    no digit. *)
Lemma extractInt_number z rest :
  endsNumber rest ->
  extractInt {| unread := Cpp.to_string z +:+ rest; failed := false |}
  = (z, {| unread := rest; failed := false |}).
Proof.
  intros Hrest. unfold Cpp.to_string.
  pose proof (DecimalZ.of_to z) as Hz.
  assert (match Z.to_int z with
          | Decimal.Pos d | Decimal.Neg d => d <> Decimal.Nil
          end) as Hnonnil.
  { destruct z; cbn [Z.to_int]; [done|apply DecimalPos.Unsigned.to_uint_nonnil..]. }
  destruct (Z.to_int z) as [d|d]; cbn [Z.of_int] in Hz;
    unfold NilZero.string_of_int, NilZero.string_of_uint.
  - assert (forall text,
      text = NilEmpty.string_of_uint d +:+ rest ->
      extractInt {| unread := text; failed := false |}
      = (z, {| unread := rest; failed := false |})) as Hparse.
    { intros text ->. unfold extractInt. cbn [failed unread].
      assert (skipSpace (NilEmpty.string_of_uint d +:+ rest)
              = NilEmpty.string_of_uint d +:+ rest) as ->.
      { destruct d; try done. }
      assert (match NilEmpty.string_of_uint d +:+ rest with
              | String "-"%char body => (true, body)
              | String "+"%char body => (false, body)
              | _ => (false, NilEmpty.string_of_uint d +:+ rest)
              end = (false, NilEmpty.string_of_uint d +:+ rest)) as ->.
      { destruct d; try done. }
      rewrite readDigits_digits by done.
      rewrite digitsValue_zero, Hz. cbn [orb].
      destruct d; done. }
    destruct d; try done; by apply Hparse.
  - assert (forall text,
      text = NilEmpty.string_of_uint d +:+ rest ->
      extractInt {| unread := String "-" text; failed := false |}
      = (z, {| unread := rest; failed := false |})) as Hparse.
    { intros text ->. unfold extractInt. cbn [failed unread].
      change (skipSpace (String "-" ?t)) with (String "-" t).
      cbn match. rewrite readDigits_digits by done.
      rewrite digitsValue_zero, Hz. cbn [orb].
      destruct d; done. }
    destruct d; try done; rewrite append_cons; by apply Hparse.
Qed.

Lemma readLines_written lines rest :
  Forall (fun line => lineSafe line = true) lines ->
  readLines (length lines)
    {| unread := writeLines lines +:+ rest; failed := false |}
  = (lines, {| unread := rest; failed := false |}).
Proof.
  induction 1 as [|line lines Hline _ IH]; [done|].
  cbn [length readLines].
  rewrite writeLines_cons, !append_assoc, (getline_line _ _ Hline), IH.
  done.
Qed.

Lemma readMetadata_written objectId metadata : forall rest m,
  Forall (fun entry : string * string =>
            lineSafe entry.1 = true /\ lineSafe entry.2 = true) metadata ->
  readMetadata (length metadata) objectId
    ({| unread := TrieServer.writeMetadata metadata +:+ rest;
        failed := false |}, m)
  = ({| unread := rest; failed := false |},
     foldl (fun m (entry : string * string) =>
              Trie.track_metadata objectId entry.1 entry.2 m) m metadata).
Proof.
  induction metadata as [|entry metadata IH]; intros rest m Hsafe; [done|].
  apply Forall_cons in Hsafe as [[Hkey Hvalue] Hsafe].
  cbn [length readMetadata foldl fst snd].
  rewrite writeMetadata_cons, !append_assoc.
  rewrite (getline_line _ _ Hkey), (getline_line _ _ Hvalue).
  by apply IH.
Qed.

Lemma readObjects_written
    (objects : list (Z * list (string * string))) : forall rest m,
  Forall (fun object : Z * list (string * string) =>
            Forall (fun entry : string * string =>
                      lineSafe entry.1 = true /\ lineSafe entry.2 = true)
                   object.2) objects ->
  readObjects (length objects)
    ({| unread := TrieServer.writeObjects objects +:+ rest;
        failed := false |}, m)
  = ({| unread := rest; failed := false |},
     foldl (fun m (object : Z * list (string * string)) =>
              foldl (fun m (entry : string * string) =>
                       Trie.track_metadata object.1 entry.1 entry.2 m)
                    m object.2) m objects).
Proof.
  induction objects as [|object objects IH]; intros rest m Hsafe; [done|].
  apply Forall_cons in Hsafe as [Hobject Hsafe].
  cbn [length readObjects foldl fst snd].
  rewrite writeObjects_cons, !append_assoc.
  rewrite extractInt_number by done.
  change (" " +:+ ?t) with (String " " t).
  rewrite extractInt_skip by done.
  rewrite extractInt_number by done.
  change (endl +:+ ?t) with (String newline t).
  rewrite ignore_char, Nat2Z.id.
  rewrite (readMetadata_written _ _ _ _ Hobject).
  by apply IH.
Qed.

End CheckpointParse.

Section CheckpointRoundTrip.

Import DemoServer DemoRecovery.

Lemma track_all objectId (metadata : list (string * string)) : forall m,
  metadata <> [] ->
  foldl (fun m (entry : string * string) =>
           Trie.track_metadata objectId entry.1 entry.2 m) m metadata
  = <[objectId := default [] (m !! objectId) ++ metadata]> m.
Proof.
  induction metadata as [|entry metadata IH]; intros m Hnonempty; [done|].
  cbn [foldl]. destruct metadata as [|entry' metadata].
  - cbn [foldl]. unfold Trie.track_metadata. by destruct entry.
  - rewrite IH by done. unfold Trie.track_metadata.
    rewrite lookup_insert_eq, default_Some, insert_insert_eq.
    rewrite <- app_assoc. by destruct entry.
Qed.

Lemma rebuild_map (objects : list (Z * list (string * string))) :
  forall m : Trie.Metadata,
  NoDup objects.*1 ->
  Forall (fun object => object.2 <> [] /\ m !! object.1 = None) objects ->
  foldl (fun m (object : Z * list (string * string)) =>
           foldl (fun m (entry : string * string) =>
                    Trie.track_metadata object.1 entry.1 entry.2 m)
                 m object.2) m objects
  = list_to_map objects ∪ m.
Proof.
  induction objects as [|[objectId metadata] objects IH];
    intros m Hnodup Hfresh.
  - cbn. by rewrite (left_id_L ∅ (∪)).
  - rewrite fmap_cons in Hnodup. apply NoDup_cons in Hnodup as [Hid Hnodup].
    apply Forall_cons in Hfresh as [[Hnonempty Hnone] Hfresh].
    cbn [foldl fst snd] in *.
    rewrite track_all by done. rewrite Hnone, default_None, app_nil_l.
    rewrite IH; [|done|].
    + rewrite list_to_map_cons, <- insert_union_l.
      symmetry. apply insert_union_r.
      by apply not_elem_of_list_to_map_1.
    + rewrite Forall_forall in *. intros [i md] Hin.
      destruct (Hfresh _ Hin) as [Hmd Hi]. split; [done|].
      cbn [fst] in *. rewrite lookup_insert_ne; [done|].
      intros ->. apply Hid. by apply (list_elem_of_fmap_2 fst _ (i, md)).
Qed.

Lemma lineSafe_suffixes key :
  lineSafe key = true ->
  Forall (fun suffix => lineSafe suffix = true) (Cpp.suffixes key).
Proof.
  induction key as [|c key IH]; intros Hsafe; [constructor|].
  cbn [Cpp.suffixes]. constructor; [done|].
  cbn [lineSafe] in Hsafe. apply andb_true_iff in Hsafe as [_ Hkey].
  by apply IH.
Qed.

Lemma afterInserts_checkpointable id records :
  Forall safeRecord records ->
  serverId (afterInserts id records) = id /\
  checkpointable (afterInserts id records).
Proof.
  unfold afterInserts.
  induction records as [|[[key value] objectId] records IH] using rev_ind;
    intros Hsafe.
  - split; [done|]. split; [constructor|]. split; [constructor|].
    apply map_Forall_empty.
  - apply Forall_app in Hsafe as [Hsafe Hrecord].
    apply Forall_singleton in Hrecord as [Hkey Hvalue]. cbn in Hkey, Hvalue.
    rewrite foldl_snoc.
    destruct (IH Hsafe) as (Hid & Hkeys & Hsuffixes & Hmeta).
    cbn [addIndexedKey serverId fst snd]. split; [done|].
    split; [|split];
      cbn [indexedKeys indexedSuffixes objectMetadata].
    + apply Forall_app. split; [done|]. by apply Forall_singleton.
    + apply Forall_app. split; [done|]. by apply lineSafe_suffixes.
    + unfold Trie.track_metadata. apply map_Forall_insert_2; [|done].
      split; [by destruct (default [] _)|].
      apply Forall_app. split; [|by apply Forall_singleton].
      destruct (objectMetadata _ !! objectId) as [old|] eqn:Hold.
      * rewrite default_Some. by apply (Hmeta _ _ Hold).
      * rewrite default_None. constructor.
Qed.

Lemma readObjects_skip count c text (m : Trie.Metadata) :
  Stream.isSpace c = true ->
  (readObjects count
     ({| Stream.unread := String c text; Stream.failed := false |}, m)).2
  = (readObjects count
       ({| Stream.unread := text; Stream.failed := false |}, m)).2.
Proof.
  intros Hc. destruct count as [|count]; [done|].
  cbn [readObjects fst snd]. by rewrite extractInt_skip.
Qed.

Lemma recover_checkpointable dataDir files s fresh :
  checkpointable s -> serverId fresh = serverId s ->
  recoverIndex dataDir (checkpointIndex dataDir files s).2 fresh = (true, s).
Proof.
  intros (Hkeys & Hsuffixes & Hmeta) Hid.
  unfold recoverIndex, checkpointIndex, indexFile. cbn [snd].
  rewrite Hid, lookup_insert_eq. unfold Stream.open.
  rewrite (getline_line "IDIOMS_INDEX_V1") by done.
  cbn [String.eqb Ascii.eqb Bool.eqb negb].
  rewrite extractInt_number by done.
  change (Stream.endl +:+ ?t) with (String Stream.newline t).
  rewrite ignore_char, Nat2Z.id.
  rewrite (readLines_written _ _ Hkeys).
  rewrite extractInt_number by done.
  change (Stream.endl +:+ ?t) with (String Stream.newline t).
  rewrite ignore_char, Nat2Z.id.
  rewrite (readLines_written _ _ Hsuffixes).
  rewrite extractInt_number by done.
  change (Stream.endl +:+ ?t) with (String Stream.newline t).
  rewrite readObjects_skip by done.
  rewrite Nat2Z.id, <- length_map_to_list.
  rewrite <- (append_nil_r (TrieServer.writeObjects _)).
  apply map_Forall_to_list in Hmeta.
  rewrite readObjects_written.
  - cbn [snd]. rewrite rebuild_map.
    + rewrite list_to_map_to_list, (right_id_L ∅ (∪)).
      by destruct s.
    + apply NoDup_fst_map_to_list.
    + eapply Forall_impl; [exact Hmeta|].
      intros [objectId metadata] [Hnonempty _]. split; [done|].
      apply lookup_empty.
  - eapply Forall_impl; [exact Hmeta|].
    by intros [objectId metadata] [_ Hsafe].
Qed.

(** X30: What [checkpointIndex] writes, [recoverIndex] reads back: after any
    sequence of [addIndexedKey] calls whose keys and values hold no
    newline, a new server with the same id that recovers from the
    checkpoint is in the state of the server that wrote it, with the
    same indexed keys, indexed suffixes and object metadata. *)
Theorem checkpoint_then_recover (id : Z) (dataDir : string)
    (files : TrieServer.Files) (records : list (string * string * Z)) :
  Forall safeRecord records ->
  recoverIndex dataDir
    (checkpointIndex dataDir files (afterInserts id records)).2 (new id)
  = (true, afterInserts id records).
Proof.
  intros Hsafe.
  destruct (afterInserts_checkpointable id records Hsafe) as [Hid Hs].
  by apply recover_checkpointable.
Qed.

Lemma checkpoint_then_recover_witness :
  recoverIndex "data"
    (checkpointIndex "data" ∅
       (afterInserts 0 [("StageX", "300.00", 1001); ("Run", "7", -2)])).2
    (new 0)
  = (true, afterInserts 0 [("StageX", "300.00", 1001); ("Run", "7", -2)]).
Proof.
  apply checkpoint_then_recover.
  repeat constructor.
Defined.

End CheckpointRoundTrip.
